(** * worker-go/main.go: the dashboard worker

    A shallow embedding of the Go dashboard worker: the websocket client
    registry ([clients], guarded by [clientsMu]), the broadcast dispatcher,
    the report watcher, the report loader with its HTTP handler, and the
    severity counter used by the dashboard template. *)

From Stdlib Require Import ZArith Ascii.
From Stdlib Require SpecFloat.
From stdpp Require Import gmap strings list fin_maps.

Set Warnings "-register-all,-clear-no-such-hyp".
Open Scope Z_scope.

(** ** Connections and the process state *)

(** A [*websocket.Conn] is a pointer; two handles are the same connection
    exactly when the pointers are equal, so a connection is modelled by
    its address. *)
Abbreviation Conn := positive.

(** The lines the worker passes to [log.Printf] / [log.Println]. *)
Inductive LogLine :=
  | LogClientConnected (total : nat)     (* "[ws] Client connected (total: %d)" *)
  | LogClientDisconnected (total : nat)  (* "[ws] Client disconnected (total: %d)" *)
  | LogWriteError (c : Conn)             (* "[ws] write error:", err *)
  | LogReportUpdated                     (* "[watch] Report updated, broadcasting reload" *)
  | LogUpgradeError.                     (* "[ws] upgrade:", err *)

(** The package-level variables together with what the outside world has
    seen of the connections. *)
Record World := mkWorld {
  clients   : gmap Conn bool;         (* var clients = make(map[*websocket.Conn]bool) *)
  clientsMu : bool;                   (* sync.Mutex: true while locked *)
  closed    : gset Conn;              (* connections on which Close() was called *)
  delivered : list (Conn * string);   (* text frames accepted by the transport, in order *)
  logs      : list LogLine            (* log output, in order *)
}.

Definition set_clients (f : gmap Conn bool → gmap Conn bool) (w : World) : World :=
  mkWorld (f (clients w)) (clientsMu w) (closed w) (delivered w) (logs w).
Definition set_clientsMu (b : bool) (w : World) : World :=
  mkWorld (clients w) b (closed w) (delivered w) (logs w).
Definition add_closed (c : Conn) (w : World) : World :=
  mkWorld (clients w) (clientsMu w) ({[c]} ∪ closed w) (delivered w) (logs w).
Definition add_delivered (c : Conn) (msg : string) (w : World) : World :=
  mkWorld (clients w) (clientsMu w) (closed w) (delivered w ++ [(c, msg)]) (logs w).
Definition add_log (l : LogLine) (w : World) : World :=
  mkWorld (clients w) (clientsMu w) (closed w) (delivered w) (logs w ++ [l]).

#[global] Instance LogLine_eq_dec : EqDecision LogLine.
Proof. solve_decision. Defined.

(** The change events the watcher has signaled: the occurrences of its log
    line, each written just before a call of [broadcast]. *)
Definition signals (w : World) : nat :=
  length (filter (λ l, l = LogReportUpdated) (logs w)).

(** What the registry reports as its size: [len(clients)]. *)
Definition Size (w : World) : nat := size (clients w).

(** The messages a connection's peer has received. *)
Definition received (c : Conn) (w : World) : list string :=
  (filter (λ x, x.1 = c) (delivered w)).*2.

(** What the environment decides during one call: the order in which the Go
    runtime enumerates the map in a [range] loop (unspecified, so any
    rearrangement of the keys), and the connections whose transport is
    broken, on which [WriteMessage] returns an error. *)
Record Env := mkEnv {
  rangeOrder : list Conn → list Conn;
  writeFails : gset Conn
}.

Definition env_ok (e : Env) : Prop := ∀ l, rangeOrder e l ≡ₚ l.

(** ** Statements of the registry functions *)

(** The bodies of [addClient], [removeClient] and [broadcast] are sequences
    of the following operations; a continuation receives what the operation
    returns.  [Iterating] does not occur in the source: it is what a
    [ForRange] becomes once the runtime has fixed the order of the keys. *)
Inductive Prog :=
  | Return
  | MuLock (k : Prog)                               (* clientsMu.Lock() *)
  | MuUnlock (k : Prog)                             (* clientsMu.Unlock() *)
  | MapStore (c : Conn) (k : Prog)                  (* clients[c] = true *)
  | MapDelete (c : Conn) (k : Prog)                 (* delete(clients, c) *)
  | MapLen (k : nat → Prog)                         (* len(clients) *)
  | ForRange (body : Conn → Prog) (k : Prog)        (* for c := range clients { body } *)
  | Iterating (ks : list Conn) (body : Conn → Prog) (k : Prog)
                                                    (* the same loop under way, ks still to visit *)
  | WriteMessage (c : Conn) (msg : string) (k : bool → Prog)
                                                    (* err := c.WriteMessage(TextMessage, msg); k (err != nil) *)
  | ConnClose (c : Conn) (k : Prog)                 (* c.Close() *)
  | LogPrint (l : LogLine) (k : Prog).              (* log.Printf / log.Println *)

Declare Scope prog_scope.
Delimit Scope prog_scope with prog.
Bind Scope prog_scope with Prog.
Notation "i ;; k" := (i k%prog)
  (at level 100, k at level 200, only parsing, right associativity) : prog_scope.
Notation "x ← i ; k" := (i (λ x, k%prog))
  (at level 20, i at level 100, k at level 200, only parsing) : prog_scope.

(** [func addClient(c *websocket.Conn)]; the deferred [Unlock] runs when the
    function returns, after the log line. *)
Definition addClient (c : Conn) : Prog :=
  (MuLock ;;
   MapStore c ;;
   n ← MapLen ;
   LogPrint (LogClientConnected n) ;;
   MuUnlock ;;
   Return)%prog.

(** [func removeClient(c *websocket.Conn)] *)
Definition removeClient (c : Conn) : Prog :=
  (MuLock ;;
   MapDelete c ;;
   ConnClose c ;;
   n ← MapLen ;
   LogPrint (LogClientDisconnected n) ;;
   MuUnlock ;;
   Return)%prog.

(** [func broadcast(msg string)] *)
Definition broadcast (msg : string) : Prog :=
  (MuLock ;;
   ForRange (λ c,
     failed ← WriteMessage c msg ;
     if failed : bool then
       LogPrint (LogWriteError c) ;;
       MapDelete c ;;
       ConnClose c ;;
       Return
     else Return) ;;
   MuUnlock ;;
   Return)%prog.

(** ** Sequential execution *)

(** [WriteMessage] fails on a broken transport and on a connection that was
    closed before. *)
Definition write_fails (e : Env) (w : World) (c : Conn) : bool :=
  bool_decide (c ∈ writeFails e ∨ c ∈ closed w).

(** The keys a [range] loop visits: those in the map when the loop starts,
    in the order the runtime picks. *)
Definition range_keys (e : Env) (w : World) : list Conn :=
  rangeOrder e (elements (dom (clients w))).

(** The iterations of [for c := range clients]: the keys are visited in the
    order given, and a key deleted before the loop reached it is skipped. *)
Definition range_loop (run : Conn → World → option World) :
    list Conn → World → option World :=
  fix loop ks w :=
    match ks with
    | [] => Some w
    | c :: ks' =>
        if decide (c ∈ dom (clients w)) then
          match run c w with
          | Some w' => loop ks' w'
          | None => None
          end
        else loop ks' w
    end.

(** One caller running a statement sequence to its end.  [None]: the caller
    never returns, because it waits for a mutex nobody will release, or the
    runtime aborts on unlocking an unlocked mutex. *)
Fixpoint exec (e : Env) (p : Prog) (w : World) : option World :=
  match p with
  | Return => Some w
  | MuLock k => if clientsMu w then None else exec e k (set_clientsMu true w)
  | MuUnlock k => if clientsMu w then exec e k (set_clientsMu false w) else None
  | MapStore c k => exec e k (set_clients (insert c true) w)
  | MapDelete c k => exec e k (set_clients (delete c) w)
  | MapLen k => exec e (k (size (clients w))) w
  | ForRange body k =>
      match range_loop (λ c, exec e (body c)) (range_keys e w) w with
      | Some w' => exec e k w'
      | None => None
      end
  | Iterating ks body k =>
      match range_loop (λ c, exec e (body c)) ks w with
      | Some w' => exec e k w'
      | None => None
      end
  | WriteMessage c msg k =>
      if write_fails e w c then exec e (k true) w
      else exec e (k false) (add_delivered c msg w)
  | ConnClose c k => exec e k (add_closed c w)
  | LogPrint l k => exec e k (add_log l w)
  end.

(** ** Concurrent callers *)

(** [p] followed by [q]. *)
Fixpoint seq (p q : Prog) : Prog :=
  match p with
  | Return => q
  | MuLock k => MuLock (seq k q)
  | MuUnlock k => MuUnlock (seq k q)
  | MapStore c k => MapStore c (seq k q)
  | MapDelete c k => MapDelete c (seq k q)
  | MapLen k => MapLen (λ n, seq (k n) q)
  | ForRange body k => ForRange body (seq k q)
  | Iterating ks body k => Iterating ks body (seq k q)
  | WriteMessage c msg k => WriteMessage c msg (λ failed, seq (k failed) q)
  | ConnClose c k => ConnClose c (seq k q)
  | LogPrint l k => LogPrint l (seq k q)
  end.

(** One operation of one goroutine: the code left to run and the shared
    state, before and after.  [Lock] proceeds only on a free mutex; any
    write may fail, and a write to a closed connection does. *)
Inductive thread_step : Prog → World → Prog → World → Prop :=
  | ts_lock k w :
      clientsMu w = false →
      thread_step (MuLock k) w k (set_clientsMu true w)
  | ts_unlock k w :
      clientsMu w = true →
      thread_step (MuUnlock k) w k (set_clientsMu false w)
  | ts_store c k w :
      thread_step (MapStore c k) w k (set_clients (insert c true) w)
  | ts_delete c k w :
      thread_step (MapDelete c k) w k (set_clients (delete c) w)
  | ts_len k w :
      thread_step (MapLen k) w (k (size (clients w))) w
  | ts_range body k w ks :
      ks ≡ₚ elements (dom (clients w)) →
      thread_step (ForRange body k) w (Iterating ks body k) w
  | ts_visit c ks body k w :
      c ∈ dom (clients w) →
      thread_step (Iterating (c :: ks) body k) w (seq (body c) (Iterating ks body k)) w
  | ts_skip c ks body k w :
      c ∉ dom (clients w) →
      thread_step (Iterating (c :: ks) body k) w (Iterating ks body k) w
  | ts_range_end body k w :
      thread_step (Iterating [] body k) w k w
  | ts_write c msg k w :
      c ∉ closed w →
      thread_step (WriteMessage c msg k) w (k false) (add_delivered c msg w)
  | ts_write_error c msg k w :
      thread_step (WriteMessage c msg k) w (k true) w
  | ts_close c k w :
      thread_step (ConnClose c k) w k (add_closed c w)
  | ts_log l k w :
      thread_step (LogPrint l k) w k (add_log l w).

(** The calls of the registry functions that goroutines make. *)
Inductive Call :=
  | CallAddClient (c : Conn)
  | CallRemoveClient (c : Conn)
  | CallBroadcast (msg : string).

Definition call_prog (f : Call) : Prog :=
  match f with
  | CallAddClient c => addClient c
  | CallRemoveClient c => removeClient c
  | CallBroadcast msg => broadcast msg
  end.

(** A goroutine inside such a call: the call, the code left to run, and
    whether it has locked [clientsMu] and not yet unlocked it. *)
Record Thread := mkThread {
  origin  : Call;
  code    : Prog;
  holding : bool
}.

Definition holding_after (p : Prog) (h : bool) : bool :=
  match p with
  | MuLock _ => true
  | MuUnlock _ => false
  | _ => h
  end.

(** Any number of goroutines: at each moment a new call starts or one of
    the callers performs its next operation. *)
Inductive pool_step : list Thread * World → list Thread * World → Prop :=
  | pool_call ts w f :
      pool_step (ts, w) (ts ++ [mkThread f (call_prog f) false], w)
  | pool_run ts w i t p' w' :
      ts !! i = Some t →
      thread_step (code t) w p' w' →
      pool_step (ts, w)
        (<[i := mkThread (origin t) p' (holding_after (code t) (holding t))]> ts, w').

(** The operations that read or write the map [clients]. *)
Definition accesses_clients (p : Prog) : bool :=
  match p with
  | MapStore _ _ | MapDelete _ _ | MapLen _ | ForRange _ _ | Iterating _ _ _ => true
  | _ => false
  end.

(** Code without any operation on the mutex. *)
Inductive lockfree : Prog → Prop :=
  | lockfree_Return : lockfree Return
  | lockfree_MapStore c k : lockfree k → lockfree (MapStore c k)
  | lockfree_MapDelete c k : lockfree k → lockfree (MapDelete c k)
  | lockfree_MapLen k : (∀ n, lockfree (k n)) → lockfree (MapLen k)
  | lockfree_ForRange body k :
      (∀ c, lockfree (body c)) → lockfree k → lockfree (ForRange body k)
  | lockfree_Iterating ks body k :
      (∀ c, lockfree (body c)) → lockfree k → lockfree (Iterating ks body k)
  | lockfree_WriteMessage c msg k :
      (∀ failed, lockfree (k failed)) → lockfree (WriteMessage c msg k)
  | lockfree_ConnClose c k : lockfree k → lockfree (ConnClose c k)
  | lockfree_LogPrint l k : lockfree k → lockfree (LogPrint l k).

(** The rest of a critical section: code that, whatever the operations
    return, performs no operation on the mutex until it unlocks it as its
    last operation. *)
Inductive critical : Prog → Prop :=
  | critical_MuUnlock : critical (MuUnlock Return)
  | critical_MapStore c k : critical k → critical (MapStore c k)
  | critical_MapDelete c k : critical k → critical (MapDelete c k)
  | critical_MapLen k : (∀ n, critical (k n)) → critical (MapLen k)
  | critical_ForRange body k :
      (∀ c, lockfree (body c)) → critical k → critical (ForRange body k)
  | critical_Iterating ks body k :
      (∀ c, lockfree (body c)) → critical k → critical (Iterating ks body k)
  | critical_WriteMessage c msg k :
      (∀ failed, critical (k failed)) → critical (WriteMessage c msg k)
  | critical_ConnClose c k : critical k → critical (ConnClose c k)
  | critical_LogPrint l k : critical k → critical (LogPrint l k).

(** A caller has not started, or has returned, or is in its critical
    section and holds the mutex. *)
Definition thread_ok (t : Thread) : Prop :=
  (holding t = false ∧ (code t = call_prog (origin t) ∨ code t = Return))
  ∨ (holding t = true ∧ critical (code t)).

Definition pool_inv (ts : list Thread) (w : World) : Prop :=
  (∀ i t, ts !! i = Some t → thread_ok t)
  ∧ (∀ i j ti tj, ts !! i = Some ti → ts !! j = Some tj →
       holding ti = true → holding tj = true → i = j)
  ∧ (clientsMu w = true ↔ ∃ i t, ts !! i = Some t ∧ holding t = true).

(** ** Times and files *)

(** A [time.Time] without monotonic clock reading, as the wall-clock instant
    it denotes: nanoseconds since the zero [Time], 1 January of year 1,
    00:00:00 UTC.  [os.Stat] and the zero value both give such times. *)
Abbreviation Time := Z.

(** [var last time.Time] starts as the zero value. *)
Definition zeroTime : Time := 0.

(** [t.After(u)] *)
Definition After (t u : Time) : bool := bool_decide (u < t).

(** Arithmetic on [int64] wraps around. *)
Definition wrap64 (z : Z) : Z := (z + 2 ^ 63) mod 2 ^ 64 - 2 ^ 63.

(** [time.Unix(sec, nsec)], for [sec] and [nsec] of type [int64]: [nsec] is
    brought into the range of one second, carrying into [sec]; the Unix
    epoch lies 62135596800 seconds after the zero [Time], and the seconds
    since the zero [Time] are kept in an [int64]. *)
Definition unixToInternal : Z := 62135596800.
Definition Unix (sec nsec : Z) : Time :=
  wrap64 (sec + nsec / 1000000000 + unixToInternal) * 1000000000
  + nsec mod 1000000000.

(** JSON text, after the lexical layer: an object keeps its members in the
    order written (duplicates included).  The type is shared by the text the
    worker reads, where a number is its literal ([json]), and the text it
    writes, where a number is the Go value written ([JSON Number], below). *)
Inductive JSON (N : Type) :=
  | JNull
  | JBool (b : bool)
  | JNum (n : N)
  | JStr (s : string)
  | JArr (l : list (JSON N))
  | JObj (members : list (string * JSON N)).

Arguments JNull {N}.
Arguments JBool {N} b.
Arguments JNum {N} n.
Arguments JStr {N} s.
Arguments JArr {N} l.
Arguments JObj {N} members.

Abbreviation json := (JSON string).

(** The bytes [os.ReadFile] returns: bytes that are not valid JSON text
    (with the message of the [*json.SyntaxError] the decoder reports for
    them), or the JSON text of a value. *)
Inductive Bytes :=
  | Malformed (msg : string)
  | JsonText (v : json).

(** What reading a file gives: its bytes, or the failure of the [op]
    ([open] or [read]) that did not succeed, with the text of the system's
    error (a directory, missing permissions, an I/O error). *)
Inductive FileData :=
  | Readable (b : Bytes)
  | Unreadable (op msg : string).

Coercion Readable : Bytes >-> FileData.

Record File := mkFile {
  content : FileData;
  modTime : Time      (* info.ModTime() *)
}.

(** The file system, as far as the worker looks at it: the entries that
    [os.Stat] finds, by path; a path without entry does not exist. *)
Abbreviation FS := (gmap string File).

(** The [error] values the worker can see. *)
Inductive error :=
  | PathError (op path msg : string)     (* *fs.PathError: Op, Path, Err.Error() *)
  | SyntaxError (msg : string)           (* *json.SyntaxError *)
  | UnmarshalTypeError (value gotype inStruct inField : string).
                                         (* *json.UnmarshalTypeError *)

(** [err.Error()] *)
Definition ErrorText (err : error) : string :=
  match err with
  | PathError op path msg => op +:+ " " +:+ path +:+ ": " +:+ msg
  | SyntaxError msg => msg
  | UnmarshalTypeError value gotype inStruct inField =>
      if bool_decide (inStruct ≠ "" ∨ inField ≠ "") then
        "json: cannot unmarshal " +:+ value +:+ " into Go struct field "
          +:+ inStruct +:+ "." +:+ inField +:+ " of type " +:+ gotype
      else
        "json: cannot unmarshal " +:+ value +:+ " into Go value of type " +:+ gotype
  end.

(** The text of [syscall.ENOENT]. *)
Definition ENOENT : string := "no such file or directory".

(** [os.Stat(path)] *)
Definition Stat (fs : FS) (path : string) : File + error :=
  match fs !! path with
  | Some f => inl f
  | None => inr (PathError "stat" path ENOENT)
  end.

(** [os.ReadFile(path)] *)
Definition ReadFile (fs : FS) (path : string) : Bytes + error :=
  match fs !! path with
  | Some f =>
      match content f with
      | Readable b => inl b
      | Unreadable op msg => inr (PathError op path msg)
      end
  | None => inr (PathError "open" path ENOENT)
  end.

(** ** The report watcher *)

(** One iteration of the [for] loop of [watchReport], up to the
    [time.Sleep]: [last] is the loop's local variable, [fs] the file system
    at the time of the [os.Stat] call. *)
Definition watch_iter (e : Env) (path : string) (fs : FS)
    (last : Time) (w : World) : option (Time * World) :=
  match Stat fs path with
  | inl info =>
      if After (modTime info) last then
        match exec e (broadcast "reload") (add_log LogReportUpdated w) with
        | Some w' => Some (modTime info, w')
        | None => None
        end
      else Some (last, w)
  | inr _ => Some (last, w)
  end.

(** [func watchReport(path string)] never returns; its first [length polls]
    iterations, where the i-th iteration meets the environment and the file
    system [polls !! i]. *)
Fixpoint watch_loop (path : string) (polls : list (Env * FS))
    (last : Time) (w : World) : option (Time * World) :=
  match polls with
  | [] => Some (last, w)
  | (e, fs) :: polls' =>
      match watch_iter e path fs last w with
      | Some (last', w') => watch_loop path polls' last' w'
      | None => None
      end
  end.

Definition watchReport (path : string) (polls : list (Env * FS)) (w : World) :
    option (Time * World) :=
  watch_loop path polls zeroTime w.

(** ** The websocket handler *)

(** The handler of [/ws] serves one request.  It waits for the result of
    [upgrader.Upgrade], then for the result of every [conn.ReadMessage]. *)
Inductive WsState :=
  | Connecting                (* before upgrader.Upgrade returns *)
  | Registered (c : Conn)     (* in the read loop *)
  | Closed (c : Conn)         (* after removeClient(conn); break *)
  | Rejected.                 (* the upgrade failed; the handler returned *)

Inductive WsEvent :=
  | UpgradeOk (c : Conn)      (* Upgrade returned the new connection c *)
  | UpgradeFail               (* Upgrade returned an error *)
  | ReadOk                    (* ReadMessage returned a message *)
  | ReadFail.                 (* ReadMessage returned an error *)

(** What the handler does when the call it waits for returns; [None] when
    the handler is not waiting for such a call. *)
Definition ws_handler (e : Env) (st : WsState) (ev : WsEvent) (w : World) :
    option (WsState * World) :=
  match st, ev with
  | Connecting, UpgradeOk c =>
      match exec e (addClient c) w with
      | Some w' => Some (Registered c, w')
      | None => None
      end
  | Connecting, UpgradeFail => Some (Rejected, add_log LogUpgradeError w)
  | Registered c, ReadOk => Some (Registered c, w)
  | Registered c, ReadFail =>
      match exec e (removeClient c) w with
      | Some w' => Some (Closed c, w')
      | None => None
      end
  | _, _ => None
  end.

(** The server: the process state, the handlers of the [/ws] requests
    accepted so far, the connections [Upgrade] has created so far, and the
    watcher's [last]. *)
Record Server := mkServer {
  world    : World;
  handlers : list WsState;
  created  : gset Conn;
  last     : Time
}.

Definition init_world : World := mkWorld ∅ false ∅ [] [].
Definition init_server : Server := mkServer init_world [] ∅ zeroTime.

(** The server's moves.  The calls of [addClient], [removeClient] and
    [broadcast] exclude each other through [clientsMu], so each runs to its
    end before the next starts.  [Upgrade] allocates the connection it
    returns: a pointer no earlier connection has. *)
Inductive server_step (path : string) : Server → Server → Prop :=
  | step_accept s :
      server_step path s
        (mkServer (world s) (handlers s ++ [Connecting]) (created s) (last s))
  | step_handler s i e st ev st' w' :
      env_ok e →
      handlers s !! i = Some st →
      (∀ c, ev = UpgradeOk c → c ∉ created s) →
      ws_handler e st ev (world s) = Some (st', w') →
      server_step path s
        (mkServer w' (<[i:=st']> (handlers s))
           (match ev with UpgradeOk c => {[c]} ∪ created s | _ => created s end)
           (last s))
  | step_watch s e fs last' w' :
      env_ok e →
      watch_iter e path fs (last s) (world s) = Some (last', w') →
      server_step path s (mkServer w' (handlers s) (created s) last').

Definition server_reachable (path : string) (s : Server) : Prop :=
  rtc (server_step path) init_server s.

(** ** The report and its JSON form *)

(** A [float64] is a binary64 number of IEEE 754: 53 bits of precision,
    exponents up to 1024. *)
Abbreviation float64 := SpecFloat.spec_float.

Definition zeroFloat : float64 := SpecFloat.S754_zero false.

(** What [encoding/json] stores in an [interface{}]: [nil], a [bool], a
    [float64], a [string], a [[]interface{}] or a [map[string]interface{}].
    A map is kept as the list of its entries in increasing order of the
    keys, no key twice: the order in which the encoder writes them. *)
Inductive any :=
  | AnyNil
  | AnyBool (b : bool)
  | AnyFloat (f : float64)
  | AnyString (s : string)
  | AnySlice (l : list any)
  | AnyMap (m : list (string * any)).

(** [m[k] = v] *)
Fixpoint map_set {A} (k : string) (v : A) (m : list (string * A)) : list (string * A) :=
  match m with
  | [] => [(k, v)]
  | (k', v') :: m' =>
      match String.compare k k' with
      | Lt => (k, v) :: m
      | Eq => (k, v) :: m'
      | Gt => (k', v') :: map_set k v m'
      end
  end.

(** A slice that is not [nil]: its elements, and the elements its backing
    array still holds beyond its length (left there when the slice was cut
    short; everything further on is zero). *)
Record Slice (A : Type) := mkSlice {
  items : list A;
  spare : list A
}.

Arguments mkSlice {A} items spare.
Arguments items {A} s.
Arguments spare {A} s.

(** A slice or map field is [None] while it is [nil]. *)
Record ScanResult := mkScanResult {
  URL             : string;                        (* `json:"url"` *)
  Status          : Z;                             (* int `json:"status"` *)
  SecurityHeaders : option (list (string * any));  (* map[string]interface{} `json:"security_headers"` *)
  Issues          : option (Slice string);         (* []string `json:"issues"` *)
  Severity        : string;                        (* `json:"severity"` *)
  Error           : string;                        (* `json:"error"` *)
  ResponseTimeMs  : float64;                       (* float64 `json:"response_time_ms"` *)
  Timestamp       : string                         (* `json:"timestamp"` *)
}.

Record Report := mkReport {
  ScanID          : string;                        (* `json:"scan_id"` *)
  ReportTimestamp : string;                        (* Timestamp string `json:"timestamp"` *)
  DurationSeconds : float64;                       (* float64 `json:"duration_seconds"` *)
  TotalTargets    : Z;                             (* int `json:"total_targets"` *)
  Results         : option (Slice ScanResult)      (* []ScanResult `json:"results"` *)
}.

(** The zero values [var r ScanResult] and [var report Report]. *)
Definition zeroScanResult : ScanResult :=
  mkScanResult "" 0 None None "" "" zeroFloat "".
Definition zeroReport : Report := mkReport "" "" zeroFloat 0 None.

(** Go's [int] has 64 bits. *)
Definition minInt : Z := - 2 ^ 63.
Definition maxInt : Z := 2 ^ 63 - 1.

(** *** Numeric literals *)

(** A numeric literal of JSON, read: the sign, the digits of the integer and
    fraction parts as one number, the power of ten they are to be multiplied
    with, and whether the literal is written without fraction and
    exponent. *)
Record Decimal := mkDecimal {
  dec_neg    : bool;
  dec_digits : N;
  dec_exp    : Z;
  dec_plain  : bool
}.

Definition digit_of (a : Ascii.ascii) : option N :=
  let n := Ascii.N_of_ascii a in
  if bool_decide (48 ≤ n ≤ 57)%N then Some (n - 48)%N else None.

(** The digits at the head of [s], appended to the digits [acc]: the
    number, how many digits were read, and the rest of [s]. *)
Fixpoint read_digits (s : string) (acc : N) (count : nat) : N * nat * string :=
  match s with
  | String a s' =>
      match digit_of a with
      | Some d => read_digits s' (10 * acc + d)%N (S count)
      | None => (acc, count, s)
      end
  | EmptyString => (acc, count, s)
  end.

(** The fraction part, if there is one. *)
Definition read_fraction (s : string) (int : N) : option (N * nat * string) :=
  match s with
  | String "."%char s' =>
      let '(m, k, rest) := read_digits s' int 0%nat in
      if bool_decide (k = 0%nat) then None else Some (m, k, rest)
  | _ => Some (int, 0%nat, s)
  end.

(** The exponent part, if there is one, up to the end of the literal. *)
Definition read_exponent (s : string) : option (Z * bool) :=
  match s with
  | EmptyString => Some (0, false)
  | String a s' =>
      if bool_decide (a = "e"%char ∨ a = "E"%char) then
        let '(minus, s'') :=
          match s' with
          | String "+"%char t => (false, t)
          | String "-"%char t => (true, t)
          | _ => (false, s')
          end in
        let '(x, j, rest) := read_digits s'' 0%N 0%nat in
        if bool_decide (j ≠ 0%nat ∧ rest = EmptyString)
        then Some (if minus then - Z.of_N x else Z.of_N x, true)
        else None
      else None
  end.

(** The grammar of a JSON number: an optional minus sign, an integer part
    without superfluous zeros, an optional fraction, an optional exponent. *)
Definition parseNumber (lit : string) : option Decimal :=
  let '(neg, s) :=
    match lit with
    | String "-"%char s' => (true, s')
    | _ => (false, lit)
    end in
  let '(int, n, s1) := read_digits s 0%N 0%nat in
  let leading_zero := match s with String "0"%char _ => true | _ => false end in
  if bool_decide (n = 0%nat) || (leading_zero && negb (bool_decide (n = 1%nat)))
  then None
  else
    match read_fraction s1 int with
    | None => None
    | Some (m, k, s2) =>
        match read_exponent s2 with
        | None => None
        | Some (x, has_exp) =>
            Some (mkDecimal neg m (x - Z.of_nat k)
                    (bool_decide (k = 0%nat) && negb has_exp))
        end
    end.

(** [strconv.ParseInt(lit, 10, 64)] on a JSON number: the literal must be
    plain and fit 64 bits. *)
Definition parseInt (lit : string) : option Z :=
  match parseNumber lit with
  | Some d =>
      let z := if dec_neg d then - Z.of_N (dec_digits d) else Z.of_N (dec_digits d) in
      if dec_plain d && bool_decide (minInt ≤ z ≤ maxInt) then Some z else None
  | None => None
  end.

(** The binary64 number nearest to [± m · 10 ^ e] (to even on a tie), or
    an infinity when that lies beyond the largest finite number. *)
Definition round64 (neg : bool) (m : positive) (e : Z) : float64 :=
  if bool_decide (0 ≤ e) then
    SpecFloat.binary_normalize 53 1024
      (SpecFloat.cond_Zopp neg (Z.pos m * 10 ^ e)) 0 neg
  else
    SpecFloat.SFdiv 53 1024
      (SpecFloat.S754_finite neg m 0)
      (SpecFloat.S754_finite false (Z.to_pos (10 ^ (- e))) 0).

(** [strconv.ParseFloat(lit, 64)] on a JSON number: the nearest [float64];
    a literal beyond the range of [float64] is an error, one too small
    becomes zero. *)
Definition parseFloat (lit : string) : option float64 :=
  match parseNumber lit with
  | Some d =>
      match dec_digits d with
      | N0 => Some (SpecFloat.S754_zero (dec_neg d))
      | Npos m =>
          match round64 (dec_neg d) m (dec_exp d) with
          | SpecFloat.S754_infinity _ => None
          | f => Some f
          end
      end
  | None => None
  end.

(** *** Decoding *)

(** The name [encoding/json] gives a JSON value in an
    [UnmarshalTypeError]. *)
Definition json_kind (v : json) : string :=
  match v with
  | JNull => "null"
  | JBool _ => "bool"
  | JNum _ => "number"
  | JStr _ => "string"
  | JArr _ => "array"
  | JObj _ => "object"
  end.

(** Where the decoder stands: the struct type whose field it is decoding,
    and the names of the fields from the root down to it. *)
Record Context := mkContext {
  Struct     : string;
  FieldStack : list string
}.

(** Outside any struct. *)
Definition top : Context := mkContext "" [].

(** In the field [name] of a struct of type [t]. *)
Definition field (t name : string) (ctx : Context) : Context :=
  mkContext t (FieldStack ctx ++ [name]).

Definition type_error (ctx : Context) (value gotype : string) : error :=
  UnmarshalTypeError value gotype (Struct ctx) (String.concat "." (FieldStack ctx)).

(** The decoder keeps the first error it meets and goes on. *)
Definition first_error (a b : option error) : option error :=
  match a with Some _ => a | None => b end.

(** Decoding into a field that holds [old].  A JSON [null] leaves a string
    or a number as it is and sets a slice or a map to [nil]; a value of the
    wrong kind, or a number the field cannot hold, leaves the field as it is
    and is reported. *)
Definition decodeString (ctx : Context) (v : json) (old : string) :
    string * option error :=
  match v with
  | JStr s => (s, None)
  | JNull => (old, None)
  | _ => (old, Some (type_error ctx (json_kind v) "string"))
  end.

Definition decodeInt (ctx : Context) (v : json) (old : Z) : Z * option error :=
  match v with
  | JNum lit =>
      match parseInt lit with
      | Some z => (z, None)
      | None => (old, Some (type_error ctx ("number " +:+ lit) "int"))
      end
  | JNull => (old, None)
  | _ => (old, Some (type_error ctx (json_kind v) "int"))
  end.

Definition decodeFloat64 (ctx : Context) (v : json) (old : float64) :
    float64 * option error :=
  match v with
  | JNum lit =>
      match parseFloat lit with
      | Some f => (f, None)
      | None => (old, Some (type_error ctx ("number " +:+ lit) "float64"))
      end
  | JNull => (old, None)
  | _ => (old, Some (type_error ctx (json_kind v) "float64"))
  end.

(** The elements of an array, one after the other: the i-th is decoded
    into what the backing array holds at i, or into a zero value beyond
    it. *)
Fixpoint decodeElems {A} (dec : json → A → A * option error) (zero : A)
    (l : list json) (backing : list A) : list A * option error :=
  match l with
  | [] => ([], None)
  | v :: l' =>
      let '(x, err) := dec v (default zero (head backing)) in
      let '(xs, err') := decodeElems dec zero l' (tail backing) in
      (x :: xs, first_error err err')
  end.

(** The members of an object, stored into a map one after the other. *)
Definition decodeEntries {A} (dec : json → A * option error)
    (ms : list (string * json)) (m : list (string * A)) :
    list (string * A) * option error :=
  foldl (λ acc kv, let '(y, err) := dec kv.2 in
                   (map_set kv.1 y acc.1, first_error acc.2 err))
        (m, None) ms.

(** Decoding into an [interface{}]: a new value, whatever the field held.
    The elements of an array go into a new slice, the members of an object
    into a new map, one after the other. *)
Fixpoint decodeAny (ctx : Context) (v : json) : any * option error :=
  match v with
  | JNull => (AnyNil, None)
  | JBool b => (AnyBool b, None)
  | JNum lit =>
      match parseFloat lit with
      | Some f => (AnyFloat f, None)
      | None => (AnyNil, Some (type_error ctx ("number " +:+ lit) "float64"))
      end
  | JStr s => (AnyString s, None)
  | JArr l =>
      let '(xs, err) := decodeElems (λ x _, decodeAny ctx x) AnyNil l [] in
      (AnySlice xs, err)
  | JObj ms =>
      let '(m, err) := decodeEntries (decodeAny ctx) ms [] in
      (AnyMap m, err)
  end.

(** An array into a slice: the slice is extended over its backing array
    and grown as the elements come (nothing is set to zero first), and cut
    to the number of elements at the end; an empty array gives a new empty
    slice. *)
Definition decodeSlice {A} (dec : json → A → A * option error) (zero : A)
    (l : list json) (old : option (Slice A)) : option (Slice A) * option error :=
  match l with
  | [] => (Some (mkSlice [] []), None)
  | _ =>
      let backing := match old with Some s => items s ++ spare s | None => [] end in
      let '(xs, err) := decodeElems dec zero l backing in
      (Some (mkSlice xs (drop (length l) backing)), err)
  end.

Definition decodeStrings (ctx : Context) (v : json) (old : option (Slice string)) :
    option (Slice string) * option error :=
  match v with
  | JArr l => decodeSlice (decodeString ctx) "" l old
  | JNull => (None, None)
  | _ => (old, Some (type_error ctx (json_kind v) "[]string"))
  end.

(** An object into a map: the map the field holds is kept (a new one is
    made if it is [nil]) and the members are stored one after the other. *)
Definition decodeMap (ctx : Context) (v : json) (old : option (list (string * any))) :
    option (list (string * any)) * option error :=
  match v with
  | JObj ms =>
      let '(m, err) := decodeEntries (decodeAny ctx) ms (default [] old) in
      (Some m, err)
  | JNull => (None, None)
  | _ => (old, Some (type_error ctx (json_kind v) "map[string]interface {}"))
  end.

(** An object key selects the field whose name it equals after case
    folding.  The names here are lower-case ASCII; the characters that fold
    to a lower-case ASCII letter are the upper-case ASCII letters, the
    Kelvin sign U+212A (bytes 226 132 170, folds to k) and the long s
    U+017F (bytes 197 191, folds to s). *)
Definition lower_ascii (a : Ascii.ascii) : Ascii.ascii :=
  let n := Ascii.N_of_ascii a in
  if bool_decide (65 ≤ n ≤ 90)%N then Ascii.ascii_of_N (n + 32) else a.

Fixpoint lower (s : string) : string :=
  match s with
  | EmptyString => EmptyString
  | String "226"%char (String "132"%char (String "170"%char s')) =>
      String "k"%char (lower s')
  | String "197"%char (String "191"%char s') => String "s"%char (lower s')
  | String a s' => String (lower_ascii a) (lower s')
  end.

Definition names (name key : string) : bool := bool_decide (lower key = name).

(** One member of the object of a probe result; [ctx] is where the probe
    result stands. *)
Definition decodeScanResultMember (ctx : Context) (r : ScanResult) (kv : string * json) :
    ScanResult * option error :=
  let '(key, v) := kv in
  let at_field name := field "ScanResult" name ctx in
  if names "url" key then
    let '(x, err) := decodeString (at_field "url") v (URL r) in
    (mkScanResult x (Status r) (SecurityHeaders r) (Issues r) (Severity r)
       (Error r) (ResponseTimeMs r) (Timestamp r), err)
  else if names "status" key then
    let '(x, err) := decodeInt (at_field "status") v (Status r) in
    (mkScanResult (URL r) x (SecurityHeaders r) (Issues r) (Severity r)
       (Error r) (ResponseTimeMs r) (Timestamp r), err)
  else if names "security_headers" key then
    let '(x, err) := decodeMap (at_field "security_headers") v (SecurityHeaders r) in
    (mkScanResult (URL r) (Status r) x (Issues r) (Severity r)
       (Error r) (ResponseTimeMs r) (Timestamp r), err)
  else if names "issues" key then
    let '(x, err) := decodeStrings (at_field "issues") v (Issues r) in
    (mkScanResult (URL r) (Status r) (SecurityHeaders r) x (Severity r)
       (Error r) (ResponseTimeMs r) (Timestamp r), err)
  else if names "severity" key then
    let '(x, err) := decodeString (at_field "severity") v (Severity r) in
    (mkScanResult (URL r) (Status r) (SecurityHeaders r) (Issues r) x
       (Error r) (ResponseTimeMs r) (Timestamp r), err)
  else if names "error" key then
    let '(x, err) := decodeString (at_field "error") v (Error r) in
    (mkScanResult (URL r) (Status r) (SecurityHeaders r) (Issues r) (Severity r)
       x (ResponseTimeMs r) (Timestamp r), err)
  else if names "response_time_ms" key then
    let '(x, err) := decodeFloat64 (at_field "response_time_ms") v (ResponseTimeMs r) in
    (mkScanResult (URL r) (Status r) (SecurityHeaders r) (Issues r) (Severity r)
       (Error r) x (Timestamp r), err)
  else if names "timestamp" key then
    let '(x, err) := decodeString (at_field "timestamp") v (Timestamp r) in
    (mkScanResult (URL r) (Status r) (SecurityHeaders r) (Issues r) (Severity r)
       (Error r) (ResponseTimeMs r) x, err)
  else (r, None).

(** The members of an object, in the order written. *)
Definition decodeMembers {A} (dec : A → string * json → A * option error)
    (ms : list (string * json)) (old : A) : A * option error :=
  foldl (λ acc kv, let '(x, err) := dec acc.1 kv in (x, first_error acc.2 err))
        (old, None) ms.

(** A probe result standing at [ctx], decoded into [old]. *)
Definition decodeScanResultAt (ctx : Context) (v : json) (old : ScanResult) :
    ScanResult * option error :=
  match v with
  | JObj ms => decodeMembers (decodeScanResultMember ctx) ms old
  | JNull => (old, None)
  | _ => (old, Some (type_error ctx (json_kind v) "main.ScanResult"))
  end.

(** A probe result that is the whole text. *)
Definition decodeScanResult (v : json) (old : ScanResult) : ScanResult * option error :=
  decodeScanResultAt top v old.

Definition decodeScanResults (ctx : Context) (v : json) (old : option (Slice ScanResult)) :
    option (Slice ScanResult) * option error :=
  match v with
  | JArr l => decodeSlice (decodeScanResultAt ctx) zeroScanResult l old
  | JNull => (None, None)
  | _ => (old, Some (type_error ctx (json_kind v) "[]main.ScanResult"))
  end.

Definition decodeReportMember (r : Report) (kv : string * json) :
    Report * option error :=
  let '(key, v) := kv in
  let at_field name := field "Report" name top in
  if names "scan_id" key then
    let '(x, err) := decodeString (at_field "scan_id") v (ScanID r) in
    (mkReport x (ReportTimestamp r) (DurationSeconds r) (TotalTargets r) (Results r), err)
  else if names "timestamp" key then
    let '(x, err) := decodeString (at_field "timestamp") v (ReportTimestamp r) in
    (mkReport (ScanID r) x (DurationSeconds r) (TotalTargets r) (Results r), err)
  else if names "duration_seconds" key then
    let '(x, err) := decodeFloat64 (at_field "duration_seconds") v (DurationSeconds r) in
    (mkReport (ScanID r) (ReportTimestamp r) x (TotalTargets r) (Results r), err)
  else if names "total_targets" key then
    let '(x, err) := decodeInt (at_field "total_targets") v (TotalTargets r) in
    (mkReport (ScanID r) (ReportTimestamp r) (DurationSeconds r) x (Results r), err)
  else if names "results" key then
    let '(x, err) := decodeScanResults (at_field "results") v (Results r) in
    (mkReport (ScanID r) (ReportTimestamp r) (DurationSeconds r) (TotalTargets r) x, err)
  else (r, None).

Definition decodeReport (v : json) (old : Report) : Report * option error :=
  match v with
  | JObj ms => decodeMembers decodeReportMember ms old
  | JNull => (old, None)
  | _ => (old, Some (type_error top (json_kind v) "main.Report"))
  end.

(** [json.Unmarshal(b, &report)]: the variable [report] after the call, and
    the error returned.  Invalid text is refused before anything is stored;
    a value of the wrong kind is reported after the rest has been stored. *)
Definition Unmarshal (b : Bytes) (report : Report) : Report * option error :=
  match b with
  | Malformed msg => (report, Some (SyntaxError msg))
  | JsonText v => decodeReport v report
  end.

(** [func loadReport(path string)], returning a [Report] pointer and an
    error; a [nil] pointer is [None], a [nil] error is [None]. *)
Definition loadReport (fs : FS) (path : string) : option Report * option error :=
  match ReadFile fs path with
  | inr err => (None, Some err)
  | inl b =>
      let '(report, err) := Unmarshal b zeroReport in
      match err with
      | Some err => (None, Some err)
      | None => (Some report, None)
      end
  end.

(** *** Encoding *)

(** A number as the encoder writes it: an [int] in decimal, a [float64] in
    the shortest decimal form that reads back as the same [float64] (the
    digits are not modelled). *)
Inductive Number :=
  | NInt (z : Z)
  | NFloat (f : float64).

(** What [json.NewEncoder(w).Encode] writes: every field of a struct under
    the name in its tag, in the order of declaration; a [nil] slice or map
    as [null]; the keys of a map in increasing order. *)
Fixpoint encodeAny (x : any) : JSON Number :=
  match x with
  | AnyNil => JNull
  | AnyBool b => JBool b
  | AnyFloat f => JNum (NFloat f)
  | AnyString s => JStr s
  | AnySlice l => JArr (encodeAny <$> l)
  | AnyMap m => JObj (prod_map id encodeAny <$> m)
  end.

Definition encodeStrings (l : option (Slice string)) : JSON Number :=
  match l with
  | None => JNull
  | Some s => JArr (JStr <$> items s)
  end.

Definition encodeMap (m : option (list (string * any))) : JSON Number :=
  match m with
  | None => JNull
  | Some m => JObj (prod_map id encodeAny <$> m)
  end.

Definition encodeScanResult (r : ScanResult) : JSON Number :=
  JObj [("url", JStr (URL r));
        ("status", JNum (NInt (Status r)));
        ("security_headers", encodeMap (SecurityHeaders r));
        ("issues", encodeStrings (Issues r));
        ("severity", JStr (Severity r));
        ("error", JStr (Error r));
        ("response_time_ms", JNum (NFloat (ResponseTimeMs r)));
        ("timestamp", JStr (Timestamp r))].

Definition encodeScanResults (l : option (Slice ScanResult)) : JSON Number :=
  match l with
  | None => JNull
  | Some s => JArr (encodeScanResult <$> items s)
  end.

Definition encodeReport (r : Report) : JSON Number :=
  JObj [("scan_id", JStr (ScanID r));
        ("timestamp", JStr (ReportTimestamp r));
        ("duration_seconds", JNum (NFloat (DurationSeconds r)));
        ("total_targets", JNum (NInt (TotalTargets r)));
        ("results", encodeScanResults (Results r))].

(** ** The handler of [/api/report] *)

Inductive Body :=
  | TextBody (s : string)
  | JsonBody (v : JSON Number).

Record Response := mkResponse {
  statusCode : Z;
  header     : list (string * string);
  body       : Body
}.

(** [http.Error(w, msg, code)] *)
Definition httpError (msg : string) (code : Z) : Response :=
  mkResponse code
    [("Content-Type", "text/plain; charset=utf-8"); ("X-Content-Type-Options", "nosniff")]
    (TextBody (msg +:+ "
")).

(** The handler registered for [/api/report]. *)
Definition apiReport (fs : FS) (reportPath : string) : Response :=
  match loadReport fs reportPath with
  | (_, Some err) => httpError (ErrorText err) 500
  | (Some report, None) =>
      mkResponse 200 [("Content-Type", "application/json")] (JsonBody (encodeReport report))
  | (None, None) =>
      mkResponse 200 [("Content-Type", "application/json")] (JsonBody JNull)
  end.

(** ** The severity counter of the dashboard template *)

(** [c++] on an [int]. *)
Definition incr (c : Z) : Z :=
  if bool_decide (c = maxInt) then minInt else c + 1.

(** [func countSeverity(results []ScanResult, sev string) int] *)
Definition countSeverity (results : list ScanResult) (sev : string) : Z :=
  foldl (λ c r, if bool_decide (Severity r = sev) then incr c else c) 0 results.

(** ** Auxiliary definitions for the broadcast pass *)

(** The body of the loop of [broadcast]. *)
Definition send_or_drop (msg : string) (c : Conn) : Prog :=
  (failed ← WriteMessage c msg ;
   if failed : bool then
     LogPrint (LogWriteError c) ;;
     MapDelete c ;;
     ConnClose c ;;
     Return
   else Return)%prog.

(** The state after the loop has visited the keys [ks], all of them
    registered, starting from [w]: the connections whose write fails are
    dropped and closed, the others have the message. *)
Definition after_pass (e : Env) (msg : string) (ks : list Conn) (w : World) : World :=
  let bad := filter (λ c, write_fails e w c = true) ks in
  let good := filter (λ c, write_fails e w c = false) ks in
  mkWorld (foldr delete (clients w) bad) (clientsMu w) (list_to_set bad ∪ closed w)
          (delivered w ++ ((λ c, (c, msg)) <$> good))
          (logs w ++ (LogWriteError <$> bad)).

(** ** Sample states *)

(** The environment in which the runtime enumerates the map in the order
    of the keys and the transport of connection 2 is broken. *)
Definition env_2_broken : Env := mkEnv id {[2%positive]}.

(** The environment in which every transport works. *)
Definition env_fine : Env := mkEnv id ∅.

(** A file system holding a report written at Unix time [sec]. *)
Definition fs_report (path : string) (sec : Z) : FS :=
  {[ path := mkFile (JsonText (JObj [])) (Unix sec 0) ]}.

(** A file system in which the report file carries the zero time as its
    modification time: Unix time -62135596800. *)
Definition fs_report_at_zero : FS := fs_report "report.json" (-62135596800).

(** A file system in which the report file is there but the worker may not
    open it; and one in which the report's path is a directory. *)
Definition fs_unreadable_report : FS :=
  {[ "report.json" :=
       mkFile (Unreadable "open" "permission denied") (Unix 1735689600 0) ]}.

Definition fs_report_is_directory : FS :=
  {[ "report.json" :=
       mkFile (Unreadable "read" "is a directory") (Unix 1735689600 0) ]}.

(** Three registered clients. *)
Definition three_clients : World :=
  mkWorld {[1%positive := true; 2%positive := true; 3%positive := true]} false ∅ [] [].

(** The server after one [/ws] request was accepted and upgraded to the
    connection 1. *)
Definition one_subscriber : Server :=
  mkServer
    (mkWorld (<[1%positive:=true]> ∅) false ∅ [] [LogClientConnected 1])
    (<[0%nat:=Registered 1%positive]> ([] ++ [Connecting]))
    ({[1%positive]} ∪ ∅)
    zeroTime.

(** What [server_reachable] maintains: between two moves the mutex is free,
    and a handler in its read loop reads from a connection [Upgrade] has
    created. *)
Definition server_inv (s : Server) : Prop :=
  clientsMu (world s) = false
  ∧ ∀ i c, handlers s !! i = Some (Registered c) → c ∈ created s.

(** A connection that has left the registry for good, as seen from the
    handler [i] that served it. *)
Definition gone (c : Conn) (i : nat) (s : Server) : Prop :=
  c ∈ created s
  ∧ (c ∉ dom (clients (world s)))
  ∧ c ∈ closed (world s)
  ∧ handlers s !! i = Some (Closed c).

(** The member of an object under a name, as a reader of the response
    finds it. *)
Fixpoint find_member {N} (name : string) (ms : list (string * JSON N)) :
    option (JSON N) :=
  match ms with
  | [] => None
  | (k, v) :: ms' => if bool_decide (k = name) then Some v else find_member name ms'
  end.

Definition member {N} (name : string) (v : JSON N) : option (JSON N) :=
  match v with
  | JObj ms => find_member name ms
  | _ => None
  end.

(** A report as the scanner stores it after a run in which the only probe
    met a refused connection: the probe has an error and no status. *)
Definition failed_probe : json :=
  JObj [("url", JStr "http://10.0.0.1:9");
        ("status", JNull);
        ("security_headers", JObj []);
        ("issues", JArr []);
        ("severity", JStr "error");
        ("error", JStr "connection refused");
        ("response_time_ms", JNull);
        ("timestamp", JStr "2025-01-01T00:00:00Z")].

Definition failed_report : json :=
  JObj [("scan_id", JStr "scan-1");
        ("timestamp", JStr "2025-01-01T00:00:00Z");
        ("duration_seconds", JNum "0.25");
        ("total_targets", JNum "1");
        ("results", JArr [failed_probe])].

Definition fs_failed_report : FS :=
  {[ "report.json" := mkFile (JsonText failed_report) (Unix 1735689600 0) ]}.

(** The report [loadReport] makes of it: the probe has the status 0, and the
    duration is the [float64] 0.25, that is 2 ^ 52 · 2 ^ -54. *)
Definition failed_report_loaded : Report :=
  mkReport "scan-1" "2025-01-01T00:00:00Z"
    (SpecFloat.S754_finite false 4503599627370496 (-54)) 1
    (Some (mkSlice
             [mkScanResult "http://10.0.0.1:9" 0 (Some []) (Some (mkSlice [] [])) "error"
                "connection refused" zeroFloat "2025-01-01T00:00:00Z"]
             [])).

(** A stored report whose results are not an array. *)
Definition fs_mistyped_report : FS :=
  {[ "report.json" :=
       mkFile (JsonText (JObj [("scan_id", JStr "scan-2"); ("results", JStr "none")]))
              (Unix 1735689600 0) ]}.

(** A probe result with the severity [sev]. *)
Definition probe_with_severity (sev : string) : ScanResult :=
  mkScanResult "http://example.com" 200 None None sev "" zeroFloat "".

(** Two goroutines have called [addClient] and [broadcast]; the first has
    locked the mutex, the second has not started. *)
Definition two_callers : list Thread * World :=
  ([mkThread (CallAddClient 1%positive)
      (MapStore 1%positive
         (MapLen (λ n, LogPrint (LogClientConnected n) (MuUnlock Return))))
      true;
    mkThread (CallBroadcast "reload") (broadcast "reload") false],
   set_clientsMu true init_world).

(** Any number of operations of one goroutine, nobody else interfering. *)
Definition thread_steps : relation (Prog * World) :=
  rtc (λ a b, thread_step a.1 a.2 b.1 b.2).

(** ** Sample polls *)

(** Four polls of the watcher: the report is not there yet, then it is there
    with the time stamp 100, twice, then the storage cannot be examined. *)
Definition four_polls : list (Env * FS) :=
  [(env_fine, ∅);
   (env_fine, fs_report "report.json" 100);
   (env_fine, fs_report "report.json" 100);
   (env_fine, ∅)].

(** ** What the server maintains *)

(** The connection a handler has got from [Upgrade], if any. *)
Definition conn_of (st : WsState) : option Conn :=
  match st with
  | Registered c | Closed c => Some c
  | Connecting | Rejected => None
  end.

(** The registry and the connections, as the server keeps them between two
    moves. *)
Definition server_wf (s : Server) : Prop :=
  (∀ c b, clients (world s) !! c = Some b →
     b = true ∧ c ∈ created s ∧ (c ∉ closed (world s))
     ∧ ∃ i, handlers s !! i = Some (Registered c))
  ∧ closed (world s) ⊆ created s
  ∧ (∀ i st c, handlers s !! i = Some st → conn_of st = Some c → c ∈ created s)
  ∧ (∀ i j sti stj c, handlers s !! i = Some sti → handlers s !! j = Some stj →
       conn_of sti = Some c → conn_of stj = Some c → i = j)
  ∧ (∀ i c, handlers s !! i = Some (Closed c) → c ∈ closed (world s))
  ∧ (∀ c m, m ∈ received c (world s) → m = "reload" ∧ c ∈ created s)
  ∧ (∀ c, length (received c (world s)) ≤ signals (world s))%nat.

(** The server of [one_subscriber] after the read from connection 1 failed. *)
Definition after_disconnect : Server :=
  mkServer
    (mkWorld (delete 1%positive (<[1%positive:=true]> ∅)) false
       ({[1%positive]} ∪ ∅) []
       ([LogClientConnected 1] ++ [LogClientDisconnected 0]))
    (<[0%nat:=Closed 1%positive]> (handlers one_subscriber))
    (created one_subscriber)
    zeroTime.

(** The server of [one_subscriber] after the watcher has found the report
    written at Unix time 100 and has sent [reload] to connection 1. *)
Definition one_reload_sent : Server :=
  mkServer
    (mkWorld {[1%positive := true]} false ∅ [(1%positive, "reload")]
       [LogClientConnected 1; LogReportUpdated])
    [Registered 1%positive]
    {[1%positive]}
    (Unix 100 0).

(** The server after two [/ws] requests were upgraded to the connections 1
    and 2 and the read from connection 1 failed. *)
Definition one_left_one_stays : Server :=
  mkServer
    (mkWorld {[2%positive := true]} false {[1%positive]} []
       [LogClientConnected 1; LogClientConnected 2; LogClientDisconnected 1])
    [Closed 1%positive; Registered 2%positive]
    {[1%positive; 2%positive]}
    zeroTime.

(** The same server after the watcher has then found the report written at
    Unix time 100: [reload] went to connection 2. *)
Definition one_left_one_reloaded : Server :=
  mkServer
    (mkWorld {[2%positive := true]} false {[1%positive]} [(2%positive, "reload")]
       [LogClientConnected 1; LogClientConnected 2; LogClientDisconnected 1;
        LogReportUpdated])
    [Closed 1%positive; Registered 2%positive]
    {[1%positive; 2%positive]}
    (Unix 100 0).

(** ** Members and samples of stored reports *)

(** The keys that select a field of [Report], and of [ScanResult]. *)
Definition report_field (key : string) : bool :=
  names "scan_id" key || names "timestamp" key || names "duration_seconds" key
  || names "total_targets" key || names "results" key.

Definition probe_field (key : string) : bool :=
  names "url" key || names "status" key || names "security_headers" key
  || names "issues" key || names "severity" key || names "error" key
  || names "response_time_ms" key || names "timestamp" key.

(** A report with one probe that succeeded. *)
Definition sample_probe : ScanResult :=
  mkScanResult "https://example.com" 200
    (Some [("Content-Security-Policy", AnyNil); ("X-Frame-Options", AnyString "DENY")])
    (Some (mkSlice ["missing Content-Security-Policy"] [])) "medium" ""
    (default zeroFloat (parseFloat "12.5"))
    "2025-01-01T00:00:00Z".

Definition sample_report : Report :=
  mkReport "scan-7" "2025-01-01T00:00:01Z" (default zeroFloat (parseFloat "0.5")) 1
    (Some (mkSlice [sample_probe] [])).

(** A stored report that carries members the worker does not know, and one
    whose array of results holds a string. *)
Definition report_with_extras : list (string * json) :=
  [("scan_id", JStr "scan-9"); ("scanner_version", JStr "2.1");
   ("total_targets", JNum "0"); ("notes", JArr [JStr "dry run"])].

Definition fs_bad_probe : FS :=
  {[ "report.json" :=
       mkFile (JsonText (JObj [("scan_id", JStr "scan-3");
                               ("results", JArr [failed_probe; JStr "oops"])]))
              (Unix 1735689600 0) ]}.

(** ** The handler of [/] and the dashboard template *)

(** The handler registered for [/]: the value it passes to the template
    under the key Report ([nil] after any error of [loadReport]). *)
Definition dashboardReport (fs : FS) (reportPath : string) : option Report :=
  match loadReport fs reportPath with
  | (_, Some _) => None
  | (report, None) => report
  end.

(** The elements of a slice that may be [nil], and the template's [len]. *)
Definition elems {A} (s : option (Slice A)) : list A :=
  match s with
  | Some s => items s
  | None => []
  end.
Definition len {A} (s : option (Slice A)) : Z := Z.of_nat (length (elems s)).

(** The status column: [{{ if .Status }}{{ .Status }}{{ else }}N/A{{ end }}]. *)
Inductive StatusCell :=
  | StatusCode (code : Z)
  | StatusNA.

Definition statusCell (r : ScanResult) : StatusCell :=
  if bool_decide (Status r = 0) then StatusNA else StatusCode (Status r).

(** The issues column: the list of issues if the slice is not empty, the
    line that no issues were detected otherwise. *)
Inductive IssuesCell :=
  | IssueList (l : list string)
  | NoIssues.

Definition issuesCell (r : ScanResult) : IssuesCell :=
  match elems (Issues r) with
  | [] => NoIssues
  | l => IssueList l
  end.

(** One row of the table of results. *)
Record Row := mkRow {
  rowSeverity : string;       (* class sev-..., and the badge *)
  rowURL      : string;
  rowStatus   : StatusCell;
  rowIssues   : IssuesCell
}.

Definition row (r : ScanResult) : Row :=
  mkRow (Severity r) (URL r) (statusCell r) (issuesCell r).

(** The five cards above the table. *)
Record Stats := mkStats {
  statTotal  : Z;     (* len $results *)
  statHigh   : Z;     (* countSeverity $results "high" *)
  statMedium : Z;
  statInfo   : Z;
  statErrors : Z
}.

(** What the template shows, without its markup: the page that waits for
    the first scan, or the page of a report with its scan id and time stamp,
    the cards, the rows of the table and the labels and bars of the chart of
    issues per endpoint.  (The duration, the response times and the table of
    security headers are not part of this view.) *)
Inductive Page :=
  | WaitingPage
  | LivePage (scanID timestamp : string) (stats : Stats) (rows : list Row)
             (barLabels : list string) (barData : list Z).

Definition render (report : option Report) : Page :=
  match report with
  | None => WaitingPage
  | Some r =>
      let results := elems (Results r) in
      LivePage (ScanID r) (ReportTimestamp r)
        (mkStats (len (Results r))
           (countSeverity results "high") (countSeverity results "medium")
           (countSeverity results "info") (countSeverity results "error"))
        (row <$> results)
        (URL <$> results)
        ((λ r, len (Issues r)) <$> results)
  end.

Definition dashboard (fs : FS) (reportPath : string) : Page :=
  render (dashboardReport fs reportPath).

(** ** Calls one after the other *)

(** The calls of a list made one after the other by one goroutine, each in
    its environment. *)
Definition run_calls (hist : list (Env * Call)) (w : World) : option World :=
  foldl (λ ow ef, match ow with
                  | Some w => exec ef.1 (call_prog ef.2) w
                  | None => None
                  end) (Some w) hist.

(** The calls of the goroutines that have returned. *)
Definition returned_call (t : Thread) : option Call :=
  match code t with
  | Return => Some (origin t)
  | _ => None
  end.

Definition returned (ts : list Thread) : list Call := omap returned_call ts.

(** What links a state of the pool to a sequential run: the calls that have
    returned, made one after the other in some order, lead to a state [ws];
    the shared state is [ws], or is what the caller holding the mutex has
    made of [ws] so far. *)
Definition serial_inv (w0 : World) (ts : list Thread) (w : World) : Prop :=
  ∃ (hist : list (Env * Call)) (ws : World),
    Forall (λ ef, env_ok ef.1) hist
    ∧ hist.*2 ≡ₚ returned ts
    ∧ run_calls hist w0 = Some ws
    ∧ (((∀ i t, ts !! i = Some t → holding t = false) ∧ w = ws)
       ∨ ∃ i t, ts !! i = Some t ∧ holding t = true
                ∧ thread_steps (call_prog (origin t), ws) (code t, w)).

(** Two goroutines have called [addClient] and [removeClient] on connection
    1, and both have returned. *)
Definition two_calls_done : list Thread * World :=
  ([mkThread (CallAddClient 1%positive) Return false;
    mkThread (CallRemoveClient 1%positive) Return false],
   mkWorld (delete 1%positive (<[1%positive:=true]> ∅)) false ({[1%positive]} ∪ ∅) []
     (([] ++ [LogClientConnected 1]) ++ [LogClientDisconnected 0])).

(** * Properties *)

(** ** The registry functions, run by one caller *)

Lemma exec_addClient e c w :
  clientsMu w = false →
  exec e (addClient c) w =
    Some (mkWorld (<[c:=true]> (clients w)) false (closed w) (delivered w)
            (logs w ++ [LogClientConnected (size (<[c:=true]> (clients w)))])).
Proof. intros Hmu. destruct w; simpl in *. by rewrite Hmu. Qed.

Lemma exec_removeClient e c w :
  clientsMu w = false →
  exec e (removeClient c) w =
    Some (mkWorld (delete c (clients w)) false ({[c]} ∪ closed w) (delivered w)
            (logs w ++ [LogClientDisconnected (size (delete c (clients w)))])).
Proof. intros Hmu. destruct w; simpl in *. by rewrite Hmu. Qed.

(** C6: register always succeeds.  Called with the mutex free, [addClient]
    returns; it has stored the connection whatever the registry held, so the
    connection is a member afterwards, the registry's size counts it (one
    more than before if it was absent, the same if it was present), and that
    size is the total written to the log. *)
Theorem addClient_registers (e : Env) (c : Conn) (w : World) :
  clientsMu w = false →
  ∃ w', exec e (addClient c) w = Some w'
    ∧ clients w' = <[c:=true]> (clients w)
    ∧ c ∈ dom (clients w')
    ∧ Size w' = (if decide (c ∈ dom (clients w)) then Size w else S (Size w))
    ∧ logs w' = logs w ++ [LogClientConnected (Size w')]
    ∧ clientsMu w' = false
    ∧ closed w' = closed w
    ∧ delivered w' = delivered w.
Proof.
  intros Hmu. eexists. split; [by apply exec_addClient|]. simpl.
  split_and!; try done.
  - rewrite dom_insert_L. set_solver.
  - unfold Size; simpl. case_decide as Hin.
    + apply elem_of_dom in Hin as [b Hb].
      rewrite <- (insert_delete_id (clients w) c b) at 2 by done.
      rewrite <- (insert_delete_eq (clients w)).
      rewrite !map_size_insert_None by apply lookup_delete_eq. done.
    + apply map_size_insert_None. by apply not_elem_of_dom.
Qed.

Lemma addClient_registers_witness :
  ∃ w', exec (mkEnv id ∅) (addClient 7%positive) init_world = Some w'
    ∧ clients w' = <[7%positive:=true]> (clients init_world)
    ∧ 7%positive ∈ dom (clients w')
    ∧ Size w' = (if decide (7%positive ∈ dom (clients init_world))
                 then Size init_world else S (Size init_world))
    ∧ logs w' = logs init_world ++ [LogClientConnected (Size w')]
    ∧ clientsMu w' = false
    ∧ closed w' = closed init_world
    ∧ delivered w' = delivered init_world.
Proof. apply (addClient_registers (mkEnv id ∅) 7%positive init_world). reflexivity. Defined.

(** C5: unregister is idempotent on the registry.  [removeClient] deletes
    the connection if it is registered and leaves the registry as it is
    otherwise; a second call with the same connection returns too and leaves
    the registry as the first call left it. *)
Theorem removeClient_idempotent (e1 e2 : Env) (c : Conn) (w : World) :
  clientsMu w = false →
  ∃ w1 w2, exec e1 (removeClient c) w = Some w1
    ∧ exec e2 (removeClient c) w1 = Some w2
    ∧ (c ∉ dom (clients w1))
    ∧ (∀ c', c' ≠ c → clients w1 !! c' = clients w !! c')
    ∧ (c ∉ dom (clients w) → clients w1 = clients w)
    ∧ clients w2 = clients w1.
Proof.
  intros Hmu. do 2 eexists.
  split; [by apply exec_removeClient|].
  split; [by apply exec_removeClient|]. simpl.
  split_and!.
  - rewrite dom_delete_L. set_solver.
  - intros c' Hne. by apply lookup_delete_ne.
  - intros Hnin. apply delete_id. by apply not_elem_of_dom.
  - apply delete_id. apply lookup_delete_eq.
Qed.

Lemma removeClient_idempotent_witness :
  ∃ w1 w2, exec env_fine (removeClient 2%positive) three_clients = Some w1
    ∧ exec env_fine (removeClient 2%positive) w1 = Some w2
    ∧ (2%positive ∉ dom (clients w1))
    ∧ (∀ c', c' ≠ 2%positive → clients w1 !! c' = clients three_clients !! c')
    ∧ (2%positive ∉ dom (clients three_clients) → clients w1 = clients three_clients)
    ∧ clients w2 = clients w1.
Proof.
  apply (removeClient_idempotent env_fine env_fine 2%positive three_clients).
  reflexivity.
Defined.

(** ** One broadcast pass *)

Lemma broadcast_unfold msg :
  broadcast msg = MuLock (ForRange (send_or_drop msg) (MuUnlock Return)).
Proof. reflexivity. Qed.

Lemma foldr_delete_delete (c : Conn) (l : list Conn) (m : gmap Conn bool) :
  foldr delete (delete c m) l = delete c (foldr delete m l).
Proof.
  induction l as [|x l IH]; simpl; [done|]. by rewrite IH, delete_delete.
Qed.

Lemma lookup_foldr_delete (l : list Conn) (m : gmap Conn bool) (c : Conn) :
  foldr delete m l !! c = if decide (c ∈ l) then None else m !! c.
Proof.
  induction l as [|x l IH]; cbn [foldr].
  - destruct (decide (c ∈ [])) as [Hin|]; [by apply not_elem_of_nil in Hin|done].
  - destruct (decide (x = c)) as [->|Hne].
    + rewrite lookup_delete_eq. by rewrite decide_True by left.
    + rewrite lookup_delete_ne by done. rewrite IH.
      destruct (decide (c ∈ l)), (decide (c ∈ x :: l)) as [Hc|Hc]; try done.
      * exfalso. apply Hc. by right.
      * apply elem_of_cons in Hc as [->|]; done.
Qed.

Lemma filter_ext_elem_of {A} (P Q : A → Prop)
    `{!∀ x, Decision (P x), !∀ x, Decision (Q x)} (l : list A) :
  (∀ x, x ∈ l → P x ↔ Q x) → filter P l = filter Q l.
Proof.
  induction l as [|x l IH]; intros Hext; [done|].
  rewrite !filter_cons, IH by (intros y Hy; apply Hext; by right).
  destruct (decide (P x)) as [HP|HP], (decide (Q x)) as [HQ|HQ]; try done.
  - exfalso. apply HQ, Hext; [by left|done].
  - exfalso. apply HP, Hext; [by left|done].
Qed.

Lemma received_fmap_pair (msg : string) (c : Conn) (l : list Conn) :
  NoDup l →
  (filter (λ x : Conn * string, x.1 = c) ((λ c', (c', msg)) <$> l)).*2
  = if decide (c ∈ l) then [msg] else [].
Proof.
  induction 1 as [|x l Hx Hnd IH]; [done|].
  rewrite fmap_cons, filter_cons. cbn [fst].
  destruct (decide (x = c)) as [->|Hne].
  - rewrite fmap_cons, IH. rewrite decide_False by done.
    by rewrite decide_True by left.
  - rewrite IH. destruct (decide (c ∈ l)) as [Hin|Hin].
    + by rewrite decide_True by (by right).
    + rewrite decide_False; [done|].
      intros [->|?]%elem_of_cons; done.
Qed.

Section pass.
(** One pass, in an environment that enumerates the map in some order. *)
Context (e : Env) (He : env_ok e) (msg : string).

Lemma exec_send_or_drop c w :
  exec e (send_or_drop msg c) w =
    Some (if write_fails e w c
          then add_closed c (set_clients (delete c) (add_log (LogWriteError c) w))
          else add_delivered c msg w).
Proof. simpl. by destruct (write_fails e w c). Qed.

(** Whether a write fails on a key still to visit does not change while
    the loop closes the connections it has visited. *)
Lemma write_fails_stable (c : Conn) (ks : list Conn) (w w1 : World) (b : bool) :
  c ∉ ks →
  closed w ⊆ closed w1 → closed w1 ⊆ {[c]} ∪ closed w →
  filter (λ c', write_fails e w1 c' = b) ks = filter (λ c', write_fails e w c' = b) ks.
Proof.
  intros Hc Hsub1 Hsub2. apply filter_ext_elem_of. intros c' Hc'.
  assert (c' ≠ c) by (intros ->; done).
  unfold write_fails.
  assert (bool_decide (c' ∈ writeFails e ∨ c' ∈ closed w1)
          = bool_decide (c' ∈ writeFails e ∨ c' ∈ closed w)) as ->; [|done].
  apply bool_decide_ext. set_solver.
Qed.

Lemma range_loop_send_or_drop ks :
  NoDup ks → ∀ w,
  (∀ c, c ∈ ks → c ∈ dom (clients w)) →
  range_loop (λ c, exec e (send_or_drop msg c)) ks w = Some (after_pass e msg ks w).
Proof.
  induction 1 as [|c ks Hc Hnd IH]; intros w Hin.
  - unfold after_pass; simpl. destruct w; simpl.
    by rewrite !app_nil_r, (left_id_L ∅ (∪)).
  - cbn [range_loop]. rewrite decide_True by (apply Hin; left).
    rewrite exec_send_or_drop.
    unfold after_pass. rewrite !filter_cons.
    destruct (write_fails e w c) eqn:Hf.
    + rewrite IH; last first.
      { intros c' Hc'. simpl. rewrite dom_delete_L.
        apply elem_of_difference. split; [apply Hin; by right|].
        intros ->%elem_of_singleton. done. }
      unfold after_pass.
      rewrite (write_fails_stable c ks w _ true), (write_fails_stable c ks w _ false)
      by (done || (simpl; set_solver)).
      rewrite decide_True by done. rewrite decide_False by done.
      f_equal. simpl. f_equal.
      * apply foldr_delete_delete.
      * set_solver.
      * by rewrite <- app_assoc.
    + rewrite IH; last first.
      { intros c' Hc'. simpl. apply Hin. by right. }
      unfold after_pass.
      rewrite (write_fails_stable c ks w _ true), (write_fails_stable c ks w _ false)
      by (done || (simpl; set_solver)).
      rewrite decide_False by done. rewrite decide_True by done.
      f_equal. simpl. f_equal. by rewrite <- app_assoc.
Qed.

Lemma range_keys_perm w : range_keys e w ≡ₚ elements (dom (clients w)).
Proof. apply He. Qed.

Lemma range_keys_NoDup w : NoDup (range_keys e w).
Proof. rewrite range_keys_perm. apply NoDup_elements. Qed.

Lemma elem_of_range_keys w c : c ∈ range_keys e w ↔ c ∈ dom (clients w).
Proof. rewrite range_keys_perm. apply elem_of_elements. Qed.

Lemma exec_broadcast w :
  clientsMu w = false →
  exec e (broadcast msg) w =
    Some (set_clientsMu false
            (after_pass e msg (range_keys e w) (set_clientsMu true w))).
Proof.
  intros Hmu. rewrite broadcast_unfold. cbn [exec]. rewrite Hmu.
  rewrite range_loop_send_or_drop.
  - done.
  - apply range_keys_NoDup.
  - intros c Hc. by apply (elem_of_range_keys (set_clientsMu true w)).
Qed.

(** What one call of [broadcast] does, whichever writes fail. *)
Lemma broadcast_spec w :
  clientsMu w = false →
  ∃ w', exec e (broadcast msg) w = Some w'
    ∧ clientsMu w' = false
    ∧ (∀ c, clients w' !! c = if write_fails e w c then None else clients w !! c)
    ∧ (∀ c, c ∈ closed w' ↔
            c ∈ closed w ∨ (c ∈ dom (clients w) ∧ write_fails e w c = true))
    ∧ (∀ c, received c w' =
            received c w ++
            if decide (c ∈ dom (clients w) ∧ write_fails e w c = false)
            then [msg] else [])
    ∧ logs w' =
        logs w ++
        (LogWriteError <$> filter (λ c, write_fails e w c = true) (range_keys e w)).
Proof.
  intros Hmu. eexists. split; [by apply exec_broadcast|].
  pose proof (elem_of_range_keys w) as Hk.
  change (range_keys e (set_clientsMu true w)) with (range_keys e w).
  unfold after_pass, set_clientsMu, received;
    cbn [clients clientsMu closed delivered logs].
  change (λ c, write_fails e
                 (mkWorld (clients w) true (closed w) (delivered w) (logs w)) c = true)
    with (λ c, write_fails e w c = true).
  change (λ c, write_fails e
                 (mkWorld (clients w) true (closed w) (delivered w) (logs w)) c = false)
    with (λ c, write_fails e w c = false).
  split_and!; try done.
  - intros c. rewrite lookup_foldr_delete.
    destruct (write_fails e w c) eqn:Hf.
    + case_decide as Hin; [done|].
      rewrite list_elem_of_filter, Hk in Hin.
      apply not_elem_of_dom. tauto.
    + rewrite decide_False; [done|].
      rewrite list_elem_of_filter. intros [? _]. congruence.
  - intros c. rewrite elem_of_union, elem_of_list_to_set, list_elem_of_filter, Hk. tauto.
  - intros c. rewrite filter_app, fmap_app. f_equal.
    rewrite received_fmap_pair by (apply NoDup_filter, range_keys_NoDup).
    apply decide_ext. rewrite list_elem_of_filter, Hk. tauto.
Qed.
End pass.

Lemma env_2_broken_ok : env_ok env_2_broken.
Proof. intros l. reflexivity. Defined.

Lemma env_fine_ok : env_ok env_fine.
Proof. intros l. reflexivity. Defined.

Lemma dom_three_clients c :
  c ∈ dom (clients three_clients) ↔ c = 1%positive ∨ c = 2%positive ∨ c = 3%positive.
Proof.
  unfold three_clients; cbn [clients]. rewrite !dom_insert_L, dom_singleton_L.
  rewrite !elem_of_union, !elem_of_singleton. tauto.
Defined.

(** C1: failure isolation.  In a pass of [broadcast] over the registry in
    which the write to exactly one registered client fails, whatever the
    order in which the runtime enumerates the map: that client is deleted
    from the registry and its connection is closed; every other registered
    client receives the message, stays registered and stays open; the
    registry's size drops by one. *)
Theorem broadcast_isolates_failure (e : Env) (msg : string) (w : World) (bad : Conn) :
  env_ok e →
  clientsMu w = false →
  bad ∈ dom (clients w) →
  write_fails e w bad = true →
  (∀ c, c ∈ dom (clients w) → c ≠ bad → write_fails e w c = false) →
  ∃ w', exec e (broadcast msg) w = Some w'
    ∧ clients w' = delete bad (clients w)
    ∧ (bad ∉ dom (clients w'))
    ∧ bad ∈ closed w'
    ∧ received bad w' = received bad w
    ∧ (∀ c, c ∈ dom (clients w) → c ≠ bad →
         received c w' = received c w ++ [msg]
         ∧ c ∈ dom (clients w')
         ∧ (c ∉ closed w'))
    ∧ Size w = S (Size w').
Proof.
  intros He Hmu Hbad Hfail Hothers.
  destruct (broadcast_spec e He msg w Hmu) as (w' & Hex & _ & Hcl & Hclosed & Hrecv & _).
  assert (Hdel : clients w' = delete bad (clients w)).
  { apply map_eq. intros c. rewrite Hcl.
    destruct (decide (c = bad)) as [->|Hne].
    - by rewrite Hfail, lookup_delete_eq.
    - rewrite lookup_delete_ne by done.
      destruct (clients w !! c) as [b|] eqn:Hc.
      + rewrite Hothers; [done| |done]. apply elem_of_dom. by eexists.
      + by destruct (write_fails e w c). }
  exists w'. split_and!; try done.
  - rewrite Hdel, dom_delete_L. apply not_elem_of_difference. right.
    by apply elem_of_singleton.
  - apply Hclosed. by right.
  - rewrite Hrecv. rewrite decide_False, app_nil_r; [done|].
    intros [_ ?]. congruence.
  - intros c Hc Hne. split_and!.
    + rewrite Hrecv. rewrite decide_True; [done|]. split; [done|]. by apply Hothers.
    + rewrite Hdel, dom_delete_L. apply elem_of_difference. split; [done|].
      by intros ?%elem_of_singleton.
    + rewrite Hclosed. intros [Hc'|[_ Hf]].
      * specialize (Hothers c Hc Hne). unfold write_fails in Hothers.
        apply bool_decide_eq_false in Hothers. tauto.
      * rewrite Hothers in Hf; done.
  - unfold Size. rewrite Hdel.
    apply elem_of_dom in Hbad as [b Hb].
    rewrite <- (insert_delete_id (clients w) bad b) at 1 by done.
    apply map_size_insert_None, lookup_delete_eq.
Qed.

(** Scenario D: three registered clients, the write to client 2 fails. *)
Lemma broadcast_isolates_failure_witness :
  ∃ w', exec env_2_broken (broadcast "reload") three_clients = Some w'
    ∧ clients w' = delete 2%positive (clients three_clients)
    ∧ (2%positive ∉ dom (clients w'))
    ∧ 2%positive ∈ closed w'
    ∧ received 2%positive w' = received 2%positive three_clients
    ∧ (∀ c, c ∈ dom (clients three_clients) → c ≠ 2%positive →
         received c w' = received c three_clients ++ ["reload"]
         ∧ c ∈ dom (clients w')
         ∧ (c ∉ closed w'))
    ∧ Size three_clients = S (Size w').
Proof.
  apply (broadcast_isolates_failure env_2_broken "reload" three_clients 2%positive).
  - exact env_2_broken_ok.
  - reflexivity.
  - apply dom_three_clients. right; left; reflexivity.
  - reflexivity.
  - intros c Hc Hne. apply dom_three_clients in Hc as [-> | [-> | ->]].
    + reflexivity.
    + exfalso; apply Hne; reflexivity.
    + reflexivity.
Defined.

Example scenario_D_size :
  Size three_clients = 3%nat
  ∧ (Size <$> exec env_2_broken (broadcast "reload") three_clients) = Some 2%nat.
Proof. split; reflexivity. Qed.

(** ** The watcher *)

Lemma signals_app w l :
  signals (mkWorld (clients w) (clientsMu w) (closed w) (delivered w) (logs w ++ l))
  = (signals w + length (filter (λ x, x = LogReportUpdated) l))%nat.
Proof. unfold signals; simpl. by rewrite filter_app, length_app. Qed.

Lemma filter_write_errors (l : list Conn) :
  filter (λ x, x = LogReportUpdated) (LogWriteError <$> l) = [].
Proof.
  induction l as [|c l IH]; [done|].
  rewrite fmap_cons, filter_cons_False by done. exact IH.
Qed.

(** An iteration that finds a later modification time. *)
Lemma watch_iter_advance e path fs info last w :
  env_ok e → clientsMu w = false →
  fs !! path = Some info → last < modTime info →
  ∃ w', watch_iter e path fs last w = Some (modTime info, w')
    ∧ exec e (broadcast "reload") (add_log LogReportUpdated w) = Some w'
    ∧ clientsMu w' = false
    ∧ signals w' = S (signals w)
    ∧ (∀ c, clients w' !! c = if write_fails e w c then None else clients w !! c)
    ∧ (∀ c, c ∈ closed w' ↔
            c ∈ closed w ∨ (c ∈ dom (clients w) ∧ write_fails e w c = true))
    ∧ (∀ c, received c w' =
            received c w ++
            if decide (c ∈ dom (clients w) ∧ write_fails e w c = false)
            then ["reload"] else [])
    ∧ logs w' =
        logs w ++ LogReportUpdated ::
          (LogWriteError <$> filter (λ c, write_fails e w c = true) (range_keys e w)).
Proof.
  intros He Hmu Hfile Hlt.
  destruct (broadcast_spec e He "reload" (add_log LogReportUpdated w) Hmu)
    as (w' & Hex & Hmu' & Hcl & Hclosed & Hrecv & Hlogs).
  exists w'. unfold watch_iter, Stat. rewrite Hfile.
  unfold After. rewrite bool_decide_eq_true_2 by done. rewrite Hex.
  split_and!; try done.
  - unfold signals. rewrite Hlogs. cbn [add_log logs].
    rewrite !filter_app, filter_write_errors, app_nil_r, length_app. simpl. lia.
  - rewrite Hlogs. cbn [add_log logs]. by rewrite <- app_assoc.
Qed.

(** An iteration that finds no later modification time, or no file. *)
Lemma watch_iter_quiet e path fs last w :
  (∀ info, fs !! path = Some info → modTime info ≤ last) →
  watch_iter e path fs last w = Some (last, w).
Proof.
  intros Hle. unfold watch_iter, Stat.
  destruct (fs !! path) as [info|] eqn:Hfile; [|done].
  unfold After. rewrite bool_decide_eq_false_2; [done|].
  specialize (Hle info eq_refl). lia.
Qed.

(** C2, as stated, fails: the report's modification time has advanced past
    the zero time the watcher starts with, client 2 is registered, and the
    iteration ends without client 2 having received anything, because the
    write to it failed. *)
Lemma poll_skips_broken_client :
  ∃ w', watch_iter env_2_broken "report.json" (fs_report "report.json" 100)
          zeroTime three_clients = Some (Unix 100 0, w')
    ∧ zeroTime < Unix 100 0
    ∧ 2%positive ∈ dom (clients three_clients)
    ∧ received 2%positive w' = [].
Proof.
  eexists. split; [vm_compute; reflexivity|].
  split; [reflexivity|].
  split; [apply dom_three_clients; right; left; reflexivity|].
  vm_compute. reflexivity.
Qed.

(** C2, amended: in one iteration of the watcher, called with the mutex
    free: if the file's modification time is strictly later than [last],
    then [last] becomes that time, exactly one change event is signaled, and
    the token [reload] is written to every registered client: each client
    whose write succeeds receives it once and stays registered, and each
    client whose write fails receives nothing, has its write error logged
    and is dropped from the registry.  If the modification time is equal to
    or earlier than [last], or the file cannot be examined, nothing
    happens: [last] and the whole state stay as they are. *)
Theorem watch_iter_signals (e : Env) (path : string) (fs : FS) (last : Time) (w : World) :
  env_ok e →
  clientsMu w = false →
  (∀ info, fs !! path = Some info → last < modTime info →
     ∃ w', watch_iter e path fs last w = Some (modTime info, w')
       ∧ signals w' = S (signals w)
       ∧ (∀ c, c ∈ dom (clients w) →
            if write_fails e w c
            then received c w' = received c w
                 ∧ LogWriteError c ∈ logs w'
                 ∧ (c ∉ dom (clients w'))
            else received c w' = received c w ++ ["reload"]
                 ∧ c ∈ dom (clients w'))
       ∧ (∀ c, c ∉ dom (clients w) → received c w' = received c w))
  ∧ (∀ info, fs !! path = Some info → modTime info ≤ last →
       watch_iter e path fs last w = Some (last, w))
  ∧ (fs !! path = None → watch_iter e path fs last w = Some (last, w)).
Proof.
  intros He Hmu. split_and!.
  - intros info Hfile Hlt.
    destruct (watch_iter_advance e path fs info last w He Hmu Hfile Hlt)
      as (w' & Hit & _ & _ & Hsig & Hcl & _ & Hrecv & Hlogs).
    exists w'. split_and!; try done.
    + intros c Hc. destruct (write_fails e w c) eqn:Hf.
      * split_and!.
        -- rewrite Hrecv, decide_False, app_nil_r; [done|]. intros [_ ?]; congruence.
        -- rewrite Hlogs. apply elem_of_app. right. right.
           apply list_elem_of_fmap. exists c. split; [done|].
           apply list_elem_of_filter. split; [done|]. by apply elem_of_range_keys.
        -- apply not_elem_of_dom. by rewrite Hcl, Hf.
      * split.
        -- by rewrite Hrecv, decide_True.
        -- apply elem_of_dom. rewrite Hcl, Hf. by apply elem_of_dom.
    + intros c Hc. rewrite Hrecv, decide_False, app_nil_r; [done|]. tauto.
  - intros info Hfile Hle. apply watch_iter_quiet.
    intros info' Hfile'. congruence.
  - intros Hnone. apply watch_iter_quiet. intros info Hfile. congruence.
Qed.

Lemma watch_iter_signals_witness :
  (∀ info, fs_report "report.json" 100 !! "report.json" = Some info →
     zeroTime < modTime info →
     ∃ w', watch_iter env_2_broken "report.json" (fs_report "report.json" 100)
             zeroTime three_clients = Some (modTime info, w')
       ∧ signals w' = S (signals three_clients)
       ∧ (∀ c, c ∈ dom (clients three_clients) →
            if write_fails env_2_broken three_clients c
            then received c w' = received c three_clients
                 ∧ LogWriteError c ∈ logs w'
                 ∧ (c ∉ dom (clients w'))
            else received c w' = received c three_clients ++ ["reload"]
                 ∧ c ∈ dom (clients w'))
       ∧ (∀ c, c ∉ dom (clients three_clients) →
            received c w' = received c three_clients))
  ∧ (∀ info, fs_report "report.json" 100 !! "report.json" = Some info →
       modTime info ≤ zeroTime →
       watch_iter env_2_broken "report.json" (fs_report "report.json" 100)
         zeroTime three_clients = Some (zeroTime, three_clients))
  ∧ (fs_report "report.json" 100 !! "report.json" = None →
       watch_iter env_2_broken "report.json" (fs_report "report.json" 100)
         zeroTime three_clients = Some (zeroTime, three_clients)).
Proof.
  apply (watch_iter_signals env_2_broken "report.json"
           (fs_report "report.json" 100) zeroTime three_clients).
  - exact env_2_broken_ok.
  - reflexivity.
Defined.

(** C9, as stated, fails: the report file exists when the watcher starts,
    and its modification time is the zero time (Unix time -62135596800,
    1 January of year 1); the first poll finds no time later than the
    initial [last], signals no change and sends nothing to the three
    registered clients. *)
Lemma first_poll_silent_at_zero_time :
  (∃ info, fs_report_at_zero !! "report.json" = Some info ∧ modTime info = zeroTime)
  ∧ watchReport "report.json" [(env_fine, fs_report_at_zero)] three_clients
    = Some (zeroTime, three_clients)
  ∧ signals three_clients = 0%nat
  ∧ dom (clients three_clients) = {[1%positive; 2%positive; 3%positive]}
  ∧ delivered three_clients = [].
Proof.
  split; [eexists; split; reflexivity|].
  split; [vm_compute; reflexivity|].
  split; [reflexivity|].
  split; [|reflexivity].
  apply set_eq. intros c. rewrite dom_three_clients. set_solver.
Qed.

(** C9, amended: the first iteration of the watcher, when the report file
    exists already.  [last] still holds the zero time.  If the file's
    modification time is later than the zero time (as every time stamp
    after 1 January of year 1 is), the iteration signals one change event
    and calls [broadcast] with [reload] over the registry as it finds it:
    every registered client whose write succeeds receives the token and
    stays registered, every registered client whose write fails receives
    nothing and is dropped.  If the modification time is the zero time or
    earlier, the iteration signals nothing and leaves everything as it
    is. *)
Theorem first_poll_signals (e : Env) (path : string) (fs : FS) (info : File) (w : World) :
  env_ok e →
  clientsMu w = false →
  fs !! path = Some info →
  (zeroTime < modTime info →
     ∃ w', watchReport path [(e, fs)] w = Some (modTime info, w')
       ∧ exec e (broadcast "reload") (add_log LogReportUpdated w) = Some w'
       ∧ signals w' = S (signals w)
       ∧ (∀ c, c ∈ dom (clients w) →
            if write_fails e w c
            then received c w' = received c w ∧ (c ∉ dom (clients w'))
            else received c w' = received c w ++ ["reload"] ∧ c ∈ dom (clients w')))
  ∧ (modTime info ≤ zeroTime → watchReport path [(e, fs)] w = Some (zeroTime, w)).
Proof.
  intros He Hmu Hfile. split.
  - intros Hlt.
    destruct (watch_iter_advance e path fs info zeroTime w He Hmu Hfile Hlt)
      as (w' & Hit & Hex & _ & Hsig & Hcl & _ & Hrecv & _).
    exists w'. split_and!; try done.
    + unfold watchReport. cbn [watch_loop]. by rewrite Hit.
    + intros c Hc. destruct (write_fails e w c) eqn:Hf.
      * split.
        -- rewrite Hrecv, decide_False, app_nil_r; [done|]. intros [_ ?]; congruence.
        -- apply not_elem_of_dom. by rewrite Hcl, Hf.
      * split.
        -- by rewrite Hrecv, decide_True.
        -- apply elem_of_dom. rewrite Hcl, Hf. by apply elem_of_dom.
  - intros Hle. unfold watchReport. cbn [watch_loop].
    rewrite (watch_iter_quiet e path fs zeroTime w); [done|].
    intros info' Hfile'. congruence.
Qed.

Lemma first_poll_signals_witness :
  (∃ w', watchReport "report.json" [(env_2_broken, fs_report "report.json" 1700000000)]
           three_clients
         = Some (modTime (mkFile (JsonText (JObj [])) (Unix 1700000000 0)), w')
     ∧ exec env_2_broken (broadcast "reload") (add_log LogReportUpdated three_clients)
       = Some w'
     ∧ signals w' = S (signals three_clients)
     ∧ (∀ c, c ∈ dom (clients three_clients) →
          if write_fails env_2_broken three_clients c
          then received c w' = received c three_clients ∧ (c ∉ dom (clients w'))
          else received c w' = received c three_clients ++ ["reload"]
               ∧ c ∈ dom (clients w')))
  ∧ watchReport "report.json" [(env_fine, fs_report_at_zero)] three_clients
    = Some (zeroTime, three_clients).
Proof.
  split.
  - apply (first_poll_signals env_2_broken "report.json"
             (fs_report "report.json" 1700000000)
             (mkFile (JsonText (JObj [])) (Unix 1700000000 0)) three_clients).
    + exact env_2_broken_ok.
    + reflexivity.
    + reflexivity.
    + reflexivity.
  - apply (first_poll_signals env_fine "report.json" fs_report_at_zero
             (mkFile (JsonText (JObj [])) zeroTime) three_clients).
    + exact env_fine_ok.
    + reflexivity.
    + reflexivity.
    + reflexivity.
Defined.

(** ** The websocket handler and the server *)

Lemma exec_broadcast_locked e msg w :
  clientsMu w = true → exec e (broadcast msg) w = None.
Proof. intros Hmu. rewrite broadcast_unfold. cbn [exec]. by rewrite Hmu. Qed.

Lemma exec_addClient_locked e c w :
  clientsMu w = true → exec e (addClient c) w = None.
Proof. intros Hmu. unfold addClient. cbn [exec]. by rewrite Hmu. Qed.

Lemma exec_removeClient_locked e c w :
  clientsMu w = true → exec e (removeClient c) w = None.
Proof. intros Hmu. unfold removeClient. cbn [exec]. by rewrite Hmu. Qed.

(** The watcher only ever removes clients and closes connections. *)
Lemma watch_iter_effect e path fs last w last' w' :
  env_ok e →
  watch_iter e path fs last w = Some (last', w') →
  clientsMu w' = clientsMu w
  ∧ dom (clients w') ⊆ dom (clients w)
  ∧ closed w ⊆ closed w'.
Proof.
  intros He. unfold watch_iter.
  destruct (Stat fs path) as [info|err]; [|by intros [= _ <-]].
  destruct (After (modTime info) last); [|by intros [= _ <-]].
  destruct (clientsMu w) eqn:Hmu.
  { rewrite exec_broadcast_locked by done. done. }
  destruct (broadcast_spec e He "reload" (add_log LogReportUpdated w) Hmu)
    as (w1 & -> & Hmu1 & Hcl & Hclosed & _).
  intros [= _ <-]. split_and!; [done| |].
  - intros c [b Hb]%elem_of_dom. rewrite Hcl in Hb. apply elem_of_dom.
    destruct (write_fails _ _ c); [done|by eexists].
  - intros c Hc. apply Hclosed. by left.
Qed.

(** The handler's two calls into the registry. *)
Lemma ws_handler_effect e st ev w st' w' :
  clientsMu w = false →
  ws_handler e st ev w = Some (st', w') →
  clientsMu w' = false
  ∧ match st, ev with
    | Connecting, UpgradeOk c =>
        st' = Registered c ∧ clients w' = <[c:=true]> (clients w) ∧ closed w' = closed w
    | Connecting, UpgradeFail =>
        st' = Rejected ∧ clients w' = clients w ∧ closed w' = closed w
    | Registered c, ReadOk =>
        st' = Registered c ∧ clients w' = clients w ∧ closed w' = closed w
    | Registered c, ReadFail =>
        st' = Closed c ∧ clients w' = delete c (clients w) ∧ closed w' = {[c]} ∪ closed w
    | _, _ => False
    end.
Proof.
  intros Hmu. unfold ws_handler.
  destruct st as [|c|c|], ev as [c'| | |]; try done.
  - rewrite exec_addClient by done. by intros [= <- <-].
  - by intros [= <- <-].
  - by intros [= <- <-].
  - rewrite exec_removeClient by done. by intros [= <- <-].
Qed.

(** A closed handler takes no further step. *)
Lemma ws_handler_Closed e c ev w : ws_handler e (Closed c) ev w = None.
Proof. by destruct ev. Qed.

Lemma server_step_inv path s s' :
  server_step path s s' → server_inv s → server_inv s'.
Proof.
  intros Hstep [Hmu Hreg]. destruct Hstep as [s|s i e st ev st' w' He Hi Hfresh Hh|s e fs last' w' He Hw].
  - split; [done|]. cbn [handlers created]. intros i c Hi.
    apply lookup_app_Some in Hi as [Hi|[_ Hi]]; [by eapply Hreg|].
    apply list_lookup_singleton_Some in Hi as [_ Hi]. done.
  - apply ws_handler_effect in Hh as [Hmu' Hh]; [|done].
    split; [done|]. cbn [handlers created]. intros j c Hj.
    destruct (decide (i = j)) as [->|Hne].
    + rewrite list_lookup_insert_eq in Hj by (by eapply lookup_lt_Some).
      injection Hj as ->.
      destruct st as [|c0|c0|], ev as [c'| | |]; try done;
        destruct Hh as ([= ->] & _);
        first [by eapply Hreg | apply elem_of_union; left; by apply elem_of_singleton].
    + rewrite list_lookup_insert_ne in Hj by done.
      specialize (Hreg j c Hj). destruct ev; try done.
      apply elem_of_union. by right.
  - apply watch_iter_effect in Hw as (Hmu' & _); [|done].
    split; [cbn [world]; congruence|done].
Qed.

Lemma server_reachable_inv path s : server_reachable path s → server_inv s.
Proof.
  intros Hr. unfold server_reachable in Hr.
  revert s Hr. apply (rtc_ind_r server_inv init_server).
  - split; [done|]. intros i c Hi. done.
  - intros s1 s2 _ Hstep Hinv. by eapply server_step_inv.
Qed.

Lemma server_step_gone path c i s s' :
  server_step path s s' → server_inv s → gone c i s → gone c i s'.
Proof.
  intros Hstep [Hmu _] (Hcr & Hnin & Hcl & Hi).
  destruct Hstep as [s|s j e st ev st' w' He Hj Hfresh Hh|s e fs last' w' He Hw];
    unfold gone; cbn [world handlers created].
  - split_and!; try done. apply lookup_app_l_Some. done.
  - apply ws_handler_effect in Hh as [Hmu' Hh]; [|done].
    assert (i ≠ j) as Hne.
    { intros ->. rewrite Hi in Hj. injection Hj as <-. by destruct ev. }
    rewrite list_lookup_insert_ne by done.
    destruct st as [|c0|c0|], ev as [c'| | |]; try done;
      destruct Hh as (_ & Hclients & Hclosed); rewrite Hclients, Hclosed.
    + split_and!; try done.
      * apply elem_of_union. by right.
      * rewrite dom_insert_L. apply not_elem_of_union. split; [|done].
        intros ->%elem_of_singleton. by apply (Hfresh c').
    + done.
    + done.
    + split_and!; try done.
      * rewrite dom_delete_L. intros [? _]%elem_of_difference. done.
      * apply elem_of_union. by right.
  - apply watch_iter_effect in Hw as (_ & Hsub & Hsup); [|done].
    split_and!; try done.
    + intros Hin. apply Hnin. by apply Hsub.
    + by apply Hsup.
Qed.

Lemma server_steps_gone path c i s s' :
  rtc (server_step path) s s' → server_inv s → gone c i s →
  server_inv s' ∧ gone c i s'.
Proof.
  induction 1 as [s|s s1 s' Hstep _ IH]; intros Hinv Hgone; [done|].
  apply IH; [by eapply server_step_inv|by eapply server_step_gone].
Qed.

Lemma one_subscriber_reachable path : server_reachable path one_subscriber.
Proof.
  unfold server_reachable.
  eapply rtc_l; [apply step_accept|].
  eapply rtc_l; [|apply rtc_refl].
  refine (step_handler path
            (mkServer (world init_server) (handlers init_server ++ [Connecting])
               (created init_server) (last init_server))
            0%nat env_fine Connecting (UpgradeOk 1%positive) (Registered 1%positive)
            (mkWorld (<[1%positive:=true]> ∅) false ∅ [] [LogClientConnected 1])
            env_fine_ok eq_refl _ eq_refl).
  intros c [= <-]. apply not_elem_of_empty.
Defined.

(** C7: a read failure ends the subscription for good.  Whenever a handler
    is in its read loop on connection [c] and [ReadMessage] returns an
    error, the handler's call of [removeClient] returns: [c] is out of the
    registry and closed, and the handler has ended (state [Closed], from
    which it takes no step).  In every later state of the server [c] is
    still out of the registry, still closed, and still known as created, so
    that no later [Upgrade], which returns a new connection, returns [c]. *)
Theorem read_failure_closes_for_good
    (path : string) (s : Server) (i : nat) (c : Conn) (e : Env) :
  server_reachable path s →
  handlers s !! i = Some (Registered c) →
  env_ok e →
  ∃ w', ws_handler e (Registered c) ReadFail (world s) = Some (Closed c, w')
    ∧ (c ∉ dom (clients w'))
    ∧ c ∈ closed w'
    ∧ (∀ e' ev w'', ws_handler e' (Closed c) ev w'' = None)
    ∧ server_step path s
        (mkServer w' (<[i:=Closed c]> (handlers s)) (created s) (last s))
    ∧ (∀ s', rtc (server_step path)
               (mkServer w' (<[i:=Closed c]> (handlers s)) (created s) (last s)) s' →
         (c ∉ dom (clients (world s')))
         ∧ c ∈ closed (world s')
         ∧ c ∈ created s'
         ∧ handlers s' !! i = Some (Closed c)).
Proof.
  intros Hreach Hi He.
  destruct (server_reachable_inv path s Hreach) as [Hmu Hreg].
  assert (Hh : ws_handler e (Registered c) ReadFail (world s)
           = Some (Closed c, mkWorld (delete c (clients (world s))) false
                               ({[c]} ∪ closed (world s)) (delivered (world s))
                               (logs (world s) ++
                                  [LogClientDisconnected (size (delete c (clients (world s))))]))).
  { unfold ws_handler. by rewrite exec_removeClient. }
  eexists. split; [exact Hh|].
  assert (Hstep : server_step path s
            (mkServer (mkWorld (delete c (clients (world s))) false
                               ({[c]} ∪ closed (world s)) (delivered (world s))
                               (logs (world s) ++
                                  [LogClientDisconnected (size (delete c (clients (world s))))]))
               (<[i:=Closed c]> (handlers s)) (created s) (last s))).
  { by apply (step_handler path s i e (Registered c) ReadFail (Closed c)). }
  assert (Hnin : c ∉ dom (delete c (clients (world s)))).
  { rewrite dom_delete_L. intros [_ Hc]%elem_of_difference. apply Hc.
    by apply elem_of_singleton. }
  assert (Hcl : c ∈ ({[c]} ∪ closed (world s) : gset Conn)).
  { apply elem_of_union. left. by apply elem_of_singleton. }
  split; [exact Hnin|]. split; [exact Hcl|].
  split; [intros e' ev w''; apply ws_handler_Closed|].
  split; [exact Hstep|].
  intros s' Hsteps.
  destruct (server_steps_gone path c i _ s' Hsteps) as [_ (? & ? & ? & ?)]; [| |done].
  - eapply server_step_inv; [exact Hstep|done].
  - split_and!; cbn [world handlers created]; try done.
    + by eapply Hreg.
    + apply list_lookup_insert_eq. by eapply lookup_lt_Some.
Qed.

Lemma read_failure_closes_for_good_witness :
  ∃ w', ws_handler env_fine (Registered 1%positive) ReadFail (world one_subscriber)
        = Some (Closed 1%positive, w')
    ∧ (1%positive ∉ dom (clients w'))
    ∧ 1%positive ∈ closed w'
    ∧ (∀ e' ev w'', ws_handler e' (Closed 1%positive) ev w'' = None)
    ∧ server_step "report.json" one_subscriber
        (mkServer w' (<[0%nat:=Closed 1%positive]> (handlers one_subscriber))
           (created one_subscriber) (last one_subscriber))
    ∧ (∀ s', rtc (server_step "report.json")
               (mkServer w' (<[0%nat:=Closed 1%positive]> (handlers one_subscriber))
                  (created one_subscriber) (last one_subscriber)) s' →
         (1%positive ∉ dom (clients (world s')))
         ∧ 1%positive ∈ closed (world s')
         ∧ 1%positive ∈ created s'
         ∧ handlers s' !! 0%nat = Some (Closed 1%positive)).
Proof.
  apply (read_failure_closes_for_good "report.json" one_subscriber 0%nat 1%positive env_fine).
  - apply one_subscriber_reachable.
  - reflexivity.
  - exact env_fine_ok.
Defined.

(** ** The severity counter *)

Lemma countSeverity_foldl (sev : string) (l : list ScanResult) (c : Z) :
  c + Z.of_nat (length l) ≤ maxInt →
  foldl (λ c r, if bool_decide (Severity r = sev) then incr c else c) c l
  = c + Z.of_nat (length (filter (λ r, Severity r = sev) l)).
Proof.
  revert c. induction l as [|r l IH]; intros c Hc.
  - simpl. lia.
  - cbn [foldl]. rewrite filter_cons. cbn [length] in Hc.
    destruct (decide (Severity r = sev)) as [Heq|Hne].
    + rewrite bool_decide_eq_true_2 by done.
      unfold incr. rewrite bool_decide_eq_false_2 by lia.
      rewrite IH by lia. cbn [length]. lia.
    + rewrite bool_decide_eq_false_2 by done.
      rewrite IH by lia. lia.
Qed.

Lemma four_severities_partition (l : list ScanResult) :
  (∀ r, r ∈ l → Severity r ∈ ["high"; "medium"; "info"; "error"]) →
  (length (filter (λ r, Severity r = "high") l)
   + length (filter (λ r, Severity r = "medium") l)
   + length (filter (λ r, Severity r = "info") l)
   + length (filter (λ r, Severity r = "error") l))%nat
  = length l.
Proof.
  induction l as [|r l IH]; intros Hsev; [done|].
  specialize (IH (λ r' Hr', Hsev r' (list_elem_of_further _ _ _ Hr'))).
  assert (Hr : Severity r ∈ ["high"; "medium"; "info"; "error"])
    by (apply Hsev; left).
  rewrite !filter_cons.
  rewrite !elem_of_cons in Hr.
  destruct Hr as [Hr|[Hr|[Hr|[Hr|Hr]]]]; [..|by apply not_elem_of_nil in Hr];
    rewrite Hr;
    repeat (first [rewrite decide_True by done | rewrite decide_False by done]);
    cbn [length]; lia.
Qed.

(** C10: for a slice of probe results (whose length, as that of every Go
    slice, is at most the largest [int]) and a severity [sev],
    [countSeverity] returns the number of elements whose severity equals
    [sev]; and if every element's severity is one of high, medium, info and
    error, the four counts add up to the length of the slice. *)
Theorem countSeverity_counts (results : list ScanResult) (sev : string) :
  Z.of_nat (length results) ≤ maxInt →
  countSeverity results sev
    = Z.of_nat (length (filter (λ r, Severity r = sev) results))
  ∧ ((∀ r, r ∈ results → Severity r ∈ ["high"; "medium"; "info"; "error"]) →
     countSeverity results "high" + countSeverity results "medium"
     + countSeverity results "info" + countSeverity results "error"
     = Z.of_nat (length results)).
Proof.
  intros Hlen.
  assert (Hcount : ∀ s, countSeverity results s
            = Z.of_nat (length (filter (λ r, Severity r = s) results))).
  { intros s. unfold countSeverity. rewrite countSeverity_foldl by lia. lia. }
  split; [apply Hcount|].
  intros Hsev. rewrite !Hcount.
  pose proof (four_severities_partition results Hsev) as Hsum. lia.
Qed.

Lemma countSeverity_counts_witness :
  countSeverity [probe_with_severity "high"; probe_with_severity "info";
                 probe_with_severity "high"] "high"
    = Z.of_nat (length (filter (λ r, Severity r = "high")
        [probe_with_severity "high"; probe_with_severity "info";
         probe_with_severity "high"]))
  ∧ ((∀ r, r ∈ [probe_with_severity "high"; probe_with_severity "info";
                 probe_with_severity "high"] →
          Severity r ∈ ["high"; "medium"; "info"; "error"]) →
     countSeverity [probe_with_severity "high"; probe_with_severity "info";
                    probe_with_severity "high"] "high"
     + countSeverity [probe_with_severity "high"; probe_with_severity "info";
                      probe_with_severity "high"] "medium"
     + countSeverity [probe_with_severity "high"; probe_with_severity "info";
                      probe_with_severity "high"] "info"
     + countSeverity [probe_with_severity "high"; probe_with_severity "info";
                      probe_with_severity "high"] "error"
     = Z.of_nat (length [probe_with_severity "high"; probe_with_severity "info";
                         probe_with_severity "high"])).
Proof.
  apply (countSeverity_counts
           [probe_with_severity "high"; probe_with_severity "info";
            probe_with_severity "high"] "high").
  vm_compute. discriminate.
Defined.

Example countSeverity_sample :
  countSeverity [probe_with_severity "high"; probe_with_severity "info";
                 probe_with_severity "high"] "high" = 2.
Proof. reflexivity. Qed.

(** ** The report loader and the on-demand read *)

Lemma loadReport_found fs path f b :
  fs !! path = Some f →
  content f = Readable b →
  loadReport fs path =
    match Unmarshal b zeroReport with
    | (_, Some err) => (None, Some err)
    | (report, None) => (Some report, None)
    end.
Proof.
  intros Hf Hc. unfold loadReport, ReadFile. rewrite Hf, Hc.
  by destruct (Unmarshal b zeroReport) as [r [err|]].
Qed.

Lemma loadReport_unreadable fs path f op msg :
  fs !! path = Some f →
  content f = Unreadable op msg →
  loadReport fs path = (None, Some (PathError op path msg)).
Proof. intros Hf Hc. unfold loadReport, ReadFile. by rewrite Hf, Hc. Qed.

Lemma loadReport_missing fs path :
  fs !! path = None → loadReport fs path = (None, Some (PathError "open" path ENOENT)).
Proof. intros Hf. unfold loadReport, ReadFile. by rewrite Hf. Qed.

(** Whatever the file system holds, [loadReport] returns a report and no
    error, or an error and no report. *)
Lemma loadReport_shape fs path :
  (∃ r, loadReport fs path = (Some r, None))
  ∨ (∃ err, loadReport fs path = (None, Some err)).
Proof.
  destruct (fs !! path) as [f|] eqn:Hf.
  - destruct (content f) as [b|op msg] eqn:Hc.
    + rewrite (loadReport_found fs path f b Hf Hc).
      destruct (Unmarshal b zeroReport) as [r [err|]]; eauto.
    + rewrite (loadReport_unreadable fs path f op msg Hf Hc). eauto.
  - rewrite (loadReport_missing fs path Hf). eauto.
Qed.

(** C3, as stated, fails: the stored file exists (the watcher's [os.Stat]
    finds it) but the worker may not open it; [loadReport] fails with the
    error of [os.ReadFile], which is neither that the file does not exist
    nor that its content cannot be parsed: no content was read.  The same
    holds when the path is a directory. *)
Lemma unreadable_report_fails :
  (∃ info, Stat fs_unreadable_report "report.json" = inl info)
  ∧ (∀ b, ReadFile fs_unreadable_report "report.json" ≠ inl b)
  ∧ loadReport fs_unreadable_report "report.json"
    = (None, Some (PathError "open" "report.json" "permission denied"))
  ∧ apiReport fs_unreadable_report "report.json"
    = httpError "open report.json: permission denied" 500
  ∧ (∃ info, Stat fs_report_is_directory "report.json" = inl info)
  ∧ apiReport fs_report_is_directory "report.json"
    = httpError "read report.json: is a directory" 500.
Proof.
  split_and!; try reflexivity; try (eexists; reflexivity).
  intros b. discriminate.
Qed.

(** C3, amended: the on-demand read.  If the file can be read and its
    content decodes without error, [loadReport] returns the decoded report
    and the handler answers 200 with that report.  [loadReport] fails
    exactly when [os.ReadFile] fails (the file does not exist, or it exists
    but cannot be read) or the content does not decode (it is not JSON at
    all, or has a value of the wrong kind or a number out of range); it
    then returns no report (also when the decoder had filled part of it)
    and the error of [os.ReadFile] or of the decoder, and the handler
    answers 500 with the text of that very error.  A failure never comes
    with a report, and a success always does. *)
Theorem loadReport_outcomes (fs : FS) (path : string) :
  (∀ f b r, fs !! path = Some f → content f = Readable b →
     Unmarshal b zeroReport = (r, None) →
     loadReport fs path = (Some r, None)
     ∧ apiReport fs path =
         mkResponse 200 [("Content-Type", "application/json")] (JsonBody (encodeReport r)))
  ∧ (fs !! path = None →
     loadReport fs path = (None, Some (PathError "open" path ENOENT))
     ∧ apiReport fs path = httpError (ErrorText (PathError "open" path ENOENT)) 500)
  ∧ (∀ f op msg, fs !! path = Some f → content f = Unreadable op msg →
     loadReport fs path = (None, Some (PathError op path msg))
     ∧ apiReport fs path = httpError (ErrorText (PathError op path msg)) 500)
  ∧ (∀ f b r err, fs !! path = Some f → content f = Readable b →
     Unmarshal b zeroReport = (r, Some err) →
     loadReport fs path = (None, Some err)
     ∧ apiReport fs path = httpError (ErrorText err) 500)
  ∧ ((loadReport fs path).2 ≠ None ↔
     fs !! path = None
     ∨ (∃ f op msg, fs !! path = Some f ∧ content f = Unreadable op msg)
     ∨ (∃ f b, fs !! path = Some f ∧ content f = Readable b
               ∧ (Unmarshal b zeroReport).2 ≠ None))
  ∧ ((loadReport fs path).2 ≠ None ↔
     (∃ err, ReadFile fs path = inr err)
     ∨ (∃ b, ReadFile fs path = inl b ∧ (Unmarshal b zeroReport).2 ≠ None))
  ∧ ((loadReport fs path).2 ≠ None → (loadReport fs path).1 = None)
  ∧ ((loadReport fs path).2 = None → (loadReport fs path).1 ≠ None).
Proof.
  split_and!.
  - intros f b r Hf Hc Hun. unfold apiReport.
    rewrite (loadReport_found fs path f b Hf Hc), Hun. done.
  - intros Hf. unfold apiReport. rewrite (loadReport_missing fs path Hf). done.
  - intros f op msg Hf Hc. unfold apiReport.
    rewrite (loadReport_unreadable fs path f op msg Hf Hc). done.
  - intros f b r err Hf Hc Hun. unfold apiReport.
    rewrite (loadReport_found fs path f b Hf Hc), Hun. done.
  - destruct (fs !! path) as [f|] eqn:Hf.
    + destruct (content f) as [b|op msg] eqn:Hc.
      * rewrite (loadReport_found fs path f b Hf Hc).
        destruct (Unmarshal b zeroReport) as [r [err|]] eqn:Hun; simpl.
        -- split; [|done]. intros _. right. right. exists f, b. by rewrite Hun.
        -- split; [done|].
           intros [?|[(f' & op & msg & [= <-] & Hc')|(f' & b' & [= <-] & Hc' & Hne)]];
             [done|congruence|].
           rewrite Hc in Hc'. injection Hc' as <-. by rewrite Hun in Hne.
      * rewrite (loadReport_unreadable fs path f op msg Hf Hc). simpl.
        split; [|done]. intros _. right. left. by exists f, op, msg.
    + rewrite (loadReport_missing fs path Hf). simpl. split; [by left|done].
  - unfold loadReport. destruct (ReadFile fs path) as [b|err] eqn:Hread.
    + destruct (Unmarshal b zeroReport) as [r [err|]] eqn:Hun; simpl.
      * split; [|done]. intros _. right. exists b. by rewrite Hun.
      * split; [done|]. intros [[err ?]|(b' & [= <-] & Hne)]; [done|].
        by rewrite Hun in Hne.
    + simpl. split; [|done]. intros _. left. by exists err.
  - destruct (loadReport_shape fs path) as [[r ->]|[err ->]]; done.
  - destruct (loadReport_shape fs path) as [[r ->]|[err ->]]; done.
Qed.

(** The decoder had stored the scan id when it met the mistyped results;
    the caller gets no report. *)
Example mistyped_report_not_returned :
  Unmarshal (JsonText (JObj [("scan_id", JStr "scan-2"); ("results", JStr "none")]))
            zeroReport
    = (mkReport "scan-2" "" zeroFloat 0 None,
       Some (UnmarshalTypeError "string" "[]main.ScanResult" "Report" "results"))
  ∧ loadReport fs_mistyped_report "report.json"
    = (None, Some (UnmarshalTypeError "string" "[]main.ScanResult" "Report" "results"))
  ∧ apiReport fs_mistyped_report "report.json"
    = httpError "json: cannot unmarshal string into Go struct field Report.results of type []main.ScanResult" 500.
Proof. split_and!; reflexivity. Qed.

Example missing_report_not_found :
  apiReport ∅ "report.json"
  = httpError "open report.json: no such file or directory" 500.
Proof. reflexivity. Qed.

(** A duration beyond the range of [float64] does not decode; one that no
    [float64] is equal to is rounded to the nearest. *)
Example duration_out_of_range :
  (decodeReport (JObj [("duration_seconds", JNum "1e400")]) zeroReport).2
  = Some (UnmarshalTypeError "number 1e400" "float64" "Report" "duration_seconds")
  ∧ decodeReport (JObj [("duration_seconds", JNum "9007199254740993")]) zeroReport
    = decodeReport (JObj [("duration_seconds", JNum "9007199254740992")]) zeroReport
  ∧ decodeReport (JObj [("duration_seconds", JNum "1.0")]) zeroReport
    = decodeReport (JObj [("duration_seconds", JNum "1")]) zeroReport.
Proof. split_and!; vm_compute; reflexivity. Qed.

(** ** The status of a probe result *)

(** C8, as stated, fails: the stored report holds a probe that met a
    transport failure (an error, and null for the status); the report the
    on-demand read returns has that probe with the status present, as the
    number 0. *)
Lemma failed_probe_served_with_status_0 :
  member "status" failed_probe = Some JNull
  ∧ member "error" failed_probe = Some (JStr "connection refused")
  ∧ ∃ report served,
      apiReport fs_failed_report "report.json"
        = mkResponse 200 [("Content-Type", "application/json")] (JsonBody report)
      ∧ member "scan_id" report = Some (JStr "scan-1")
      ∧ member "total_targets" report = Some (JNum (NInt 1))
      ∧ member "results" report = Some (JArr [served])
      ∧ member "error" served = Some (JStr "connection refused")
      ∧ member "status" served = Some (JNum (NInt 0)).
Proof.
  split; [reflexivity|]. split; [reflexivity|].
  do 2 eexists. split; [vm_compute; reflexivity|]. split_and!; reflexivity.
Qed.

Lemma names_distinct (n1 n2 key : string) :
  n1 ≠ n2 → names n1 key = true → names n2 key = false.
Proof.
  unfold names. intros Hne H1%bool_decide_eq_true.
  apply bool_decide_eq_false. congruence.
Qed.

(** A member leaves the status as it is unless it is named status and
    holds something other than null. *)
Lemma decodeScanResultMember_Status ctx r key v :
  (names "status" key = true → v = JNull) →
  Status (decodeScanResultMember ctx r (key, v)).1 = Status r.
Proof.
  intros Hnull. unfold decodeScanResultMember. cbv zeta.
  destruct (names "status" key) eqn:Hst.
  - rewrite (names_distinct "status" "url" key) by done.
    rewrite (Hnull eq_refl). reflexivity.
  - repeat match goal with
           | |- context [if names ?n key then _ else _] =>
               destruct (names n key); [|]
           | |- context [let '(_, _) := ?d in _] => destruct d
           end; try reflexivity; try discriminate.
Qed.

Lemma decodeMembers_Status ctx (ms : list (string * json)) (r : ScanResult) :
  (∀ key v, (key, v) ∈ ms → names "status" key = true → v = JNull) →
  Status (decodeMembers (decodeScanResultMember ctx) ms r).1 = Status r.
Proof.
  unfold decodeMembers.
  assert (Hgen : ∀ acc : ScanResult * option error,
    (∀ key v, (key, v) ∈ ms → names "status" key = true → v = JNull) →
    Status (foldl (λ acc kv, let '(x, err) := decodeScanResultMember ctx acc.1 kv in
                             (x, first_error acc.2 err)) acc ms).1 = Status acc.1).
  { induction ms as [|[key v] ms IH]; intros acc Hnull; [done|].
    cbn [foldl]. rewrite IH by (intros k' v' Hin; apply Hnull; by right).
    pose proof (decodeScanResultMember_Status ctx acc.1 key v (Hnull key v ltac:(left)))
      as Hs.
    by destruct (decodeScanResultMember ctx acc.1 (key, v)). }
  intros Hnull. by rewrite Hgen.
Qed.

(** Into a slice without backing array every element is decoded from the
    zero value. *)
Lemma decodeElems_fresh {A} (dec : json → A → A * option error) (zero : A)
    (l : list json) :
  (decodeElems dec zero l []).1 = (λ v, (dec v zero).1) <$> l.
Proof.
  induction l as [|v l IH]; [done|].
  cbn [decodeElems head tail default]. rewrite fmap_cons, <- IH.
  destruct (dec v zero). by destruct (decodeElems dec zero l []).
Qed.

(** A member that is not named results leaves the results as they are. *)
Lemma decodeReportMember_other r key v :
  names "results" key = false →
  Results (decodeReportMember r (key, v)).1 = Results r.
Proof.
  intros Hres. unfold decodeReportMember. cbv zeta. rewrite Hres.
  repeat match goal with
         | |- context [if names ?n key then _ else _] => destruct (names n key); [|]
         | |- context [let '(_, _) := ?d in _] => destruct d
         end; done.
Qed.

Lemma decodeMembers_other (ms : list (string * json)) (acc : Report * option error) :
  (∀ k v, (k, v) ∈ ms → names "results" k = false) →
  Results (foldl (λ acc kv, let '(x, err) := decodeReportMember acc.1 kv in
                            (x, first_error acc.2 err)) acc ms).1 = Results acc.1.
Proof.
  revert acc. induction ms as [|[k v] ms IH]; intros acc Hother; [done|].
  cbn [foldl]. rewrite IH by (intros k' v' Hin; apply (Hother k' v'); by right).
  pose proof (decodeReportMember_other acc.1 k v (Hother k v ltac:(left))) as Hr.
  by destruct (decodeReportMember acc.1 (k, v)).
Qed.

(** The results of a report, decoded into a variable without results, from
    an object with one member named results, an array: its elements,
    decoded one by one from the zero value. *)
Lemma decodeReport_results ms1 key l ms2 old :
  names "results" key = true →
  (∀ k v, (k, v) ∈ ms1 ++ ms2 → names "results" k = false) →
  Results old = None →
  ∃ s, Results (decodeReport (JObj (ms1 ++ (key, JArr l) :: ms2)) old).1 = Some s
    ∧ items s = (λ v, (decodeScanResultAt (field "Report" "results" top) v
                         zeroScanResult).1) <$> l.
Proof.
  intros Hkey Hother Hold. cbn [decodeReport]. unfold decodeMembers.
  rewrite foldl_app. cbn [foldl].
  rewrite decodeMembers_other
    by (intros k v Hin; apply (Hother k v), elem_of_app; right; done).
  set (acc := foldl _ (old, None) ms1).
  assert (Hacc : Results acc.1 = None).
  { unfold acc. rewrite decodeMembers_other; [done|].
    intros k v Hin. apply (Hother k v), elem_of_app. by left. }
  unfold decodeReportMember. cbv zeta.
  rewrite (names_distinct "results" "scan_id" key),
          (names_distinct "results" "timestamp" key),
          (names_distinct "results" "duration_seconds" key),
          (names_distinct "results" "total_targets" key), Hkey by done.
  cbn [decodeScanResults]. rewrite Hacc. unfold decodeSlice.
  destruct l as [|v l]; [by eexists|].
  pose proof (decodeElems_fresh (decodeScanResultAt (field "Report" "results" top))
                zeroScanResult (v :: l)) as Hfresh.
  destruct (decodeElems _ zeroScanResult (v :: l) []) as [xs err].
  eexists. split; [reflexivity|]. exact Hfresh.
Qed.

(** The same, of the report [loadReport] returns. *)
Lemma loadReport_results fs path f ms1 key l ms2 r :
  fs !! path = Some f →
  content f = JsonText (JObj (ms1 ++ (key, JArr l) :: ms2)) →
  names "results" key = true →
  (∀ k v, (k, v) ∈ ms1 ++ ms2 → names "results" k = false) →
  loadReport fs path = (Some r, None) →
  ∃ s, Results r = Some s
    ∧ items s = (λ v, (decodeScanResultAt (field "Report" "results" top) v
                         zeroScanResult).1) <$> l.
Proof.
  intros Hf Hc Hkey Hother Hload.
  rewrite (loadReport_found fs path f _ Hf Hc) in Hload. cbn [Unmarshal] in Hload.
  destruct (decodeReport_results ms1 key l ms2 zeroReport Hkey Hother eq_refl)
    as (s & Hres & Hitems).
  destruct (decodeReport _ zeroReport) as [r' [err|]]; [done|].
  injection Hload as <-. by exists s.
Qed.

(** A probe result without status, decoded from the zero value, has the
    status 0. *)
Lemma decodeScanResultAt_no_status ctx ps :
  (∀ k v, (k, v) ∈ ps → names "status" k = true → v = JNull) →
  Status (decodeScanResultAt ctx (JObj ps) zeroScanResult).1 = 0.
Proof. intros Hnull. cbn [decodeScanResultAt]. by rewrite decodeMembers_Status. Qed.

(** C8, amended: in every probe result of a report returned by the
    on-demand read the status is present and is an integer, the [Status] of
    the loaded probe.  And if the stored report has one member named
    results, an array, the report served has as many probe results as the
    array has elements, and a stored probe result that carries no status
    (no member of that name, or null, as after a transport failure) is
    served, at the same place, with the status present as 0. *)
Theorem status_always_present (fs : FS) (path : string) (r : Report) :
  loadReport fs path = (Some r, None) →
  apiReport fs path
    = mkResponse 200 [("Content-Type", "application/json")] (JsonBody (encodeReport r))
  ∧ member "results" (encodeReport r) = Some (encodeScanResults (Results r))
  ∧ (Results r ≠ None →
       encodeScanResults (Results r) = JArr (encodeScanResult <$> elems (Results r)))
  ∧ (∀ x, x ∈ elems (Results r) →
       member "status" (encodeScanResult x) = Some (JNum (NInt (Status x))))
  ∧ (∀ f ms1 key l ms2,
       fs !! path = Some f →
       content f = JsonText (JObj (ms1 ++ (key, JArr l) :: ms2)) →
       names "results" key = true →
       (∀ k v, (k, v) ∈ ms1 ++ ms2 → names "results" k = false) →
       member "results" (encodeReport r)
         = Some (JArr (encodeScanResult <$> elems (Results r)))
       ∧ length (elems (Results r)) = length l
       ∧ ∀ i ps, l !! i = Some (JObj ps) →
           (∀ k v, (k, v) ∈ ps → names "status" k = true → v = JNull) →
           ∃ x, elems (Results r) !! i = Some x
                ∧ Status x = 0
                ∧ member "status" (encodeScanResult x) = Some (JNum (NInt 0))).
Proof.
  intros Hload. split_and!.
  - unfold apiReport. by rewrite Hload.
  - reflexivity.
  - by destruct (Results r).
  - intros x _. reflexivity.
  - intros f ms1 key l ms2 Hf Hc Hkey Hother.
    destruct (loadReport_results fs path f ms1 key l ms2 r Hf Hc Hkey Hother Hload)
      as (s & Hres & Hitems).
    cbn [encodeReport member find_member]. rewrite !bool_decide_eq_false_2 by done.
    rewrite bool_decide_eq_true_2 by done.
    rewrite Hres. cbn [encodeScanResults elems]. rewrite Hitems.
    split; [done|]. split; [by rewrite length_fmap|].
    intros i ps Hi Hnull.
    exists (decodeScanResultAt (field "Report" "results" top) (JObj ps) zeroScanResult).1.
    rewrite list_lookup_fmap, Hi.
    pose proof (decodeScanResultAt_no_status (field "Report" "results" top) ps Hnull)
      as Hst.
    split; [done|]. split; [done|].
    cbn [encodeScanResult member find_member].
    rewrite bool_decide_eq_false_2 by done. rewrite bool_decide_eq_true_2 by done.
    by rewrite Hst.
Qed.

Lemma status_always_present_witness :
  apiReport fs_failed_report "report.json"
    = mkResponse 200 [("Content-Type", "application/json")]
        (JsonBody (encodeReport failed_report_loaded))
  ∧ member "results" (encodeReport failed_report_loaded)
    = Some (JArr (encodeScanResult <$> elems (Results failed_report_loaded)))
  ∧ length (elems (Results failed_report_loaded)) = length [failed_probe]
  ∧ ∃ x, elems (Results failed_report_loaded) !! 0%nat = Some x
         ∧ Status x = 0
         ∧ member "status" (encodeScanResult x) = Some (JNum (NInt 0)).
Proof.
  destruct (status_always_present fs_failed_report "report.json" failed_report_loaded
              eq_refl) as (Hbody & _ & _ & _ & Hstored).
  split; [exact Hbody|].
  destruct (Hstored
              (mkFile (JsonText failed_report) (Unix 1735689600 0))
              [("scan_id", JStr "scan-1");
               ("timestamp", JStr "2025-01-01T00:00:00Z");
               ("duration_seconds", JNum "0.25");
               ("total_targets", JNum "1")]
              "results" [failed_probe] [] eq_refl eq_refl eq_refl)
    as (Hres & Hlen & Hzero).
  { intros k v Hin. rewrite app_nil_r in Hin.
    repeat (apply elem_of_cons in Hin as [[= -> ->]|Hin]; [reflexivity|]).
    by apply not_elem_of_nil in Hin. }
  split; [exact Hres|]. split; [exact Hlen|].
  apply (Hzero 0%nat
           [("url", JStr "http://10.0.0.1:9");
            ("status", JNull);
            ("security_headers", JObj []);
            ("issues", JArr []);
            ("severity", JStr "error");
            ("error", JStr "connection refused");
            ("response_time_ms", JNull);
            ("timestamp", JStr "2025-01-01T00:00:00Z")] eq_refl).
  intros k v Hin Hname.
  repeat (apply elem_of_cons in Hin as [[= -> ->]|Hin]; [first [reflexivity|discriminate]|]).
  by apply not_elem_of_nil in Hin.
Defined.

(** With a second member named results the elements are decoded into the
    probe results the first has left: the status of the first stays where
    the second has none. *)
Example repeated_results_keep_status :
  ∃ served,
    member "results"
      (encodeReport
         (decodeReport
            (JObj [("results", JArr [JObj [("url", JStr "u"); ("status", JNum "200")]]);
                   ("results", JArr [JObj [("error", JStr "refused")]])])
            zeroReport).1)
    = Some (JArr [served])
    ∧ member "url" served = Some (JStr "u")
    ∧ member "error" served = Some (JStr "refused")
    ∧ member "status" served = Some (JNum (NInt 200)).
Proof. eexists. split; [vm_compute; reflexivity|]. split_and!; reflexivity. Qed.

(** ** Concurrent callers of the registry *)

Create HintDb locking.
#[local] Hint Constructors lockfree critical : locking.

Lemma critical_seq p q : lockfree p → critical q → critical (seq p q).
Proof. induction 1; intros Hq; cbn [seq]; auto with locking. Qed.

Lemma lockfree_send_or_drop msg c : lockfree (send_or_drop msg c).
Proof. constructor. intros []; auto with locking. Qed.

(** Each function locks the mutex first; the rest of its body is one
    critical section. *)
Lemma call_prog_locks f : ∃ k, call_prog f = MuLock k ∧ critical k.
Proof.
  destruct f as [c|c|msg]; eexists; (split; [reflexivity|]).
  - auto 10 with locking.
  - auto 10 with locking.
  - apply critical_ForRange; [apply lockfree_send_or_drop|auto with locking].
Qed.

(** A step inside a critical section either is the final unlock or stays
    inside and leaves the mutex alone. *)
Lemma critical_step p w p' w' :
  critical p → thread_step p w p' w' →
  (p = MuUnlock Return ∧ p' = Return ∧ clientsMu w = true ∧ clientsMu w' = false
   ∧ clients w' = clients w)
  ∨ (critical p' ∧ holding_after p true = true ∧ clientsMu w' = clientsMu w).
Proof.
  intros Hc Hstep.
  destruct Hstep; inversion Hc; subst; try (right; by split_and!).
  - left. by split_and!.
  - right. split_and!; try done. by constructor.
  - right. split_and!; try done. apply critical_seq; [done|by constructor].
  - right. split_and!; try done. by constructor.
Qed.

(** Inside a critical section the next operation can always be performed. *)
Lemma thread_step_enabled p w :
  critical p → clientsMu w = true → ∃ p' w', thread_step p w p' w'.
Proof.
  intros Hc Hmu. destruct Hc.
  - do 2 eexists. by apply ts_unlock.
  - do 2 eexists. apply ts_store.
  - do 2 eexists. apply ts_delete.
  - do 2 eexists. apply ts_len.
  - do 2 eexists. by apply (ts_range _ _ _ (elements (dom (clients w)))).
  - destruct ks as [|c ks].
    + do 2 eexists. apply ts_range_end.
    + destruct (decide (c ∈ dom (clients w))).
      * do 2 eexists. by apply ts_visit.
      * do 2 eexists. by apply ts_skip.
  - do 2 eexists. apply ts_write_error.
  - do 2 eexists. apply ts_close.
  - do 2 eexists. apply ts_log.
Qed.

Lemma pool_inv_init w : clientsMu w = false → pool_inv [] w.
Proof.
  intros Hmu. split_and!.
  - intros i t Hi. done.
  - intros i j ti tj Hi. done.
  - rewrite Hmu. split; [done|]. intros (i & t & Hi & _). done.
Qed.

(** A lookup in the pool after thread [i] has moved: either the thread that
    moved (the hypothesis then gives its new state) or another one. *)
Ltac moved_or_other i j H :=
  destruct (decide (i = j)) as [<-|?];
  [rewrite list_lookup_insert_eq in H by done; injection H as <-
  |rewrite list_lookup_insert_ne in H by done].

Lemma pool_call_inv ts w f :
  pool_inv ts w → pool_inv (ts ++ [mkThread f (call_prog f) false]) w.
Proof.
  intros (Hok & Hexcl & Hmu).
  assert (Hnew : ∀ j tj, (ts ++ [mkThread f (call_prog f) false]) !! j = Some tj →
            ts !! j = Some tj ∨ tj = mkThread f (call_prog f) false).
  { intros j tj Hj. apply lookup_app_Some in Hj as [Hj|[_ Hj]]; [by left|].
    apply list_lookup_singleton_Some in Hj as [_ <-]. by right. }
  split_and!.
  - intros j tj Hj. apply Hnew in Hj as [Hj| ->]; [by eapply Hok|].
    left. split; [done|by left].
  - intros j1 j2 t1 t2 H1 H2 Hh1 Hh2.
    pose proof H1 as H1'. pose proof H2 as H2'.
    apply Hnew in H1' as [H1'| ->]; [|done].
    apply Hnew in H2' as [H2'| ->]; [|done].
    by eapply Hexcl.
  - rewrite Hmu. split.
    + intros (j & tj & Hj & Hh). exists j, tj. split; [|done].
      by apply lookup_app_l_Some.
    + intros (j & tj & Hj & Hh).
      apply Hnew in Hj as [Hj| ->]; [|done]. by exists j, tj.
Qed.

Lemma pool_run_inv ts w i t p' w' :
  ts !! i = Some t →
  thread_step (code t) w p' w' →
  pool_inv ts w →
  pool_inv (<[i := mkThread (origin t) p' (holding_after (code t) (holding t))]> ts) w'.
Proof.
  intros Hi Hts (Hok & Hexcl & Hmu).
  pose proof (lookup_lt_Some _ _ _ Hi) as Hlt.
  destruct (Hok i t Hi) as [[Hh [Hcode|Hcode]]|[Hh Hcrit]].
  - (* the first operation: Lock *)
    destruct (call_prog_locks (origin t)) as (k & Hk & Hcrit).
    rewrite Hcode, Hk in Hts |- *.
    inversion Hts as [k0 w1 Hfree| | | | | | | | | | | |]; subst.
    assert (Hnone : ∀ j tj, ts !! j = Some tj → holding tj = false).
    { intros j tj Hj. destruct (holding tj) eqn:Hhj; [|done].
      assert (clientsMu w = true) as Hcontra by (apply Hmu; by exists j, tj).
      congruence. }
    split_and!.
    + intros j tj Hj. moved_or_other i j Hj; [right; by split|by eapply Hok].
    + intros j1 j2 t1 t2 H1 H2 Hh1 Hh2.
      moved_or_other i j1 H1; moved_or_other i j2 H2; try done.
      * rewrite (Hnone _ _ H2) in Hh2. done.
      * rewrite (Hnone _ _ H1) in Hh1. done.
      * rewrite (Hnone _ _ H1) in Hh1. done.
    + split; [|done]. intros _. eexists i, _.
      split; [by apply list_lookup_insert_eq|done].
  - (* returned: no operation left *)
    rewrite Hcode in Hts. inversion Hts.
  - (* inside the critical section *)
    destruct (critical_step _ _ _ _ Hcrit Hts)
      as [(Hp & -> & Hmu1 & Hmu2 & _)|(Hcrit' & Hafter & Hmu')].
    + (* the final unlock *)
      rewrite Hp. cbn [holding_after].
      split_and!.
      * intros j tj Hj. moved_or_other i j Hj; [|by eapply Hok].
        left. split; [done|by right].
      * intros j1 j2 t1 t2 H1 H2 Hh1 Hh2.
        moved_or_other i j1 H1; [done|].
        moved_or_other i j2 H2; [done|]. by eapply Hexcl.
      * rewrite Hmu2. split; [done|]. intros (j & tj & Hj & Hhj).
        moved_or_other i j Hj; [done|].
        by specialize (Hexcl i j t tj Hi Hj Hh Hhj).
    + (* any other operation *)
      assert (Hafter' : holding_after (code t) (holding t) = true)
        by (by rewrite Hh).
      rewrite Hafter'.
      split_and!.
      * intros j tj Hj. moved_or_other i j Hj; [right; by split|by eapply Hok].
      * intros j1 j2 t1 t2 H1 H2 Hh1 Hh2.
        moved_or_other i j1 H1; moved_or_other i j2 H2; try done; by eapply Hexcl.
      * rewrite Hmu', Hmu. split.
        -- intros _. eexists i, _. split; [by apply list_lookup_insert_eq|done].
        -- intros _. by exists i, t.
Qed.

Lemma pool_step_inv ts w ts' w' :
  pool_step (ts, w) (ts', w') → pool_inv ts w → pool_inv ts' w'.
Proof.
  intros Hstep Hinv.
  inversion Hstep as [ts0 w0 f|ts0 w0 i t p' w0' Hi Hts]; subst.
  - by apply pool_call_inv.
  - by eapply pool_run_inv.
Qed.

Lemma pool_steps_inv s s' :
  rtc pool_step s s' → pool_inv s.1 s.2 → pool_inv s'.1 s'.2.
Proof.
  induction 1 as [s|[ts w] [ts1 w1] s' Hstep _ IH]; [done|].
  intros Hinv. apply IH. by eapply pool_step_inv.
Qed.

Lemma two_callers_reachable : rtc pool_step ([], init_world) two_callers.
Proof.
  eapply rtc_l; [apply (pool_call [] init_world (CallAddClient 1%positive))|].
  eapply rtc_l; [apply (pool_call _ init_world (CallBroadcast "reload"))|].
  eapply rtc_l; [|apply rtc_refl].
  exact (pool_run
           [mkThread (CallAddClient 1%positive) (addClient 1%positive) false;
            mkThread (CallBroadcast "reload") (broadcast "reload") false]
           init_world 0%nat
           (mkThread (CallAddClient 1%positive) (addClient 1%positive) false)
           _ _ eq_refl (ts_lock _ init_world eq_refl)).
Defined.

(** C4: the registry under concurrent callers.  Let any number of
    goroutines call [addClient], [removeClient] and [broadcast] with any
    arguments, their operations interleaved in any way, starting with the
    mutex free.  Then at every moment:
    - at most one caller holds [clientsMu], and the mutex is locked exactly
      when one does;
    - a caller about to read or write the map [clients] holds the mutex;
    - a caller that has started and has not yet returned holds the mutex:
      the whole body of each function, and so the whole pass of [broadcast]
      over the registry, is one critical section;
    - an operation that changes the map is performed by the caller holding
      the mutex, and leaves the other callers where they were;
    - as long as some caller has not returned, some caller can perform an
      operation. *)
Theorem registry_calls_exclude_each_other (w0 : World) (ts : list Thread) (w : World) :
  clientsMu w0 = false →
  rtc pool_step ([], w0) (ts, w) →
  (∀ i j ti tj, ts !! i = Some ti → ts !! j = Some tj →
     holding ti = true → holding tj = true → i = j)
  ∧ (clientsMu w = true ↔ ∃ i t, ts !! i = Some t ∧ holding t = true)
  ∧ (∀ i t, ts !! i = Some t → accesses_clients (code t) = true → holding t = true)
  ∧ (∀ i t, ts !! i = Some t →
       code t ≠ call_prog (origin t) → code t ≠ Return →
       holding t = true ∧ critical (code t))
  ∧ (∀ ts' w', pool_step (ts, w) (ts', w') → clients w' ≠ clients w →
       ∃ i t, ts !! i = Some t ∧ holding t = true
         ∧ ∀ j, j ≠ i → ts' !! j = ts !! j)
  ∧ (∀ i t, ts !! i = Some t → code t ≠ Return →
       ∃ ts' w', pool_step (ts, w) (ts', w')).
Proof.
  intros Hmu0 Hreach.
  pose proof (pool_steps_inv _ _ Hreach (pool_inv_init w0 Hmu0)) as (Hok & Hexcl & Hmu).
  cbn [fst snd] in *.
  split; [exact Hexcl|]. split; [exact Hmu|].
  split_and!.
  - intros i t Hi Hacc.
    destruct (Hok i t Hi) as [[_ [Hcode|Hcode]]|[Hh _]]; [| |done].
    + destruct (call_prog_locks (origin t)) as (k & Hk & _).
      rewrite Hcode, Hk in Hacc. done.
    + rewrite Hcode in Hacc. done.
  - intros i t Hi Hstarted Hrunning.
    destruct (Hok i t Hi) as [[_ [Hcode|Hcode]]|[Hh Hcrit]]; done.
  - intros ts' w' Hstep Hchange.
    inversion Hstep as [ts0 w1 f|ts0 w1 i t p' w1' Hi Hts]; subst; [done|].
    exists i, t. split; [done|].
    split; [|intros j Hne; by apply list_lookup_insert_ne].
    destruct (Hok i t Hi) as [[_ [Hcode|Hcode]]|[Hh _]]; [| |done].
    + destruct (call_prog_locks (origin t)) as (k & Hk & _).
      rewrite Hcode, Hk in Hts. inversion Hts; subst. done.
    + rewrite Hcode in Hts. inversion Hts.
  - intros i t Hi Hrunning.
    destruct (clientsMu w) eqn:Hlocked.
    + destruct (proj1 Hmu eq_refl) as (j & tj & Hj & Hhj).
      destruct (Hok j tj Hj) as [[Hh _]|[_ Hcrit]]; [congruence|].
      destruct (thread_step_enabled (code tj) w Hcrit Hlocked) as (p' & w' & Hts).
      do 2 eexists. by eapply pool_run.
    + destruct (Hok i t Hi) as [[_ [Hcode|Hcode]]|[Hh _]]; [|done|].
      * destruct (call_prog_locks (origin t)) as (k & Hk & _).
        do 2 eexists. eapply pool_run; [exact Hi|].
        rewrite Hcode, Hk. by apply ts_lock.
      * assert (false = true) by (apply Hmu; by exists i, t). done.
Qed.

Lemma registry_calls_exclude_each_other_witness :
  (∀ i j ti tj, two_callers.1 !! i = Some ti → two_callers.1 !! j = Some tj →
     holding ti = true → holding tj = true → i = j)
  ∧ (clientsMu two_callers.2 = true ↔
     ∃ i t, two_callers.1 !! i = Some t ∧ holding t = true)
  ∧ (∀ i t, two_callers.1 !! i = Some t →
       accesses_clients (code t) = true → holding t = true)
  ∧ (∀ i t, two_callers.1 !! i = Some t →
       code t ≠ call_prog (origin t) → code t ≠ Return →
       holding t = true ∧ critical (code t))
  ∧ (∀ ts' w', pool_step (two_callers.1, two_callers.2) (ts', w') →
       clients w' ≠ clients two_callers.2 →
       ∃ i t, two_callers.1 !! i = Some t ∧ holding t = true
         ∧ ∀ j, j ≠ i → ts' !! j = two_callers.1 !! j)
  ∧ (∀ i t, two_callers.1 !! i = Some t → code t ≠ Return →
       ∃ ts' w', pool_step (two_callers.1, two_callers.2) (ts', w')).
Proof.
  apply (registry_calls_exclude_each_other init_world two_callers.1 two_callers.2).
  - reflexivity.
  - exact two_callers_reachable.
Defined.

(** ** A lone caller *)

Lemma thread_steps_step p w p1 w1 p' w' :
  thread_step p w p1 w1 → thread_steps (p1, w1) (p', w') → thread_steps (p, w) (p', w').
Proof. intros Hstep Hrest. by eapply rtc_l; [|exact Hrest]. Qed.

Lemma range_loop_thread_steps e body k q ks :
  (∀ c q w w', exec e (body c) w = Some w' → thread_steps (seq (body c) q, w) (q, w')) →
  ∀ w w', range_loop (λ c, exec e (body c)) ks w = Some w' →
  thread_steps (Iterating ks body (seq k q), w) (seq k q, w').
Proof.
  intros IHbody. induction ks as [|c ks IH]; intros w w' Hloop.
  - injection Hloop as <-. eapply thread_steps_step; [apply ts_range_end|apply rtc_refl].
  - cbn [range_loop] in Hloop. destruct (decide (c ∈ dom (clients w))) as [Hin|Hnin].
    + destruct (exec e (body c) w) as [w1|] eqn:Hbody; [|done].
      eapply thread_steps_step; [by apply ts_visit|].
      etrans; [by apply IHbody|]. by apply IH.
    + eapply thread_steps_step; [by apply ts_skip|]. by apply IH.
Qed.

(** What [exec] computes is what the operations of a caller running alone
    lead to, one after the other. *)
Lemma exec_thread_steps e p :
  env_ok e →
  ∀ q w w', exec e p w = Some w' → thread_steps (seq p q, w) (q, w').
Proof.
  intros He.
  induction p as [|k IH|k IH|c k IH|c k IH|k IH|body IHbody k IH|ks body IHbody k IH
                  |c msg k IH|c k IH|l k IH];
    intros q w w' Hex; cbn [exec seq] in *.
  - injection Hex as <-. apply rtc_refl.
  - destruct (clientsMu w) eqn:Hmu; [done|].
    eapply thread_steps_step; [by apply ts_lock|]. by apply IH.
  - destruct (clientsMu w) eqn:Hmu; [|done].
    eapply thread_steps_step; [by apply ts_unlock|]. by apply IH.
  - eapply thread_steps_step; [apply ts_store|]. by apply IH.
  - eapply thread_steps_step; [apply ts_delete|]. by apply IH.
  - eapply thread_steps_step; [apply ts_len|]. by apply IH.
  - destruct (range_loop _ (range_keys e w) w) as [w1|] eqn:Hloop; [|done].
    eapply thread_steps_step; [apply (ts_range _ _ _ (range_keys e w)), He|].
    etrans; [by apply (range_loop_thread_steps e body k q _ IHbody w w1)|]. by apply IH.
  - destruct (range_loop _ ks w) as [w1|] eqn:Hloop; [|done].
    etrans; [by apply (range_loop_thread_steps e body k q _ IHbody w w1)|]. by apply IH.
  - destruct (write_fails e w c) eqn:Hf.
    + eapply thread_steps_step; [apply ts_write_error|]. by apply IH.
    + eapply thread_steps_step; [|by apply IH].
      apply ts_write. unfold write_fails in Hf.
      apply bool_decide_eq_false in Hf. tauto.
  - eapply thread_steps_step; [apply ts_close|]. by apply IH.
  - eapply thread_steps_step; [apply ts_log|]. by apply IH.
Qed.

(** For the three registry functions: the state [exec] returns is reached
    by the caller's operations when it runs alone. *)
Lemma exec_call_thread_steps e f w w' :
  env_ok e → exec e (call_prog f) w = Some w' →
  thread_steps (call_prog f, w) (Return, w').
Proof.
  intros He Hex.
  assert (Hseq : seq (call_prog f) Return = call_prog f) by (by destruct f).
  rewrite <- Hseq at 1. by apply (exec_thread_steps e).
Qed.

(** * Further properties *)

(** ** The registry functions *)

(** X1: one pass of [broadcast], whichever writes fail and whatever the
    enumeration order: the registry afterwards holds exactly the clients whose
    write succeeded, each of which has received the message once more and is
    still open; every client whose write failed is out of the registry, closed,
    and has received nothing; a connection that was not registered is left
    alone; and the size drops by the number of failed writes. *)
Theorem broadcast_partitions_registry (e : Env) (msg : string) (w : World) :
  env_ok e →
  clientsMu w = false →
  ∃ w', exec e (broadcast msg) w = Some w'
    ∧ dom (clients w') = filter (λ c, write_fails e w c = false) (dom (clients w))
    ∧ (∀ c, c ∈ dom (clients w) → write_fails e w c = false →
         clients w' !! c = clients w !! c
         ∧ received c w' = received c w ++ [msg]
         ∧ (c ∉ closed w'))
    ∧ (∀ c, c ∈ dom (clients w) → write_fails e w c = true →
         (c ∉ dom (clients w'))
         ∧ received c w' = received c w
         ∧ c ∈ closed w')
    ∧ (∀ c, c ∉ dom (clients w) →
         received c w' = received c w ∧ (c ∈ closed w' ↔ c ∈ closed w))
    ∧ Size w = (Size w' + size (filter (λ c, write_fails e w c = true) (dom (clients w))))%nat.
Proof.
  intros He Hmu.
  destruct (broadcast_spec e He msg w Hmu) as (w' & Hex & _ & Hcl & Hclosed & Hrecv & _).
  assert (Hdom : dom (clients w') = filter (λ c, write_fails e w c = false) (dom (clients w))).
  { apply set_eq. intros c. rewrite elem_of_filter, !elem_of_dom, Hcl.
    destruct (write_fails e w c); split.
    - by intros [? ?].
    - by intros [? _].
    - done.
    - by intros [_ ?]. }
  exists w'. split_and!; try done.
  - intros c Hc Hf. split_and!.
    + by rewrite Hcl, Hf.
    + by rewrite Hrecv, decide_True.
    + rewrite Hclosed. intros [Hc'|[_ Hf']]; [|congruence].
      unfold write_fails in Hf. apply bool_decide_eq_false in Hf. tauto.
  - intros c Hc Hf. split_and!.
    + apply not_elem_of_dom. by rewrite Hcl, Hf.
    + rewrite Hrecv, decide_False, app_nil_r; [done|]. intros [_ ?]; congruence.
    + apply Hclosed. by right.
  - intros c Hc. split.
    + rewrite Hrecv, decide_False, app_nil_r; [done|]. tauto.
    + rewrite Hclosed. tauto.
  - unfold Size. rewrite <- !size_dom, Hdom.
    rewrite <- size_union.
    + f_equal. apply set_eq. intros c.
      rewrite elem_of_union, !elem_of_filter.
      destruct (write_fails e w c); intuition congruence.
    + intros c. rewrite !elem_of_filter. intros [Hf _] [Hf' _]. congruence.
Qed.

Lemma broadcast_partitions_registry_witness :
  ∃ w', exec env_2_broken (broadcast "reload") three_clients = Some w'
    ∧ dom (clients w')
      = filter (λ c, write_fails env_2_broken three_clients c = false)
          (dom (clients three_clients))
    ∧ (∀ c, c ∈ dom (clients three_clients) →
         write_fails env_2_broken three_clients c = false →
         clients w' !! c = clients three_clients !! c
         ∧ received c w' = received c three_clients ++ ["reload"]
         ∧ (c ∉ closed w'))
    ∧ (∀ c, c ∈ dom (clients three_clients) →
         write_fails env_2_broken three_clients c = true →
         (c ∉ dom (clients w'))
         ∧ received c w' = received c three_clients
         ∧ c ∈ closed w')
    ∧ (∀ c, c ∉ dom (clients three_clients) →
         received c w' = received c three_clients
         ∧ (c ∈ closed w' ↔ c ∈ closed three_clients))
    ∧ Size three_clients
      = (Size w' + size (filter (λ c, write_fails env_2_broken three_clients c = true)
                           (dom (clients three_clients))))%nat.
Proof.
  apply (broadcast_partitions_registry env_2_broken "reload" three_clients).
  - exact env_2_broken_ok.
  - reflexivity.
Defined.

Lemma filter_none {A} (P : A → Prop) `{!∀ x, Decision (P x)} (l : list A) :
  (∀ x, x ∈ l → ¬ P x) → filter P l = [].
Proof.
  induction l as [|x l IH]; intros Hno; [done|].
  rewrite filter_cons_False by (apply Hno; left).
  apply IH. intros y Hy. apply Hno. by right.
Qed.

(** X2: two passes in a row.  After a pass of [broadcast] the registry holds
    only clients whose transport works, so a second pass in the same
    environment drops nobody and closes nothing: the registry stays as the
    first pass left it and each of its clients receives the second message. *)
Theorem broadcast_twice_stable (e : Env) (msg1 msg2 : string) (w : World) :
  env_ok e →
  clientsMu w = false →
  ∃ w1 w2, exec e (broadcast msg1) w = Some w1
    ∧ exec e (broadcast msg2) w1 = Some w2
    ∧ clients w2 = clients w1
    ∧ closed w2 = closed w1
    ∧ logs w2 = logs w1
    ∧ (∀ c, c ∈ dom (clients w1) → received c w2 = received c w ++ [msg1; msg2]).
Proof.
  intros He Hmu.
  destruct (broadcast_spec e He msg1 w Hmu)
    as (w1 & Hex1 & Hmu1 & Hcl1 & Hclosed1 & Hrecv1 & _).
  destruct (broadcast_spec e He msg2 w1 Hmu1)
    as (w2 & Hex2 & _ & Hcl2 & Hclosed2 & Hrecv2 & Hlogs2).
  assert (Hok : ∀ c, c ∈ dom (clients w1) →
            write_fails e w1 c = false ∧ c ∈ dom (clients w) ∧ write_fails e w c = false).
  { intros c [b Hb]%elem_of_dom. rewrite Hcl1 in Hb.
    destruct (write_fails e w c) eqn:Hf; [done|].
    assert (c ∈ dom (clients w)) by (apply elem_of_dom; by eexists).
    split_and!; try done.
    unfold write_fails in *. apply bool_decide_eq_false in Hf.
    apply bool_decide_eq_false. rewrite Hclosed1.
    intros [?|[?|[_ Hf']]]; [tauto|tauto|].
    apply bool_decide_eq_true in Hf'. tauto. }
  exists w1, w2. split_and!; try done.
  - apply map_eq. intros c. rewrite Hcl2.
    destruct (clients w1 !! c) as [b|] eqn:Hc.
    + destruct (Hok c) as (-> & _); [apply elem_of_dom; by eexists|done].
    + by destruct (write_fails e w1 c).
  - apply set_eq. intros c. rewrite Hclosed2. split; [|by left].
    intros [?|[Hc Hf]]; [done|]. destruct (Hok c Hc) as (Hf' & _). congruence.
  - rewrite Hlogs2.
    assert (filter (λ c, write_fails e w1 c = true) (range_keys e w1) = []) as ->.
    { apply filter_none. intros c Hc Hf.
      apply (elem_of_range_keys e He) in Hc. destruct (Hok c Hc) as (Hf' & _). congruence. }
    by rewrite app_nil_r.
  - intros c Hc. destruct (Hok c Hc) as (Hf1 & Hc0 & Hf0).
    rewrite Hrecv2, decide_True by done.
    rewrite Hrecv1, decide_True by done.
    by rewrite <- app_assoc.
Qed.

Lemma broadcast_twice_stable_witness :
  ∃ w1 w2, exec env_2_broken (broadcast "reload") three_clients = Some w1
    ∧ exec env_2_broken (broadcast "reload") w1 = Some w2
    ∧ clients w2 = clients w1
    ∧ closed w2 = closed w1
    ∧ logs w2 = logs w1
    ∧ (∀ c, c ∈ dom (clients w1) →
         received c w2 = received c three_clients ++ ["reload"; "reload"]).
Proof.
  apply (broadcast_twice_stable env_2_broken "reload" "reload" three_clients).
  - exact env_2_broken_ok.
  - reflexivity.
Defined.

(** X3: register, then unregister.  For a connection that was not
    registered, [removeClient] after [addClient] restores the registry and
    its size; what remains of the pair of calls is that the connection is
    closed and two lines are logged. *)
Theorem addClient_removeClient_restores (e1 e2 : Env) (c : Conn) (w : World) :
  clientsMu w = false →
  c ∉ dom (clients w) →
  ∃ w1 w2, exec e1 (addClient c) w = Some w1
    ∧ exec e2 (removeClient c) w1 = Some w2
    ∧ clients w2 = clients w
    ∧ Size w1 = S (Size w)
    ∧ Size w2 = Size w
    ∧ closed w2 = {[c]} ∪ closed w
    ∧ delivered w2 = delivered w
    ∧ logs w2 = logs w ++ [LogClientConnected (S (Size w)); LogClientDisconnected (Size w)]
    ∧ clientsMu w2 = false.
Proof.
  intros Hmu Hc. apply not_elem_of_dom in Hc.
  do 2 eexists. split; [by apply exec_addClient|].
  split; [by apply exec_removeClient|]. cbn [clients closed delivered logs clientsMu].
  assert (Hdel : delete c (<[c:=true]> (clients w)) = clients w)
    by (by rewrite delete_insert_eq, delete_id).
  unfold Size; cbn [clients]. rewrite Hdel.
  rewrite map_size_insert_None by done.
  split_and!; try done. by rewrite <- app_assoc.
Qed.

Lemma addClient_removeClient_restores_witness :
  ∃ w1 w2, exec env_fine (addClient 9%positive) three_clients = Some w1
    ∧ exec env_fine (removeClient 9%positive) w1 = Some w2
    ∧ clients w2 = clients three_clients
    ∧ Size w1 = S (Size three_clients)
    ∧ Size w2 = Size three_clients
    ∧ closed w2 = {[9%positive]} ∪ closed three_clients
    ∧ delivered w2 = delivered three_clients
    ∧ logs w2 = logs three_clients
        ++ [LogClientConnected (S (Size three_clients));
            LogClientDisconnected (Size three_clients)]
    ∧ clientsMu w2 = false.
Proof.
  apply (addClient_removeClient_restores env_fine env_fine 9%positive three_clients).
  - reflexivity.
  - intros Hin. apply dom_three_clients in Hin as [Hin | [Hin | Hin]]; discriminate Hin.
Defined.

(** X4: registering twice.  A second [addClient] with the same connection
    leaves the registry as the first left it: the connection is counted
    once, and the second log line reports the same total as the first. *)
Theorem addClient_twice (e1 e2 : Env) (c : Conn) (w : World) :
  clientsMu w = false →
  ∃ w1 w2, exec e1 (addClient c) w = Some w1
    ∧ exec e2 (addClient c) w1 = Some w2
    ∧ clients w2 = clients w1
    ∧ Size w2 = Size w1
    ∧ logs w2 = logs w ++ [LogClientConnected (Size w1); LogClientConnected (Size w1)].
Proof.
  intros Hmu.
  do 2 eexists. split; [by apply exec_addClient|].
  split; [by apply exec_addClient|]. cbn [clients logs].
  unfold Size; cbn [clients]. rewrite insert_insert_eq.
  split_and!; try done. by rewrite <- app_assoc.
Qed.

Lemma addClient_twice_witness :
  ∃ w1 w2, exec env_fine (addClient 2%positive) three_clients = Some w1
    ∧ exec env_fine (addClient 2%positive) w1 = Some w2
    ∧ clients w2 = clients w1
    ∧ Size w2 = Size w1
    ∧ logs w2 = logs three_clients
        ++ [LogClientConnected (Size w1); LogClientConnected (Size w1)].
Proof.
  apply (addClient_twice env_fine env_fine 2%positive three_clients). reflexivity.
Defined.

(** ** The watcher, over many polls *)

(** One iteration either signals or leaves everything as it is. *)
Lemma watch_iter_cases e path fs last w :
  env_ok e → clientsMu w = false →
  ∃ last' w', watch_iter e path fs last w = Some (last', w')
    ∧ clientsMu w' = false
    ∧ ((∃ info, fs !! path = Some info ∧ last < modTime info
          ∧ last' = modTime info
          ∧ signals w' = S (signals w)
          ∧ (∀ c, clients w' !! c = if write_fails e w c then None else clients w !! c)
          ∧ (∀ c, c ∈ closed w' ↔
                c ∈ closed w ∨ (c ∈ dom (clients w) ∧ write_fails e w c = true))
          ∧ (∀ c, received c w' =
                received c w ++
                if decide (c ∈ dom (clients w) ∧ write_fails e w c = false)
                then ["reload"] else []))
       ∨ ((∀ info, fs !! path = Some info → modTime info ≤ last)
          ∧ last' = last ∧ w' = w)).
Proof.
  intros He Hmu.
  destruct (fs !! path) as [info|] eqn:Hfile.
  - destruct (decide (last < modTime info)) as [Hlt|Hge].
    + destruct (watch_iter_advance e path fs info last w He Hmu Hfile Hlt)
        as (w' & Hit & _ & Hmu' & Hsig & Hcl & Hclosed & Hrecv & _).
      exists (modTime info), w'. split_and!; try done.
      left. exists info. by split_and!.
    + exists last, w. split_and!; try done.
      * apply watch_iter_quiet. intros info' Hinfo.
        rewrite Hfile in Hinfo. injection Hinfo as <-. lia.
      * right. split_and!; try done. intros info' [= <-]. lia.
  - exists last, w. split_and!; try done.
    + apply watch_iter_quiet. intros info' Hinfo. congruence.
    + right. split_and!; try done.
Qed.

Lemma watch_loop_unchanged path polls last w :
  (∀ e fs info, (e, fs) ∈ polls → fs !! path = Some info → modTime info ≤ last) →
  watch_loop path polls last w = Some (last, w).
Proof.
  induction polls as [|[e fs] polls IH]; intros Hle; [done|].
  cbn [watch_loop]. rewrite watch_iter_quiet.
  - apply IH. intros e' fs' info Hin. apply (Hle e' fs'). by right.
  - intros info. apply (Hle e fs). by left.
Qed.

(** X5: no spurious signal.  However many times the watcher polls, as long as
    no poll finds a modification time later than [last] (the file is
    unchanged, or carries an earlier time stamp, or cannot be examined),
    it signals nothing: [last] and the whole state stay as they are, so no
    frame is sent and no client is dropped. *)
Theorem watch_loop_quiet (path : string) (polls : list (Env * FS)) (last : Time) (w : World) :
  (∀ e fs info, (e, fs) ∈ polls → fs !! path = Some info → modTime info ≤ last) →
  watch_loop path polls last w = Some (last, w)
  ∧ (∀ last' w', watch_loop path polls last w = Some (last', w') →
       last' = last ∧ signals w' = signals w ∧ delivered w' = delivered w
       ∧ clients w' = clients w).
Proof.
  intros Hle. pose proof (watch_loop_unchanged path polls last w Hle) as Hq.
  split; [done|]. intros last' w'. rewrite Hq. by intros [= <- <-].
Qed.

Lemma watch_loop_quiet_witness :
  watch_loop "report.json" four_polls (Unix 100 0) three_clients
  = Some (Unix 100 0, three_clients)
  ∧ (∀ last' w', watch_loop "report.json" four_polls (Unix 100 0) three_clients
                 = Some (last', w') →
       last' = Unix 100 0 ∧ signals w' = signals three_clients
       ∧ delivered w' = delivered three_clients
       ∧ clients w' = clients three_clients).
Proof.
  apply (watch_loop_quiet "report.json" four_polls (Unix 100 0) three_clients).
  intros e fs info Hin Hfile. unfold four_polls in Hin.
  repeat (apply elem_of_cons in Hin as [[= -> ->]|Hin];
          [first [discriminate Hfile | injection Hfile as <-; reflexivity]|]).
  by apply not_elem_of_nil in Hin.
Defined.

(** X6: one signal per publish.  If a poll finds a modification time later
    than [last], and every following poll finds the file unchanged or older
    or missing, the watcher signals exactly once, at the first of these
    polls, and ends with [last] at the new time: the state after all the
    polls is the state after that one call of [broadcast]. *)
Theorem watch_loop_signals_once
    (path : string) (e : Env) (fs : FS) (info : File)
    (polls : list (Env * FS)) (last : Time) (w : World) :
  env_ok e →
  clientsMu w = false →
  fs !! path = Some info →
  last < modTime info →
  (∀ e' fs' info', (e', fs') ∈ polls → fs' !! path = Some info' →
     modTime info' ≤ modTime info) →
  ∃ w', watch_loop path ((e, fs) :: polls) last w = Some (modTime info, w')
    ∧ exec e (broadcast "reload") (add_log LogReportUpdated w) = Some w'
    ∧ signals w' = S (signals w).
Proof.
  intros He Hmu Hfile Hlt Hrest.
  destruct (watch_iter_advance e path fs info last w He Hmu Hfile Hlt)
    as (w' & Hit & Hex & _ & Hsig & _).
  exists w'. split_and!; try done.
  cbn [watch_loop]. rewrite Hit. by apply watch_loop_unchanged.
Qed.

Lemma watch_loop_signals_once_witness :
  ∃ w', watch_loop "report.json"
          ((env_fine, fs_report "report.json" 100) ::
             [(env_fine, fs_report "report.json" 100); (env_fine, ∅)])
          zeroTime three_clients
        = Some (modTime (mkFile (JsonText (JObj [])) (Unix 100 0)), w')
    ∧ exec env_fine (broadcast "reload") (add_log LogReportUpdated three_clients) = Some w'
    ∧ signals w' = S (signals three_clients).
Proof.
  apply (watch_loop_signals_once "report.json" env_fine (fs_report "report.json" 100)
           (mkFile (JsonText (JObj [])) (Unix 100 0))
           [(env_fine, fs_report "report.json" 100); (env_fine, ∅)]
           zeroTime three_clients).
  - exact env_fine_ok.
  - reflexivity.
  - reflexivity.
  - reflexivity.
  - intros e' fs' info' Hin Hfile.
    repeat (apply elem_of_cons in Hin as [[= -> ->]|Hin];
            [first [discriminate Hfile | injection Hfile as <-; reflexivity]|]).
    by apply not_elem_of_nil in Hin.
Defined.

(** X7: the watcher's [last] is the latest modification time seen.  Over any
    polls (with the mutex free at the start) the watcher goes through all of
    them; [last] never decreases and ends as its initial value or as the
    modification time found by one of the polls, at least as late as every
    modification time found; there is at most one signal per poll; the
    mutex is free again; and the registry has only lost clients. *)
Theorem watch_loop_last_is_latest
    (path : string) (polls : list (Env * FS)) (last : Time) (w : World) :
  (∀ e fs, (e, fs) ∈ polls → env_ok e) →
  clientsMu w = false →
  ∃ last' w', watch_loop path polls last w = Some (last', w')
    ∧ last ≤ last'
    ∧ (last' = last
       ∨ ∃ e fs info, (e, fs) ∈ polls ∧ fs !! path = Some info ∧ modTime info = last')
    ∧ (∀ e fs info, (e, fs) ∈ polls → fs !! path = Some info → modTime info ≤ last')
    ∧ (signals w ≤ signals w' ≤ signals w + length polls)%nat
    ∧ clientsMu w' = false
    ∧ dom (clients w') ⊆ dom (clients w).
Proof.
  revert last w. induction polls as [|[e fs] polls IH]; intros last w Hok Hmu.
  - exists last, w. cbn [watch_loop length].
    split_and!;
      first [done | lia | by left
            | intros e fs info Hin; by apply not_elem_of_nil in Hin].
  - assert (He : env_ok e) by (apply (Hok e fs); left).
    destruct (watch_iter_cases e path fs last w He Hmu)
      as (last1 & w1 & Hit & Hmu1 & Hcase).
    destruct (IH last1 w1) as (last' & w' & Hloop & Hle & Hwhich & Hub & Hsig & Hmu' & Hsub);
      [intros e' fs' Hin; apply (Hok e' fs'); by right|done|].
    exists last', w'. cbn [watch_loop length]. rewrite Hit.
    assert (Hstep : last ≤ last1 ∧ (signals w ≤ signals w1 ≤ S (signals w))%nat
              ∧ dom (clients w1) ⊆ dom (clients w)
              ∧ (∀ info, fs !! path = Some info → modTime info ≤ last1)
              ∧ (last1 = last ∨ ∃ info, fs !! path = Some info ∧ modTime info = last1)).
    { destruct Hcase as [(info & Hfile & Hlt & -> & Hs & Hcl & _)|(Hq & -> & ->)].
      - split_and!; try lia.
        + intros c [b Hb]%elem_of_dom. rewrite Hcl in Hb. apply elem_of_dom.
          destruct (write_fails e w c); [done|by eexists].
        + intros info' Hfile'. rewrite Hfile in Hfile'. injection Hfile' as <-. lia.
        + right. by exists info.
      - split_and!; first [done | lia | by left]. }
    destruct Hstep as (Hle1 & Hsig1 & Hsub1 & Hub1 & Hwhich1).
    split_and!; try done; try lia.
    + destruct Hwhich as [->|(e' & fs' & info & Hin & Hfile & Hm)].
      * destruct Hwhich1 as [->|(info & Hfile & Hm)]; [by left|].
        right. exists e, fs, info. split_and!; try done. by left.
      * right. exists e', fs', info. split_and!; try done. by right.
    + intros e' fs' info [[= -> ->]|Hin]%elem_of_cons Hfile.
      * specialize (Hub1 info Hfile). lia.
      * by eapply Hub.
    + set_solver.
Qed.

Lemma watch_loop_last_is_latest_witness :
  ∃ last' w', watch_loop "report.json" four_polls zeroTime three_clients = Some (last', w')
    ∧ zeroTime ≤ last'
    ∧ (last' = zeroTime
       ∨ ∃ e fs info, (e, fs) ∈ four_polls ∧ fs !! "report.json" = Some info
                      ∧ modTime info = last')
    ∧ (∀ e fs info, (e, fs) ∈ four_polls → fs !! "report.json" = Some info →
         modTime info ≤ last')
    ∧ (signals three_clients ≤ signals w' ≤ signals three_clients + length four_polls)%nat
    ∧ clientsMu w' = false
    ∧ dom (clients w') ⊆ dom (clients three_clients).
Proof.
  apply (watch_loop_last_is_latest "report.json" four_polls zeroTime three_clients).
  - intros e fs Hin. unfold four_polls in Hin.
    repeat (apply elem_of_cons in Hin as [[= -> ->]|Hin]; [exact env_fine_ok|]).
    by apply not_elem_of_nil in Hin.
  - reflexivity.
Defined.

(** X8: none missed, none duplicated.  A registered, open client whose
    transport works at every poll stays registered and open, and receives
    exactly one [reload] for each change event the watcher signals during
    these polls: nothing else, and nothing when no event is signaled. *)
Theorem healthy_client_one_reload_per_signal
    (path : string) (polls : list (Env * FS)) (last : Time) (w : World) (c : Conn) :
  (∀ e fs, (e, fs) ∈ polls → env_ok e ∧ c ∉ writeFails e) →
  clientsMu w = false →
  c ∈ dom (clients w) →
  c ∉ closed w →
  ∃ last' w', watch_loop path polls last w = Some (last', w')
    ∧ c ∈ dom (clients w')
    ∧ (c ∉ closed w')
    ∧ (signals w ≤ signals w')%nat
    ∧ received c w' = received c w ++ replicate (signals w' - signals w) "reload".
Proof.
  revert last w. induction polls as [|[e fs] polls IH]; intros last w Hok Hmu Hc Hopen.
  - exists last, w. cbn [watch_loop]. split_and!; try done.
    by rewrite Nat.sub_diag, app_nil_r.
  - destruct (Hok e fs) as [He Hfine]; [by left|].
    destruct (watch_iter_cases e path fs last w He Hmu)
      as (last1 & w1 & Hit & Hmu1 & Hcase).
    assert (Hf : write_fails e w c = false).
    { unfold write_fails. apply bool_decide_eq_false. tauto. }
    assert (Hstep : c ∈ dom (clients w1) ∧ (c ∉ closed w1)
              ∧ ((signals w1 = S (signals w) ∧ received c w1 = received c w ++ ["reload"])
                 ∨ (signals w1 = signals w ∧ received c w1 = received c w))).
    { destruct Hcase as [(info & _ & _ & _ & Hs & Hcl & Hclosed & Hrecv)|(_ & _ & ->)].
      - split_and!.
        + apply elem_of_dom. rewrite Hcl, Hf. by apply elem_of_dom.
        + rewrite Hclosed. intros [?|[_ ?]]; [done|congruence].
        + left. split; [done|]. by rewrite Hrecv, decide_True.
      - split_and!; try done. by right. }
    destruct Hstep as (Hc1 & Hopen1 & Hrecv1).
    destruct (IH last1 w1) as (last' & w' & Hloop & Hc' & Hopen' & Hsig & Hrecv');
      [intros e' fs' Hin; apply (Hok e' fs'); by right|done|done|done|].
    exists last', w'. cbn [watch_loop]. rewrite Hit.
    split_and!; try done.
    + destruct Hrecv1 as [[Hs _]|[Hs _]]; lia.
    + rewrite Hrecv'. destruct Hrecv1 as [[Hs ->]|[Hs ->]].
      * replace (signals w' - signals w)%nat with (S (signals w' - signals w1)) by lia.
        by rewrite <- app_assoc.
      * by rewrite Hs.
Qed.

Lemma healthy_client_one_reload_per_signal_witness :
  ∃ last' w', watch_loop "report.json" four_polls zeroTime three_clients = Some (last', w')
    ∧ 1%positive ∈ dom (clients w')
    ∧ (1%positive ∉ closed w')
    ∧ (signals three_clients ≤ signals w')%nat
    ∧ received 1%positive w'
      = received 1%positive three_clients
          ++ replicate (signals w' - signals three_clients) "reload".
Proof.
  apply (healthy_client_one_reload_per_signal "report.json" four_polls zeroTime
           three_clients 1%positive).
  - intros e fs Hin. unfold four_polls in Hin.
    repeat (apply elem_of_cons in Hin as [[= -> ->]|Hin];
            [split; [exact env_fine_ok|apply not_elem_of_empty]|]).
    by apply not_elem_of_nil in Hin.
  - reflexivity.
  - apply dom_three_clients. left; reflexivity.
  - apply not_elem_of_empty.
Defined.

(** ** What the server maintains *)

Lemma signals_add_log l w :
  l ≠ LogReportUpdated → signals (add_log l w) = signals w.
Proof.
  intros Hl. unfold signals, add_log; cbn [logs].
  rewrite filter_app, filter_cons_False by done. by rewrite app_nil_r.
Qed.

(** The handler touches neither the frames delivered nor the signals. *)
Lemma ws_handler_frames e st ev w st' w' :
  clientsMu w = false →
  ws_handler e st ev w = Some (st', w') →
  delivered w' = delivered w ∧ signals w' = signals w.
Proof.
  intros Hmu. unfold ws_handler.
  destruct st as [|c|c|], ev as [c'| | |]; try done.
  - rewrite exec_addClient by done. intros [= <- <-]. split; [done|].
    by apply (signals_add_log _ (set_clients (insert c' true) (set_clientsMu false w))).
  - intros [= <- <-]. split; [done|]. by apply signals_add_log.
  - by intros [= <- <-].
  - rewrite exec_removeClient by done. intros [= <- <-]. split; [done|].
    by apply (signals_add_log _
                (add_closed c (set_clients (delete c) (set_clientsMu false w)))).
Qed.

Lemma received_same_delivered c w w' :
  delivered w' = delivered w → received c w' = received c w.
Proof. unfold received. by intros ->. Qed.

Lemma server_wf_init : server_wf init_server.
Proof.
  unfold server_wf, init_server, init_world, received; cbn.
  split_and!; try done.
  intros c m Hm. by apply not_elem_of_nil in Hm.
Qed.

Lemma server_wf_accept s :
  server_wf s →
  server_wf (mkServer (world s) (handlers s ++ [Connecting]) (created s) (last s)).
Proof.
  intros (Hreg & Hcl & Hcr & Hdist & Hclosed & Hrel & Hcount).
  assert (Hold : ∀ i st c, (handlers s ++ [Connecting]) !! i = Some st →
            conn_of st = Some c → handlers s !! i = Some st).
  { intros i st c Hi Hc. apply lookup_app_Some in Hi as [Hi|[_ Hi]]; [done|].
    apply list_lookup_singleton_Some in Hi as [_ <-]. done. }
  unfold server_wf; cbn [world handlers created].
  split_and!; try done.
  - intros c b Hc. destruct (Hreg c b Hc) as (? & ? & ? & i & Hi).
    split_and!; try done. exists i. by apply lookup_app_l_Some.
  - intros i st c Hi Hc. eapply Hcr; [by eapply Hold|done].
  - intros i j sti stj c Hi Hj Hci Hcj.
    eapply Hdist; [by eapply Hold|by eapply Hold|done|done].
  - intros i c Hi. apply Hclosed with i. by apply (Hold i (Closed c) c).
Qed.

Lemma server_wf_handler s i e st ev st' w' :
  server_inv s → server_wf s →
  handlers s !! i = Some st →
  (∀ c, ev = UpgradeOk c → c ∉ created s) →
  ws_handler e st ev (world s) = Some (st', w') →
  server_wf (mkServer w' (<[i:=st']> (handlers s))
               (match ev with UpgradeOk c => {[c]} ∪ created s | _ => created s end)
               (last s)).
Proof.
  intros [Hmu _] (Hreg & Hcl & Hcr & Hdist & Hclosed & Hrel & Hcount) Hi Hfresh Hh.
  pose proof (lookup_lt_Some _ _ _ Hi) as Hlt.
  destruct (ws_handler_frames _ _ _ _ _ _ Hmu Hh) as [Hdel Hsig].
  pose proof (λ c, received_same_delivered c _ _ Hdel) as Hrecv.
  apply ws_handler_effect in Hh as [_ Hh]; [|done].
  unfold server_wf; cbn [world handlers created].
  destruct st as [|c0|c0|], ev as [c'| | |]; try done;
    destruct Hh as (-> & Hclients & Hclosed').
  - (* the upgrade succeeded: addClient *)
    specialize (Hfresh c' eq_refl).
    assert (Hother : ∀ j st c, handlers s !! j = Some st → conn_of st = Some c →
              j ≠ i ∧ c ≠ c').
    { intros j st c Hj Hc. split.
      - intros ->. rewrite Hi in Hj. injection Hj as <-. done.
      - intros ->. apply Hfresh. by eapply Hcr. }
    split_and!.
    + intros c b. rewrite Hclients, Hclosed'.
      destruct (decide (c = c')) as [->|Hne].
      * rewrite lookup_insert_eq. intros [= <-]. split_and!; try done.
        -- apply elem_of_union. left. by apply elem_of_singleton.
        -- intros Hin. apply Hfresh. by apply Hcl.
        -- exists i. by apply list_lookup_insert_eq.
      * rewrite lookup_insert_ne by done. intros Hc.
        destruct (Hreg c b Hc) as (? & ? & ? & j & Hj).
        split_and!; try done.
        -- apply elem_of_union. by right.
        -- exists j. rewrite list_lookup_insert_ne; [done|].
           intros <-. by destruct (Hother i (Registered c) c Hj eq_refl).
    + rewrite Hclosed'. intros c Hc. apply elem_of_union. right. by apply Hcl.
    + intros j st c Hj Hc. apply elem_of_union.
      destruct (decide (i = j)) as [<-|Hne].
      * rewrite list_lookup_insert_eq in Hj by done. injection Hj as <-.
        injection Hc as <-. left. by apply elem_of_singleton.
      * rewrite list_lookup_insert_ne in Hj by done. right. by eapply Hcr.
    + intros j1 j2 st1 st2 c Hj1 Hj2 Hc1 Hc2.
      destruct (decide (i = j1)) as [<-|Hne1], (decide (i = j2)) as [<-|Hne2]; try done.
      * rewrite list_lookup_insert_eq in Hj1 by done. injection Hj1 as <-.
        injection Hc1 as <-.
        rewrite list_lookup_insert_ne in Hj2 by done.
        by destruct (Hother j2 st2 c' Hj2 Hc2).
      * rewrite list_lookup_insert_eq in Hj2 by done. injection Hj2 as <-.
        injection Hc2 as <-.
        rewrite list_lookup_insert_ne in Hj1 by done.
        by destruct (Hother j1 st1 c' Hj1 Hc1).
      * rewrite list_lookup_insert_ne in Hj1, Hj2 by done. by eapply Hdist.
    + intros j c Hj. rewrite Hclosed'.
      destruct (decide (i = j)) as [<-|Hne].
      * rewrite list_lookup_insert_eq in Hj by done. done.
      * rewrite list_lookup_insert_ne in Hj by done. by eapply Hclosed.
    + intros c m. rewrite Hrecv. intros Hm. destruct (Hrel c m Hm).
      split; [done|]. apply elem_of_union. by right.
    + intros c. by rewrite Hrecv, Hsig.
  - (* the upgrade failed *)
    assert (Hother : ∀ j st c, handlers s !! j = Some st → conn_of st = Some c → j ≠ i).
    { intros j st c Hj Hc ->. rewrite Hi in Hj. injection Hj as <-. done. }
    assert (Hold : ∀ j st c, <[i:=Rejected]> (handlers s) !! j = Some st →
              conn_of st = Some c → handlers s !! j = Some st).
    { intros j st c Hj Hc. destruct (decide (i = j)) as [<-|Hne].
      - rewrite list_lookup_insert_eq in Hj by done. injection Hj as <-. done.
      - by rewrite list_lookup_insert_ne in Hj by done. }
    split_and!.
    + intros c b. rewrite Hclients, Hclosed'. intros Hc.
      destruct (Hreg c b Hc) as (? & ? & ? & j & Hj).
      split_and!; try done. exists j. rewrite list_lookup_insert_ne; [done|].
      intros <-. by apply (Hother i (Registered c) c Hj).
    + by rewrite Hclosed'.
    + intros j st c Hj Hc. eapply Hcr; [by eapply Hold|done].
    + intros j1 j2 st1 st2 c Hj1 Hj2 Hc1 Hc2.
      eapply Hdist; [by eapply Hold|by eapply Hold|done|done].
    + intros j c Hj. rewrite Hclosed'. apply Hclosed with j.
      by apply (Hold j (Closed c) c).
    + intros c m. rewrite Hrecv. apply Hrel.
    + intros c. by rewrite Hrecv, Hsig.
  - (* a message was read *)
    rewrite list_insert_id by done.
    split_and!; try done.
    + intros c b. rewrite Hclients, Hclosed'. apply Hreg.
    + by rewrite Hclosed'.
    + intros j c. rewrite Hclosed'. apply Hclosed.
    + intros c m. rewrite Hrecv. apply Hrel.
    + intros c. by rewrite Hrecv, Hsig.
  - (* the read failed: removeClient *)
    assert (Hold : ∀ j st c, <[i:=Closed c0]> (handlers s) !! j = Some st →
              conn_of st = Some c →
              ∃ st0, handlers s !! j = Some st0 ∧ conn_of st0 = Some c
                     ∧ (j ≠ i → st0 = st)).
    { intros j st c Hj Hc. destruct (decide (i = j)) as [<-|Hne].
      - rewrite list_lookup_insert_eq in Hj by done. injection Hj as <-.
        exists (Registered c0). by split_and!.
      - rewrite list_lookup_insert_ne in Hj by done. exists st. by split_and!. }
    split_and!.
    + intros c b. rewrite Hclients, Hclosed'.
      destruct (decide (c = c0)) as [->|Hne]; [by rewrite lookup_delete_eq|].
      rewrite lookup_delete_ne by done. intros Hc.
      destruct (Hreg c b Hc) as (? & ? & ? & j & Hj).
      split_and!; try done.
      * intros [?%elem_of_singleton|?]%elem_of_union; done.
      * exists j. rewrite list_lookup_insert_ne; [done|].
        intros <-. rewrite Hi in Hj. by injection Hj.
    + rewrite Hclosed'. intros c [->%elem_of_singleton|Hc]%elem_of_union.
      * by apply (Hcr i (Registered c0)).
      * by apply Hcl.
    + intros j st c Hj Hc. destruct (Hold j st c Hj Hc) as (st0 & Hj0 & Hc0 & _).
      by eapply Hcr.
    + intros j1 j2 st1 st2 c Hj1 Hj2 Hc1 Hc2.
      destruct (Hold j1 st1 c Hj1 Hc1) as (st1' & Hj1' & Hc1' & _).
      destruct (Hold j2 st2 c Hj2 Hc2) as (st2' & Hj2' & Hc2' & _).
      by eapply Hdist.
    + intros j c Hj. rewrite Hclosed'. apply elem_of_union.
      destruct (decide (i = j)) as [<-|Hne].
      * rewrite list_lookup_insert_eq in Hj by done. injection Hj as <-.
        left. by apply elem_of_singleton.
      * rewrite list_lookup_insert_ne in Hj by done. right. by eapply Hclosed.
    + intros c m. rewrite Hrecv. apply Hrel.
    + intros c. by rewrite Hrecv, Hsig.
Qed.

Lemma server_wf_watch path s e fs last' w' :
  server_inv s → server_wf s →
  env_ok e →
  watch_iter e path fs (last s) (world s) = Some (last', w') →
  server_wf (mkServer w' (handlers s) (created s) last').
Proof.
  intros [Hmu _] (Hreg & Hcl & Hcr & Hdist & Hclosed & Hrel & Hcount) He Hw.
  destruct (watch_iter_cases e path fs (last s) (world s) He Hmu)
    as (last1 & w1 & Hit & _ & Hcase).
  rewrite Hw in Hit. injection Hit as <- <-.
  destruct Hcase as [(info & _ & _ & _ & Hs & Hclients & Hclosed' & Hrecv)|(_ & _ & ->)];
    [|done].
  unfold server_wf; cbn [world handlers created].
  split_and!; try done.
  - intros c b Hc. rewrite Hclients in Hc.
    destruct (write_fails e (world s) c) eqn:Hf; [done|].
    destruct (Hreg c b Hc) as (? & ? & ? & ?). split_and!; try done.
    rewrite Hclosed'. intros [?|[_ ?]]; [done|congruence].
  - intros c. rewrite Hclosed'. intros [Hc|[[b Hc]%elem_of_dom _]]; [by apply Hcl|].
    by destruct (Hreg c b Hc) as (_ & ? & _).
  - intros i c Hi. apply Hclosed'. left. by eapply Hclosed.
  - intros c m Hm. rewrite Hrecv in Hm.
    apply elem_of_app in Hm as [Hm|Hm]; [by apply Hrel|].
    destruct (decide _) as [[[b Hc]%elem_of_dom _]|]; [|by apply not_elem_of_nil in Hm].
    apply list_elem_of_singleton in Hm as ->.
    split; [done|]. by destruct (Hreg c b Hc) as (_ & ? & _).
  - intros c. rewrite Hrecv, length_app, Hs. specialize (Hcount c).
    destruct (decide _); simpl; lia.
Qed.

Lemma server_step_wf path s s' :
  server_step path s s' → server_inv s → server_wf s → server_wf s'.
Proof.
  intros Hstep Hinv Hwf.
  destruct Hstep as [s|s i e st ev st' w' He Hi Hfresh Hh|s e fs last' w' He Hw].
  - by apply server_wf_accept.
  - by eapply server_wf_handler.
  - by eapply server_wf_watch.
Qed.

Lemma server_reachable_wf path s : server_reachable path s → server_inv s ∧ server_wf s.
Proof.
  intros Hr. unfold server_reachable in Hr.
  revert s Hr. apply (rtc_ind_r (λ s, server_inv s ∧ server_wf s) init_server).
  - split; [|apply server_wf_init]. split; [done|]. intros i c Hi. done.
  - intros s1 s2 _ Hstep [Hinv Hwf]. split.
    + by eapply server_step_inv.
    + by eapply server_step_wf.
Qed.

Lemma after_disconnect_reachable path : server_reachable path after_disconnect.
Proof.
  unfold server_reachable.
  eapply rtc_r; [apply (one_subscriber_reachable path)|].
  exact (step_handler path one_subscriber 0%nat env_fine
           (Registered 1%positive) ReadFail (Closed 1%positive)
           (world after_disconnect) env_fine_ok eq_refl
           (λ c (H : ReadFail = UpgradeOk c),
              match H in _ = ev return
                    match ev with ReadFail => True | _ => c ∉ created one_subscriber end
              with eq_refl => I end)
           eq_refl).
Defined.

Lemma elem_of_delivered_received c m w :
  (c, m) ∈ delivered w ↔ m ∈ received c w.
Proof.
  unfold received. rewrite list_elem_of_fmap. split.
  - intros Hin. exists (c, m). split; [done|]. by apply list_elem_of_filter.
  - intros ([c' m'] & -> & [Hc Hin]%list_elem_of_filter). simpl in Hc. by subst.
Qed.

(** X9: who is in the registry.  In every state the server reaches, the
    mutex is free between two moves, and every key of [clients] is a
    connection that [Upgrade] created, is mapped to [true], and has never
    been closed; closed connections too are connections [Upgrade] created. *)
Theorem registered_clients_are_open (path : string) (s : Server) :
  server_reachable path s →
  clientsMu (world s) = false
  ∧ (∀ c b, clients (world s) !! c = Some b →
       b = true ∧ c ∈ created s ∧ (c ∉ closed (world s)))
  ∧ closed (world s) ⊆ created s.
Proof.
  intros Hr. destruct (server_reachable_wf path s Hr) as [[Hmu _] (Hreg & Hcl & _)].
  split_and!; try done.
  intros c b Hc. destruct (Hreg c b Hc) as (? & ? & ? & _). done.
Qed.

Lemma registered_clients_are_open_witness :
  clientsMu (world one_subscriber) = false
  ∧ (∀ c b, clients (world one_subscriber) !! c = Some b →
       b = true ∧ c ∈ created one_subscriber ∧ (c ∉ closed (world one_subscriber)))
  ∧ closed (world one_subscriber) ⊆ created one_subscriber.
Proof.
  apply (registered_clients_are_open "report.json" one_subscriber).
  apply one_subscriber_reachable.
Defined.

Lemma omap_length_le {A B} (f : A → option B) (l : list A) :
  (length (omap f l) ≤ length l)%nat.
Proof.
  induction l as [|x l IH]; [done|].
  cbn [omap list_omap]. destruct (f x); simpl; lia.
Qed.

(** X10: no registered connection without a reader.  In every state the
    server reaches, each registered connection belongs to exactly one
    handler, and that handler is in its read loop (so a failure of the
    connection will be noticed and the connection unregistered); hence the
    registry is never larger than the number of requests accepted. *)
Theorem every_client_has_a_reader (path : string) (s : Server) :
  server_reachable path s →
  (∀ c, c ∈ dom (clients (world s)) →
     ∃ i, handlers s !! i = Some (Registered c)
          ∧ ∀ j st, handlers s !! j = Some st → conn_of st = Some c → j = i)
  ∧ (Size (world s) ≤ length (handlers s))%nat.
Proof.
  intros Hr. destruct (server_reachable_wf path s Hr) as [_ (Hreg & _ & _ & Hdist & _)].
  split.
  - intros c [b Hc]%elem_of_dom. destruct (Hreg c b Hc) as (_ & _ & _ & i & Hi).
    exists i. split; [done|]. intros j st Hj Hcj.
    by apply (Hdist j i st (Registered c) c).
  - unfold Size. rewrite <- size_dom.
    etrans; [|apply (omap_length_le conn_of (handlers s))].
    apply submseteq_length, NoDup_submseteq; [apply NoDup_elements|].
    intros c [b Hc]%elem_of_elements%elem_of_dom.
    destruct (Hreg c b Hc) as (_ & _ & _ & i & Hi).
    apply list_elem_of_omap. exists (Registered c). split; [|done].
    by eapply list_elem_of_lookup_2.
Qed.

Lemma every_client_has_a_reader_witness :
  (∀ c, c ∈ dom (clients (world one_subscriber)) →
     ∃ i, handlers one_subscriber !! i = Some (Registered c)
          ∧ ∀ j st, handlers one_subscriber !! j = Some st → conn_of st = Some c → j = i)
  ∧ (Size (world one_subscriber) ≤ length (handlers one_subscriber))%nat.
Proof.
  apply (every_client_has_a_reader "report.json" one_subscriber).
  apply one_subscriber_reachable.
Defined.

(** X11: the only message.  In every state the server reaches, every frame
    a client has been sent is the text [reload], it went to a connection
    [Upgrade] created, and no client has received more frames than the
    watcher has signaled change events. *)
Theorem only_reload_is_sent (path : string) (s : Server) :
  server_reachable path s →
  (∀ c m, (c, m) ∈ delivered (world s) → m = "reload" ∧ c ∈ created s)
  ∧ (∀ c, length (received c (world s)) ≤ signals (world s))%nat.
Proof.
  intros Hr. destruct (server_reachable_wf path s Hr) as [_ (_ & _ & _ & _ & _ & Hrel & Hcount)].
  split; [|done]. intros c m Hin. by apply Hrel, elem_of_delivered_received.
Qed.

Lemma one_reload_sent_reachable : server_reachable "report.json" one_reload_sent.
Proof.
  unfold server_reachable.
  eapply rtc_r; [apply (one_subscriber_reachable "report.json")|].
  exact (step_watch "report.json" one_subscriber env_fine (fs_report "report.json" 100)
           (Unix 100 0) (world one_reload_sent) env_fine_ok eq_refl).
Defined.

Lemma only_reload_is_sent_witness :
  delivered (world one_reload_sent) = [(1%positive, "reload")]
  ∧ signals (world one_reload_sent) = 1%nat
  ∧ (∀ c m, (c, m) ∈ delivered (world one_reload_sent) →
       m = "reload" ∧ c ∈ created one_reload_sent)
  ∧ (∀ c, length (received c (world one_reload_sent))
          ≤ signals (world one_reload_sent))%nat.
Proof.
  split; [reflexivity|]. split; [reflexivity|].
  apply (only_reload_is_sent "report.json" one_reload_sent).
  apply one_reload_sent_reachable.
Defined.

Lemma server_step_closed_silent path c s s' :
  server_step path s s' → server_inv s →
  c ∈ closed (world s) →
  c ∈ closed (world s') ∧ received c (world s') = received c (world s).
Proof.
  intros Hstep [Hmu _] Hc.
  destruct Hstep as [s|s i e st ev st' w' He Hi Hfresh Hh|s e fs last' w' He Hw];
    cbn [world].
  - done.
  - destruct (ws_handler_frames _ _ _ _ _ _ Hmu Hh) as [Hdel _].
    split; [|by apply received_same_delivered].
    apply ws_handler_effect in Hh as [_ Hh]; [|done].
    destruct st as [|c0|c0|], ev as [c'| | |]; try done;
      destruct Hh as (_ & _ & ->); try done.
    apply elem_of_union. by right.
  - destruct (watch_iter_cases e path fs (last s) (world s) He Hmu)
      as (last1 & w1 & Hit & _ & Hcase).
    rewrite Hw in Hit. injection Hit as <- <-.
    destruct Hcase as [(info & _ & _ & _ & _ & _ & Hclosed & Hrecv)|(_ & _ & ->)];
      [|done].
    split; [apply Hclosed; by left|].
    rewrite Hrecv, decide_False, app_nil_r; [done|].
    intros [_ Hf]. unfold write_fails in Hf. apply bool_decide_eq_false in Hf. tauto.
Qed.

(** X12: nothing after the close.  Once a connection has been closed, by a
    failed read or by a failed write, it stays closed and its peer receives
    no further frame, whatever the server does afterwards. *)
Theorem closed_connection_receives_nothing
    (path : string) (s s' : Server) (c : Conn) :
  server_reachable path s →
  c ∈ closed (world s) →
  rtc (server_step path) s s' →
  c ∈ closed (world s')
  ∧ (c ∉ dom (clients (world s')))
  ∧ received c (world s') = received c (world s).
Proof.
  intros Hr Hc Hsteps.
  assert (Hr' : server_reachable path s') by (unfold server_reachable; by etrans).
  assert (Hgen : c ∈ closed (world s') ∧ received c (world s') = received c (world s)).
  { apply server_reachable_inv in Hr. clear Hr'.
    induction Hsteps as [s|s s1 s' Hstep _ IH]; [done|].
    destruct (server_step_closed_silent path c s s1 Hstep Hr Hc) as [Hc1 Hrecv1].
    destruct IH as [Hc' Hrecv']; [by eapply server_step_inv|done|].
    split; [done|]. by rewrite Hrecv'. }
  destruct Hgen as [Hc' Hrecv]. split_and!; try done.
  destruct (server_reachable_wf path s' Hr') as [_ (Hreg & _)].
  intros [b Hb]%elem_of_dom. by destruct (Hreg c b Hb) as (_ & _ & ? & _).
Qed.

Lemma one_left_one_stays_reachable : server_reachable "report.json" one_left_one_stays.
Proof.
  unfold server_reachable.
  eapply rtc_r; [eapply rtc_r; [eapply rtc_r|]|].
  - apply (one_subscriber_reachable "report.json").
  - apply step_accept.
  - refine (step_handler "report.json"
              (mkServer (world one_subscriber) (handlers one_subscriber ++ [Connecting])
                 (created one_subscriber) (last one_subscriber))
              1%nat env_fine Connecting (UpgradeOk 2%positive) (Registered 2%positive)
              (mkWorld {[1%positive := true; 2%positive := true]} false ∅ []
                 [LogClientConnected 1; LogClientConnected 2])
              env_fine_ok eq_refl _ eq_refl).
    intros c [= <-]. cbn [created one_subscriber].
    apply not_elem_of_union. split; [|apply not_elem_of_empty].
    apply not_elem_of_singleton. discriminate.
  - refine (step_handler "report.json"
              (mkServer
                 (mkWorld {[1%positive := true; 2%positive := true]} false ∅ []
                    [LogClientConnected 1; LogClientConnected 2])
                 [Registered 1%positive; Registered 2%positive]
                 {[1%positive; 2%positive]} zeroTime)
              0%nat env_fine (Registered 1%positive) ReadFail
              (Closed 1%positive) (world one_left_one_stays) env_fine_ok eq_refl _ eq_refl).
    intros c H. discriminate H.
Defined.

Lemma closed_connection_receives_nothing_witness :
  received 2%positive (world one_left_one_reloaded)
  = received 2%positive (world one_left_one_stays) ++ ["reload"]
  ∧ 1%positive ∈ closed (world one_left_one_reloaded)
  ∧ (1%positive ∉ dom (clients (world one_left_one_reloaded)))
  ∧ received 1%positive (world one_left_one_reloaded)
    = received 1%positive (world one_left_one_stays).
Proof.
  split; [reflexivity|].
  apply (closed_connection_receives_nothing "report.json"
           one_left_one_stays one_left_one_reloaded 1%positive).
  - apply one_left_one_stays_reachable.
  - unfold one_left_one_stays. cbn [world closed]. by apply elem_of_singleton.
  - apply rtc_once.
    exact (step_watch "report.json" one_left_one_stays env_fine
             (fs_report "report.json" 100) (Unix 100 0)
             (world one_left_one_reloaded) env_fine_ok eq_refl).
Defined.

(** ** The JSON form of a report *)

(** Induction over JSON values, through the elements of arrays and the
    members of objects. *)
Lemma JSON_ind_nested {N} (P : JSON N → Prop) :
  P JNull → (∀ b, P (JBool b)) → (∀ n, P (JNum n)) → (∀ s, P (JStr s)) →
  (∀ l, Forall P l → P (JArr l)) →
  (∀ ms, Forall (λ kv, P kv.2) ms → P (JObj ms)) →
  ∀ v, P v.
Proof.
  intros Hnull Hbool Hnum Hstr Harr Hobj.
  fix IH 1. intros [|b|n|s|l|ms]; [done..| |].
  - apply Harr. induction l as [|v l IHl]; constructor; [apply IH|exact IHl].
  - apply Hobj. induction ms as [|[k v] ms IHms]; constructor; [apply IH|exact IHms].
Qed.

Lemma first_error_None_r (a : option error) : first_error a None = a.
Proof. by destruct a. Qed.

Lemma decodeMembers_filter {A} (dec : A → string * json → A * option error)
    (P : string * json → Prop) `{!∀ kv, Decision (P kv)} (ms : list (string * json)) :
  (∀ r kv, ¬ P kv → dec r kv = (r, None)) →
  ∀ old, decodeMembers dec ms old = decodeMembers dec (filter P ms) old.
Proof.
  intros Hskip old. unfold decodeMembers. generalize (old, @None error).
  induction ms as [|kv ms IH]; intros acc; [done|].
  rewrite filter_cons. destruct (decide (P kv)) as [HP|HP]; cbn [foldl].
  - apply IH.
  - rewrite (Hskip _ _ HP), first_error_None_r. destruct acc. apply IH.
Qed.

Lemma decodeReportMember_unknown r key v :
  report_field key = false → decodeReportMember r (key, v) = (r, None).
Proof.
  unfold report_field. rewrite !orb_false_iff. intros ((((H1 & H2) & H3) & H4) & H5).
  unfold decodeReportMember. cbv zeta. by rewrite H1, H2, H3, H4, H5.
Qed.

Lemma decodeScanResultMember_unknown ctx r key v :
  probe_field key = false → decodeScanResultMember ctx r (key, v) = (r, None).
Proof.
  unfold probe_field. rewrite !orb_false_iff.
  intros (((((((H1 & H2) & H3) & H4) & H5) & H6) & H7) & H8).
  unfold decodeScanResultMember. cbv zeta. by rewrite H1, H2, H3, H4, H5, H6, H7, H8.
Qed.

(** X14: unknown members are ignored.  Members of the stored report, or of
    a stored probe result, whose key names none of the fields change
    neither the decoded value nor the error: decoding the object is
    decoding it with these members removed. *)
Theorem unknown_members_ignored (ms : list (string * json)) :
  (∀ old, decodeReport (JObj ms) old
          = decodeReport (JObj (filter (λ kv, report_field kv.1 = true) ms)) old)
  ∧ (∀ old, decodeScanResult (JObj ms) old
            = decodeScanResult (JObj (filter (λ kv, probe_field kv.1 = true) ms)) old).
Proof.
  split; intros old; unfold decodeScanResult;
    cbn [decodeReport decodeScanResultAt]; apply decodeMembers_filter.
  - intros r [key v] Hno. apply decodeReportMember_unknown.
    simpl in Hno. by destruct (report_field key).
  - intros r [key v] Hno. apply decodeScanResultMember_unknown.
    simpl in Hno. by destruct (probe_field key).
Qed.

Example unknown_members_ignored_sample :
  decodeReport (JObj report_with_extras) zeroReport
  = (mkReport "scan-9" "" zeroFloat 0 None, None).
Proof. reflexivity. Qed.

(** The headers of a probe result are served as the map holds them: the
    keys in increasing order at every depth, a key written twice with its
    last value, every number as the nearest [float64]. *)
Example headers_served_sorted :
  member "security_headers"
    (encodeScanResult
       (decodeScanResult
          (JObj [("security_headers",
                  JObj [("x-b", JObj [("z", JNum "1.0");
                                      ("a", JArr [JNum "9007199254740993"; JNull])]);
                        ("x-a", JStr "first");
                        ("x-a", JStr "second")])])
          zeroScanResult).1)
  = Some (JObj [("x-a", JStr "second");
                ("x-b", JObj [("a", JArr [JNum (NFloat (SpecFloat.S754_finite false
                                                          4503599627370496 1));
                                          JNull]);
                              ("z", JNum (NFloat (SpecFloat.S754_finite false
                                                    4503599627370496 (-52))))])]).
Proof. vm_compute. reflexivity. Qed.

(** The seconds of [time.Unix] wrap around at 64 bits. *)
Example Unix_wraps :
  Unix (-62135596800) 0 = zeroTime
  ∧ Unix 0 1000000001 = Unix 1 1
  ∧ Unix 0 (-1) = Unix (-1) 999999999
  ∧ Unix (2 ^ 63 - 1) 0 < zeroTime.
Proof. split_and!; reflexivity. Qed.

(** Whether a value decodes with an error depends neither on what the
    variable holds nor on where the value stands. *)
Lemma first_error_not_None (a b : option error) :
  first_error a b ≠ None ↔ a ≠ None ∨ b ≠ None.
Proof. destruct a, b; simpl; split; try tauto; intros [?|?]; done. Qed.

Lemma decodeMembers_error_mono {A B}
    (dec : A → string * json → A * option error)
    (dec' : B → string * json → B * option error) (ms : list (string * json)) :
  Forall (λ kv, ∀ r r', (dec r kv).2 ≠ None → (dec' r' kv).2 ≠ None) ms →
  ∀ acc acc', (acc.2 ≠ None → acc'.2 ≠ None) →
  (foldl (λ acc kv, let '(x, err) := dec acc.1 kv in (x, first_error acc.2 err))
     acc ms).2 ≠ None →
  (foldl (λ acc kv, let '(x, err) := dec' acc.1 kv in (x, first_error acc.2 err))
     acc' ms).2 ≠ None.
Proof.
  induction 1 as [|kv ms Hkv _ IH]; intros acc acc' Hacc; [exact Hacc|].
  cbn [foldl]. apply IH.
  specialize (Hkv acc.1 acc'.1).
  destruct (dec acc.1 kv) as [x err], (dec' acc'.1 kv) as [x' err']. cbn [snd] in *.
  rewrite !first_error_not_None. tauto.
Qed.

Lemma decodeEntries_error_mono {A B}
    (dec : json → A * option error) (dec' : json → B * option error)
    (ms : list (string * json)) :
  Forall (λ kv, (dec kv.2).2 ≠ None → (dec' kv.2).2 ≠ None) ms →
  ∀ m m', (decodeEntries dec ms m).2 ≠ None → (decodeEntries dec' ms m').2 ≠ None.
Proof.
  intros Hall m m'. unfold decodeEntries.
  assert (Hgen : ∀ (acc : list (string * A) * option error)
                   (acc' : list (string * B) * option error),
    (acc.2 ≠ None → acc'.2 ≠ None) →
    (foldl (λ acc kv, let '(y, err) := dec kv.2 in
                      (map_set kv.1 y acc.1, first_error acc.2 err)) acc ms).2 ≠ None →
    (foldl (λ acc kv, let '(y, err) := dec' kv.2 in
                      (map_set kv.1 y acc.1, first_error acc.2 err)) acc' ms).2 ≠ None).
  { induction Hall as [|kv ms Hkv _ IH]; intros acc acc' Hacc; [exact Hacc|].
    cbn [foldl]. apply IH.
    destruct (dec kv.2) as [x err], (dec' kv.2) as [x' err']. cbn [snd] in *.
    rewrite !first_error_not_None. tauto. }
  by apply Hgen.
Qed.

Lemma decodeElems_error_mono {A B}
    (dec : json → A → A * option error) (dec' : json → B → B * option error)
    (zero : A) (zero' : B) (l : list json) :
  Forall (λ v, ∀ b b', (dec v b).2 ≠ None → (dec' v b').2 ≠ None) l →
  ∀ bk bk', (decodeElems dec zero l bk).2 ≠ None →
            (decodeElems dec' zero' l bk').2 ≠ None.
Proof.
  induction 1 as [|v l Hv _ IH]; intros bk bk'; [done|].
  cbn [decodeElems].
  specialize (Hv (default zero (head bk)) (default zero' (head bk'))).
  specialize (IH (tail bk) (tail bk')).
  destruct (dec v _) as [x err], (dec' v _) as [x' err'].
  destruct (decodeElems dec zero l _) as [xs errs],
           (decodeElems dec' zero' l _) as [xs' errs'].
  cbn [snd] in *. rewrite !first_error_not_None. tauto.
Qed.

Lemma decodeAny_error ctx ctx' (v : json) :
  (decodeAny ctx v).2 ≠ None → (decodeAny ctx' v).2 ≠ None.
Proof.
  induction v as [|b|lit|s|l IH|ms IH] using JSON_ind_nested; cbn [decodeAny]; try done.
  - by destruct (parseFloat lit).
  - pose proof (decodeElems_error_mono (λ x _, decodeAny ctx x) (λ x _, decodeAny ctx' x)
                  AnyNil AnyNil l) as Hmono.
    specialize (Hmono ltac:(eapply Forall_impl; [exact IH|]; simpl; auto) [] []).
    destruct (decodeElems _ AnyNil l []) as [xs err],
             (decodeElems _ AnyNil l []) as [xs' err']. exact Hmono.
  - pose proof (decodeEntries_error_mono (decodeAny ctx) (decodeAny ctx') ms IH [] [])
      as Hmono.
    destruct (decodeEntries (decodeAny ctx) ms []) as [m err],
             (decodeEntries (decodeAny ctx') ms []) as [m' err']. exact Hmono.
Qed.

Lemma decodeString_error ctx ctx' v old old' :
  (decodeString ctx v old).2 ≠ None → (decodeString ctx' v old').2 ≠ None.
Proof. by destruct v. Qed.

Lemma decodeInt_error ctx ctx' v old old' :
  (decodeInt ctx v old).2 ≠ None → (decodeInt ctx' v old').2 ≠ None.
Proof. destruct v as [| |lit| | |]; try done. simpl. by destruct (parseInt lit). Qed.

Lemma decodeFloat64_error ctx ctx' v old old' :
  (decodeFloat64 ctx v old).2 ≠ None → (decodeFloat64 ctx' v old').2 ≠ None.
Proof. destruct v as [| |lit| | |]; try done. simpl. by destruct (parseFloat lit). Qed.

Lemma decodeSlice_error {A} (dec dec' : json → A → A * option error) (zero : A)
    (l : list json) (old old' : option (Slice A)) :
  (∀ v b b', (dec v b).2 ≠ None → (dec' v b').2 ≠ None) →
  (decodeSlice dec zero l old).2 ≠ None → (decodeSlice dec' zero l old').2 ≠ None.
Proof.
  intros Hdec. unfold decodeSlice. destruct l as [|v l]; [done|].
  pose proof (decodeElems_error_mono dec dec' zero zero (v :: l)
                ltac:(apply Forall_forall; intros; by eapply Hdec)
                (match old with Some s => items s ++ spare s | None => [] end)
                (match old' with Some s => items s ++ spare s | None => [] end)) as Hmono.
  destruct (decodeElems dec zero (v :: l) _) as [xs err],
           (decodeElems dec' zero (v :: l) _) as [xs' err']. exact Hmono.
Qed.

Lemma decodeStrings_error ctx ctx' v old old' :
  (decodeStrings ctx v old).2 ≠ None → (decodeStrings ctx' v old').2 ≠ None.
Proof.
  destruct v as [| | | |l|]; try done. cbn [decodeStrings].
  apply decodeSlice_error. intros. by eapply decodeString_error.
Qed.

Lemma decodeMap_error ctx ctx' v old old' :
  (decodeMap ctx v old).2 ≠ None → (decodeMap ctx' v old').2 ≠ None.
Proof.
  destruct v as [| | | | |ms]; try done. cbn [decodeMap].
  pose proof (decodeEntries_error_mono (decodeAny ctx) (decodeAny ctx') ms
                ltac:(apply Forall_forall; intros; by eapply decodeAny_error)
                (default [] old) (default [] old')) as Hmono.
  destruct (decodeEntries (decodeAny ctx) ms _) as [m err],
           (decodeEntries (decodeAny ctx') ms _) as [m' err']. exact Hmono.
Qed.

Lemma decodeScanResultMember_error ctx ctx' r r' kv :
  (decodeScanResultMember ctx r kv).2 ≠ None →
  (decodeScanResultMember ctx' r' kv).2 ≠ None.
Proof.
  destruct kv as [key v]. unfold decodeScanResultMember. cbv zeta.
  repeat match goal with
         | |- context [if names ?n key then _ else _] => destruct (names n key); [|]
         end; try done.
  - pose proof (decodeString_error (field "ScanResult" "url" ctx)
                  (field "ScanResult" "url" ctx') v (URL r) (URL r')) as H.
    by destruct (decodeString _ v (URL r)), (decodeString _ v (URL r')).
  - pose proof (decodeInt_error (field "ScanResult" "status" ctx)
                  (field "ScanResult" "status" ctx') v (Status r) (Status r')) as H.
    by destruct (decodeInt _ v (Status r)), (decodeInt _ v (Status r')).
  - pose proof (decodeMap_error (field "ScanResult" "security_headers" ctx)
                  (field "ScanResult" "security_headers" ctx') v
                  (SecurityHeaders r) (SecurityHeaders r')) as H.
    by destruct (decodeMap _ v (SecurityHeaders r)), (decodeMap _ v (SecurityHeaders r')).
  - pose proof (decodeStrings_error (field "ScanResult" "issues" ctx)
                  (field "ScanResult" "issues" ctx') v (Issues r) (Issues r')) as H.
    by destruct (decodeStrings _ v (Issues r)), (decodeStrings _ v (Issues r')).
  - pose proof (decodeString_error (field "ScanResult" "severity" ctx)
                  (field "ScanResult" "severity" ctx') v (Severity r) (Severity r')) as H.
    by destruct (decodeString _ v (Severity r)), (decodeString _ v (Severity r')).
  - pose proof (decodeString_error (field "ScanResult" "error" ctx)
                  (field "ScanResult" "error" ctx') v (Error r) (Error r')) as H.
    by destruct (decodeString _ v (Error r)), (decodeString _ v (Error r')).
  - pose proof (decodeFloat64_error (field "ScanResult" "response_time_ms" ctx)
                  (field "ScanResult" "response_time_ms" ctx') v
                  (ResponseTimeMs r) (ResponseTimeMs r')) as H.
    by destruct (decodeFloat64 _ v (ResponseTimeMs r)),
                (decodeFloat64 _ v (ResponseTimeMs r')).
  - pose proof (decodeString_error (field "ScanResult" "timestamp" ctx)
                  (field "ScanResult" "timestamp" ctx') v (Timestamp r) (Timestamp r')) as H.
    by destruct (decodeString _ v (Timestamp r)), (decodeString _ v (Timestamp r')).
Qed.

Lemma decodeScanResultAt_error ctx ctx' v old old' :
  (decodeScanResultAt ctx v old).2 ≠ None → (decodeScanResultAt ctx' v old').2 ≠ None.
Proof.
  destruct v as [| | | | |ms]; try done. cbn [decodeScanResultAt]. unfold decodeMembers.
  apply decodeMembers_error_mono; [|done].
  apply Forall_forall. intros kv _ r r'. apply decodeScanResultMember_error.
Qed.

Lemma decodeMembers_error {A} (dec : A → string * json → A * option error)
    (ms : list (string * json)) (old : A) (kv : string * json) :
  kv ∈ ms → (∀ r, (dec r kv).2 ≠ None) → (decodeMembers dec ms old).2 ≠ None.
Proof.
  intros Hin Hbad. unfold decodeMembers.
  assert (Hgen : ∀ acc : A * option error, acc.2 ≠ None ∨ kv ∈ ms →
            (foldl (λ acc kv, let '(x, err) := dec acc.1 kv in (x, first_error acc.2 err))
               acc ms).2 ≠ None).
  { clear Hin. induction ms as [|kv' ms IH]; intros acc [Hacc|Hin]; cbn [foldl].
    - done.
    - by apply not_elem_of_nil in Hin.
    - apply IH. left. destruct (dec acc.1 kv') as [x err]. cbn [snd].
      by destruct acc.2.
    - apply elem_of_cons in Hin as [<-|Hin]; [|apply IH; by right].
      apply IH. left. specialize (Hbad acc.1).
      destruct (dec acc.1 kv) as [x err]. cbn [snd] in *.
      destruct acc.2; [done|]. by destruct err. }
  apply Hgen. by right.
Qed.

Lemma decodeElems_error {A} (dec : json → A → A * option error) (zero : A)
    (l : list json) (v : json) :
  v ∈ l → (∀ old, (dec v old).2 ≠ None) →
  ∀ backing, (decodeElems dec zero l backing).2 ≠ None.
Proof.
  intros Hin Hbad.
  induction l as [|v' l IH]; intros backing; [by apply not_elem_of_nil in Hin|].
  cbn [decodeElems]. apply elem_of_cons in Hin as [<-|Hin].
  - specialize (Hbad (default zero (head backing))).
    destruct (dec v _) as [x err]. destruct (decodeElems dec zero l _) as [xs errs].
    cbn [snd] in *. apply first_error_not_None. by left.
  - specialize (IH Hin (tail backing)).
    destruct (dec v' _) as [x err]. destruct (decodeElems dec zero l _) as [xs errs].
    cbn [snd] in *. apply first_error_not_None. by right.
Qed.

(** X15: one bad probe spoils the report.  If the stored report has a
    member named results whose array holds an element that does not decode
    as a probe result (a string, say, or an object with a mistyped field),
    [loadReport] returns no report but an error, wherever the element
    stands and whatever else the report holds, and the handler answers 500
    with the error's text. *)
Theorem bad_probe_fails_load
    (fs : FS) (path : string) (f : File)
    (ms : list (string * json)) (key : string) (l : list json) (v : json) :
  fs !! path = Some f →
  content f = JsonText (JObj ms) →
  (key, JArr l) ∈ ms →
  names "results" key = true →
  v ∈ l →
  (decodeScanResult v zeroScanResult).2 ≠ None →
  ∃ err, loadReport fs path = (None, Some err)
    ∧ apiReport fs path = httpError (ErrorText err) 500.
Proof.
  intros Hf Hc Hin Hkey Hv Hbad.
  assert (Herr : (Unmarshal (JsonText (JObj ms)) zeroReport).2 ≠ None).
  { cbn [Unmarshal decodeReport].
    apply (decodeMembers_error _ _ _ (key, JArr l) Hin). intros r.
    unfold decodeReportMember. cbv zeta.
    rewrite (names_distinct "results" "scan_id" key),
            (names_distinct "results" "timestamp" key),
            (names_distinct "results" "duration_seconds" key),
            (names_distinct "results" "total_targets" key), Hkey by done.
    cbn [decodeScanResults]. unfold decodeSlice.
    destruct l as [|v0 l0] eqn:Hl; [by apply not_elem_of_nil in Hv|]. rewrite <- Hl in *.
    pose proof (decodeElems_error (decodeScanResultAt (field "Report" "results" top))
                  zeroScanResult l v Hv
                  (λ old, decodeScanResultAt_error _ _ v _ old Hbad)
                  (match Results r with Some s => items s ++ spare s | None => [] end))
      as Hel.
    by destruct (decodeElems _ zeroScanResult l _) as [xs [err|]]. }
  destruct (Unmarshal (JsonText (JObj ms)) zeroReport) as [r [err|]] eqn:Hun; [|done].
  exists err.
  assert (Hload : loadReport fs path = (None, Some err))
    by (by rewrite (loadReport_found fs path f _ Hf Hc), Hun).
  split; [done|]. unfold apiReport. by rewrite Hload.
Qed.

Lemma bad_probe_fails_load_witness :
  ∃ err, loadReport fs_bad_probe "report.json" = (None, Some err)
    ∧ apiReport fs_bad_probe "report.json" = httpError (ErrorText err) 500.
Proof.
  apply (bad_probe_fails_load fs_bad_probe "report.json"
           (mkFile (JsonText (JObj [("scan_id", JStr "scan-3");
                                    ("results", JArr [failed_probe; JStr "oops"])]))
                   (Unix 1735689600 0))
           [("scan_id", JStr "scan-3"); ("results", JArr [failed_probe; JStr "oops"])]
           "results" [failed_probe; JStr "oops"] (JStr "oops")).
  - reflexivity.
  - reflexivity.
  - right. left.
  - reflexivity.
  - right. left.
  - discriminate.
Defined.

Lemma decodeReportMember_Results r key v :
  (names "results" key = true → v = JNull) →
  Results r = None →
  Results (decodeReportMember r (key, v)).1 = None.
Proof.
  intros Hnull Hr. destruct (names "results" key) eqn:Hres.
  - unfold decodeReportMember. cbv zeta.
    rewrite (names_distinct "results" "scan_id" key),
            (names_distinct "results" "timestamp" key),
            (names_distinct "results" "duration_seconds" key),
            (names_distinct "results" "total_targets" key), Hres by done.
    by rewrite (Hnull eq_refl).
  - by rewrite decodeReportMember_other.
Qed.

(** X16: no results, served as null.  If the stored report has no member
    named results (or only null ones), the loaded report has a nil slice of
    results, and [/api/report] serves the member results as null, not as an
    empty array; an empty stored array is served as an empty array. *)
Theorem missing_results_served_as_null (ms : list (string * json)) :
  (∀ key v, (key, v) ∈ ms → names "results" key = true → v = JNull) →
  Results (decodeReport (JObj ms) zeroReport).1 = None
  ∧ member "results" (encodeReport (decodeReport (JObj ms) zeroReport).1) = Some JNull
  ∧ member "results" (encodeReport (decodeReport (JObj (ms ++ [("results", JArr [])]))
                                      zeroReport).1)
    = Some (JArr []).
Proof.
  intros Hnull.
  assert (Hgen : ∀ acc : Report * option error, Results acc.1 = None →
    Results (foldl (λ acc kv, let '(x, err) := decodeReportMember acc.1 kv in
                              (x, first_error acc.2 err)) acc ms).1 = None).
  { revert Hnull. induction ms as [|[key v] ms IH]; intros Hnull acc Hacc; [done|].
    cbn [foldl]. apply IH; [intros k' v' Hin; apply Hnull; by right|].
    pose proof (decodeReportMember_Results acc.1 key v (Hnull key v ltac:(left)) Hacc).
    by destruct (decodeReportMember acc.1 (key, v)). }
  assert (Hres : Results (decodeReport (JObj ms) zeroReport).1 = None)
    by (by apply Hgen).
  split_and!; [done|by cbn [encodeReport member find_member]; rewrite Hres|].
  cbn [decodeReport]. unfold decodeMembers. rewrite foldl_app. cbn [foldl].
  destruct (foldl _ (zeroReport, None) ms) as [r0 e0]. reflexivity.
Qed.

Lemma missing_results_served_as_null_witness :
  Results (decodeReport (JObj report_with_extras) zeroReport).1 = None
  ∧ member "results" (encodeReport (decodeReport (JObj report_with_extras) zeroReport).1)
    = Some JNull
  ∧ member "results"
      (encodeReport (decodeReport (JObj (report_with_extras ++ [("results", JArr [])]))
                       zeroReport).1)
    = Some (JArr []).
Proof.
  apply (missing_results_served_as_null report_with_extras).
  intros key v Hin Hname. unfold report_with_extras in Hin.
  repeat (apply elem_of_cons in Hin as [[= -> ->]|Hin]; [discriminate Hname|]).
  by apply not_elem_of_nil in Hin.
Defined.

(** ** The dashboard *)

(** X17: the dashboard never shows an error.  The handler of [/] shows the
    page that waits for the first scan exactly when [loadReport] fails, that
    is exactly when [/api/report] answers 500: when the report file is
    missing, and also when it is there but does not decode.  Otherwise it
    shows the page of the loaded report, with one row per result. *)
Theorem dashboard_waits_on_failure (fs : FS) (path : string) :
  (dashboard fs path = WaitingPage ↔ (loadReport fs path).2 ≠ None)
  ∧ (dashboard fs path = WaitingPage ↔ statusCode (apiReport fs path) = 500)
  ∧ (fs !! path = None → dashboard fs path = WaitingPage)
  ∧ (∀ f msg, fs !! path = Some f → content f = Malformed msg →
       dashboard fs path = WaitingPage)
  ∧ (∀ r, loadReport fs path = (Some r, None) →
       ∃ stats rows labels data,
         dashboard fs path = LivePage (ScanID r) (ReportTimestamp r) stats rows labels data
         ∧ statTotal stats = len (Results r)
         ∧ rows = row <$> elems (Results r)).
Proof.
  pose proof (loadReport_shape fs path) as Hshape.
  unfold dashboard, dashboardReport, apiReport.
  split_and!.
  - destruct Hshape as [[r ->]|[err ->]]; simpl; split; done.
  - destruct Hshape as [[r ->]|[err ->]]; simpl; split; done.
  - intros Hf. by rewrite (loadReport_missing fs path Hf).
  - intros f msg Hf Hc. by rewrite (loadReport_found fs path f (Malformed msg) Hf Hc).
  - intros r ->. cbn [render]. by do 4 eexists.
Qed.

Example dashboard_of_mistyped_report :
  dashboard fs_mistyped_report "report.json" = WaitingPage
  ∧ statusCode (apiReport fs_mistyped_report "report.json") = 500.
Proof. split; reflexivity. Qed.

(** The unreadable report and the report whose duration no [float64] can
    hold leave the dashboard waiting, too. *)
Example dashboard_of_unreadable_report :
  dashboard fs_unreadable_report "report.json" = WaitingPage
  ∧ dashboard {[ "report.json" :=
                   mkFile (JsonText (JObj [("duration_seconds", JNum "1e400")])) 0 ]}
      "report.json" = WaitingPage.
Proof. split; reflexivity. Qed.

(** X18: a probe without status shows N/A.  If the stored report decodes
    and has one member named results, an array, the dashboard has one row
    per element, and a stored probe result that carries no status (no
    member of that name, or null, as after a transport failure) is shown,
    in its row, with N/A in the status column; and the column shows N/A
    exactly for the probes whose [Status] is 0, the ones [/api/report]
    serves with status 0. *)
Theorem probe_without_status_shows_NA
    (fs : FS) (path : string) (f : File)
    (ms1 : list (string * json)) (key : string) (l : list json)
    (ms2 : list (string * json)) :
  fs !! path = Some f →
  content f = JsonText (JObj (ms1 ++ (key, JArr l) :: ms2)) →
  names "results" key = true →
  (∀ k v, (k, v) ∈ ms1 ++ ms2 → names "results" k = false) →
  (loadReport fs path).2 = None →
  (∃ scanID timestamp stats rows labels data,
     dashboard fs path = LivePage scanID timestamp stats rows labels data
     ∧ length rows = length l
     ∧ ∀ i ps, l !! i = Some (JObj ps) →
         (∀ k v, (k, v) ∈ ps → names "status" k = true → v = JNull) →
         ∃ rw, rows !! i = Some rw ∧ rowStatus rw = StatusNA)
  ∧ (∀ r, rowStatus (row r) = StatusNA ↔ Status r = 0)
  ∧ (∀ r, Status r ≠ 0 → rowStatus (row r) = StatusCode (Status r)).
Proof.
  intros Hf Hc Hkey Hother Hok.
  assert (Hiff : ∀ r, rowStatus (row r) = StatusNA ↔ Status r = 0).
  { intros r. cbn [row rowStatus]. unfold statusCell. case_bool_decide; split; done. }
  split_and!; try done.
  - destruct (loadReport_shape fs path) as [[r Hload]|[err Hload]];
      [|by rewrite Hload in Hok].
    destruct (loadReport_results fs path f ms1 key l ms2 r Hf Hc Hkey Hother Hload)
      as (s & Hres & Hitems).
    unfold dashboard, dashboardReport. rewrite Hload. cbn [render].
    do 6 eexists. split; [reflexivity|].
    rewrite Hres. cbn [elems]. rewrite Hitems, !length_fmap. split; [done|].
    intros i ps Hi Hnull. eexists. rewrite !list_lookup_fmap, Hi. split; [reflexivity|].
    apply Hiff. by apply decodeScanResultAt_no_status.
  - intros r Hr. cbn [row rowStatus]. unfold statusCell.
    by rewrite bool_decide_eq_false_2.
Qed.

Lemma probe_without_status_shows_NA_witness :
  (∃ scanID timestamp stats rows labels data,
     dashboard fs_failed_report "report.json"
     = LivePage scanID timestamp stats rows labels data
     ∧ length rows = length [failed_probe]
     ∧ ∃ rw, rows !! 0%nat = Some rw ∧ rowStatus rw = StatusNA)
  ∧ (∀ r, rowStatus (row r) = StatusNA ↔ Status r = 0)
  ∧ (∀ r, Status r ≠ 0 → rowStatus (row r) = StatusCode (Status r)).
Proof.
  destruct (probe_without_status_shows_NA fs_failed_report "report.json"
              (mkFile (JsonText failed_report) (Unix 1735689600 0))
              [("scan_id", JStr "scan-1");
               ("timestamp", JStr "2025-01-01T00:00:00Z");
               ("duration_seconds", JNum "0.25");
               ("total_targets", JNum "1")]
              "results" [failed_probe] [] eq_refl eq_refl eq_refl)
    as ((scanID & timestamp & stats & rows & labels & data & Hpage & Hlen & Hrows)
        & Hiff & Hcode).
  - intros k v Hin. rewrite app_nil_r in Hin.
    repeat (apply elem_of_cons in Hin as [[= -> ->]|Hin]; [reflexivity|]).
    by apply not_elem_of_nil in Hin.
  - reflexivity.
  - split; [|by split].
    exists scanID, timestamp, stats, rows, labels, data.
    split; [exact Hpage|]. split; [exact Hlen|].
    apply (Hrows 0%nat
             [("url", JStr "http://10.0.0.1:9");
              ("status", JNull);
              ("security_headers", JObj []);
              ("issues", JArr []);
              ("severity", JStr "error");
              ("error", JStr "connection refused");
              ("response_time_ms", JNull);
              ("timestamp", JStr "2025-01-01T00:00:00Z")] eq_refl).
    intros k v Hin Hname.
    repeat (apply elem_of_cons in Hin as [[= -> ->]|Hin];
            [first [reflexivity|discriminate]|]).
    by apply not_elem_of_nil in Hin.
Defined.

Lemma severities_partition_with_others (l : list ScanResult) :
  (length (filter (λ r, Severity r = "high") l)
   + length (filter (λ r, Severity r = "medium") l)
   + length (filter (λ r, Severity r = "info") l)
   + length (filter (λ r, Severity r = "error") l)
   + length (filter (λ r, Severity r ∉ ["high"; "medium"; "info"; "error"]) l))%nat
  = length l.
Proof.
  induction l as [|r l IH]; [done|].
  rewrite !filter_cons.
  destruct (decide (Severity r = "high")) as [Hh|Hh];
    [|destruct (decide (Severity r = "medium")) as [Hm|Hm];
      [|destruct (decide (Severity r = "info")) as [Hi|Hi];
        [|destruct (decide (Severity r = "error")) as [He|He]]]].
  - rewrite Hh.
    repeat (first [rewrite decide_True by done | rewrite decide_False by done]).
    rewrite decide_False by (intros Hn; apply Hn; by left).
    cbn [length]. lia.
  - rewrite Hm.
    repeat (first [rewrite decide_True by done | rewrite decide_False by done]).
    rewrite decide_False by (intros Hn; apply Hn; right; by left).
    cbn [length]. lia.
  - rewrite Hi.
    repeat (first [rewrite decide_True by done | rewrite decide_False by done]).
    rewrite decide_False by (intros Hn; apply Hn; right; right; by left).
    cbn [length]. lia.
  - rewrite He.
    repeat (first [rewrite decide_True by done | rewrite decide_False by done]).
    rewrite decide_False by (intros Hn; apply Hn; right; right; right; by left).
    cbn [length]. lia.
  - rewrite decide_True; [cbn [length]; lia|].
    rewrite !elem_of_cons. intros [?|[?|[?|[?|Hn]]]]; try done.
    by apply not_elem_of_nil in Hn.
Qed.

(** X19: the cards of the dashboard.  On the page of a report (whose number
    of results fits an [int]) the total is the number of results, and the
    table and the chart have one row, one label and one bar per result.
    The four severity cards add up to the total less the number of results
    whose severity is none of high, medium, info and error; so they add up
    to the total exactly when every result has one of these severities. *)
Theorem dashboard_cards_add_up (r : Report) :
  len (Results r) ≤ maxInt →
  ∃ stats rows labels data,
    render (Some r) = LivePage (ScanID r) (ReportTimestamp r) stats rows labels data
    ∧ statTotal stats = Z.of_nat (length rows)
    ∧ length labels = length rows
    ∧ length data = length rows
    ∧ statHigh stats + statMedium stats + statInfo stats + statErrors stats
      = statTotal stats
        - Z.of_nat (length (filter (λ x, Severity x ∉ ["high"; "medium"; "info"; "error"])
                              (elems (Results r))))
    ∧ (statHigh stats + statMedium stats + statInfo stats + statErrors stats
       = statTotal stats
       ↔ ∀ x, x ∈ elems (Results r) → Severity x ∈ ["high"; "medium"; "info"; "error"]).
Proof.
  intros Hlen. unfold len in Hlen. cbn [render]. do 4 eexists. split; [reflexivity|].
  cbn [statTotal statHigh statMedium statInfo statErrors]. unfold len.
  set (l := elems (Results r)) in *.
  assert (Hcount : ∀ s, countSeverity l s
            = Z.of_nat (length (filter (λ x, Severity x = s) l))).
  { intros s. unfold countSeverity. rewrite countSeverity_foldl by lia. lia. }
  pose proof (severities_partition_with_others l) as Hsum.
  rewrite !length_fmap, !Hcount.
  split_and!; try done; try lia.
  split.
  - intros Heq x Hx. destruct (decide (Severity x ∈ ["high"; "medium"; "info"; "error"]))
      as [|Hno]; [done|].
    assert (x ∈ filter (λ x, Severity x ∉ ["high"; "medium"; "info"; "error"]) l)
      as Hin by (by apply list_elem_of_filter).
    set (others := filter (λ x, Severity x ∉ ["high"; "medium"; "info"; "error"]) l) in *.
    destruct others as [|y ys]; [by apply not_elem_of_nil in Hin|].
    cbn [length] in Hsum. lia.
  - intros Hall.
    rewrite (filter_none (λ x, Severity x ∉ ["high"; "medium"; "info"; "error"]) l)
      in Hsum by (intros x Hx Hno; by apply Hno, Hall).
    cbn [length] in Hsum. lia.
Qed.

Lemma dashboard_cards_add_up_witness :
  ∃ stats rows labels data,
    render (Some sample_report)
    = LivePage (ScanID sample_report) (ReportTimestamp sample_report) stats rows labels data
    ∧ statTotal stats = Z.of_nat (length rows)
    ∧ length labels = length rows
    ∧ length data = length rows
    ∧ statHigh stats + statMedium stats + statInfo stats + statErrors stats
      = statTotal stats
        - Z.of_nat (length (filter (λ x, Severity x ∉ ["high"; "medium"; "info"; "error"])
                              (elems (Results sample_report))))
    ∧ (statHigh stats + statMedium stats + statInfo stats + statErrors stats
       = statTotal stats
       ↔ ∀ x, x ∈ elems (Results sample_report) →
              Severity x ∈ ["high"; "medium"; "info"; "error"]).
Proof.
  apply (dashboard_cards_add_up sample_report). by vm_compute.
Defined.

(** ** Concurrent calls are sequential calls *)

Lemma thread_steps_inv p w w' :
  thread_steps (p, w) (Return, w') →
  (p = Return ∧ w = w')
  ∨ ∃ p1 w1, thread_step p w p1 w1 ∧ thread_steps (p1, w1) (Return, w').
Proof.
  intros Hs. apply rtc_inv in Hs as [[= -> ->]|([p1 w1] & Hstep & Hrest)].
  - by left.
  - right. by exists p1, w1.
Qed.

(** The first operation of a caller that runs alone to its end. *)
Ltac first_step H :=
  let Heq := fresh in let p1 := fresh "p" in let w1 := fresh "w" in
  let Hstep := fresh "Hstep" in
  apply thread_steps_inv in H as [[Heq _]|(p1 & w1 & Hstep & H)];
  [discriminate Heq|]; inversion Hstep; subst; clear Hstep.

Section lone.
Context (w w' : World).

Lemma lone_Return : thread_steps (Return, w) (Return, w') → w = w'.
Proof.
  intros [[_ ->]|(p1 & w1 & Hstep & _)]%thread_steps_inv; [done|]. inversion Hstep.
Qed.

Lemma lone_MuLock k :
  thread_steps (MuLock k, w) (Return, w') →
  clientsMu w = false ∧ thread_steps (k, set_clientsMu true w) (Return, w').
Proof. intros H. by first_step H. Qed.

Lemma lone_MuUnlock k :
  thread_steps (MuUnlock k, w) (Return, w') →
  clientsMu w = true ∧ thread_steps (k, set_clientsMu false w) (Return, w').
Proof. intros H. by first_step H. Qed.

Lemma lone_MapStore c k :
  thread_steps (MapStore c k, w) (Return, w') →
  thread_steps (k, set_clients (insert c true) w) (Return, w').
Proof. intros H. by first_step H. Qed.

Lemma lone_MapDelete c k :
  thread_steps (MapDelete c k, w) (Return, w') →
  thread_steps (k, set_clients (delete c) w) (Return, w').
Proof. intros H. by first_step H. Qed.

Lemma lone_MapLen k :
  thread_steps (MapLen k, w) (Return, w') →
  thread_steps (k (size (clients w)), w) (Return, w').
Proof. intros H. by first_step H. Qed.

Lemma lone_ForRange body k :
  thread_steps (ForRange body k, w) (Return, w') →
  ∃ ks, ks ≡ₚ elements (dom (clients w))
        ∧ thread_steps (Iterating ks body k, w) (Return, w').
Proof. intros H. first_step H. by eexists. Qed.

Lemma lone_Iterating_nil body k :
  thread_steps (Iterating [] body k, w) (Return, w') →
  thread_steps (k, w) (Return, w').
Proof. intros H. by first_step H. Qed.

Lemma lone_Iterating_cons c ks body k :
  thread_steps (Iterating (c :: ks) body k, w) (Return, w') →
  (c ∈ dom (clients w)
   ∧ thread_steps (seq (body c) (Iterating ks body k), w) (Return, w'))
  ∨ ((c ∉ dom (clients w)) ∧ thread_steps (Iterating ks body k, w) (Return, w')).
Proof. intros H. first_step H; [by left|by right]. Qed.

Lemma lone_WriteMessage c msg k :
  thread_steps (WriteMessage c msg k, w) (Return, w') →
  ((c ∉ closed w) ∧ thread_steps (k false, add_delivered c msg w) (Return, w'))
  ∨ thread_steps (k true, w) (Return, w').
Proof. intros H. first_step H; [by left|by right]. Qed.

Lemma lone_ConnClose c k :
  thread_steps (ConnClose c k, w) (Return, w') →
  thread_steps (k, add_closed c w) (Return, w').
Proof. intros H. by first_step H. Qed.

Lemma lone_LogPrint l k :
  thread_steps (LogPrint l k, w) (Return, w') →
  thread_steps (k, add_log l w) (Return, w').
Proof. intros H. by first_step H. Qed.

End lone.

Lemma lone_addClient e c w w' :
  thread_steps (addClient c, w) (Return, w') → exec e (addClient c) w = Some w'.
Proof.
  intros H. unfold addClient in H.
  apply lone_MuLock in H as [Hmu H].
  apply lone_MapStore, lone_MapLen, lone_LogPrint, lone_MuUnlock in H as [_ H].
  apply lone_Return in H as <-. by rewrite exec_addClient.
Qed.

Lemma lone_removeClient e c w w' :
  thread_steps (removeClient c, w) (Return, w') → exec e (removeClient c) w = Some w'.
Proof.
  intros H. unfold removeClient in H.
  apply lone_MuLock in H as [Hmu H].
  apply lone_MapDelete, lone_ConnClose, lone_MapLen, lone_LogPrint, lone_MuUnlock
    in H as [_ H].
  apply lone_Return in H as <-. by rewrite exec_removeClient.
Qed.

Lemma range_loop_env_ext msg e1 e2 ks :
  (∀ c, c ∈ ks → c ∈ writeFails e1 ↔ c ∈ writeFails e2) →
  ∀ w, range_loop (λ c, exec e1 (send_or_drop msg c)) ks w
       = range_loop (λ c, exec e2 (send_or_drop msg c)) ks w.
Proof.
  induction ks as [|c ks IH]; intros Hext w; [done|].
  cbn [range_loop]. rewrite !exec_send_or_drop.
  assert (write_fails e1 w c = write_fails e2 w c) as ->.
  { unfold write_fails. apply bool_decide_ext.
    rewrite (Hext c) by left. done. }
  assert (Hks : ∀ c', c' ∈ ks → c' ∈ writeFails e1 ↔ c' ∈ writeFails e2)
    by (intros c' Hc'; apply Hext; by right).
  destruct (decide (c ∈ dom (clients w))); [|by apply IH].
  by rewrite IH.
Qed.

(** A pass of the loop of [broadcast] by a caller running alone: the writes
    that failed determine an environment in which [exec] makes the same
    pass. *)
Lemma lone_loop msg k ks :
  NoDup ks → ∀ w w',
  thread_steps (Iterating ks (send_or_drop msg) k, w) (Return, w') →
  ∃ (F : gset Conn) (w2 : World),
    F ⊆ list_to_set ks
    ∧ (∀ ro, range_loop (λ c, exec (mkEnv ro F) (send_or_drop msg c)) ks w = Some w2)
    ∧ thread_steps (k, w2) (Return, w').
Proof.
  induction 1 as [|c ks Hc Hnd IH]; intros w w' H.
  - apply lone_Iterating_nil in H. exists ∅, w. split_and!; try done.
  - apply lone_Iterating_cons in H as [[Hin H]|[Hnin H]].
    + (* the key is visited *)
      cbn [seq send_or_drop] in H.
      apply lone_WriteMessage in H as [[Hopen H]|H]; cbn [seq] in H.
      * (* the write succeeded *)
        destruct (IH _ _ H) as (F & w2 & HF & Hloop & Hk).
        exists F, w2. split_and!; [set_solver| |done].
        intros ro. cbn [range_loop]. rewrite decide_True by done.
        rewrite exec_send_or_drop.
        assert (write_fails (mkEnv ro F) w c = false) as ->; [|apply Hloop].
        unfold write_fails. apply bool_decide_eq_false. cbn [writeFails].
        intros [HcF|?]; [|done]. apply HF, elem_of_list_to_set in HcF. done.
      * (* the write failed *)
        apply lone_LogPrint, lone_MapDelete, lone_ConnClose in H.
        destruct (IH _ _ H) as (F & w2 & HF & Hloop & Hk).
        exists ({[c]} ∪ F), w2. split_and!; [set_solver| |done].
        intros ro. cbn [range_loop]. rewrite decide_True by done.
        rewrite exec_send_or_drop.
        assert (write_fails (mkEnv ro ({[c]} ∪ F)) w c = true) as ->.
        { unfold write_fails. apply bool_decide_eq_true. cbn [writeFails]. set_solver. }
        rewrite <- (Hloop ro). apply range_loop_env_ext.
        intros c' Hc'. cbn [writeFails]. set_solver.
    + (* the key is gone *)
      destruct (IH _ _ H) as (F & w2 & HF & Hloop & Hk).
      exists F, w2. split_and!; [set_solver| |done].
      intros ro. cbn [range_loop]. rewrite decide_False by done. apply Hloop.
Qed.

Lemma lone_broadcast msg w w' :
  thread_steps (broadcast msg, w) (Return, w') →
  ∃ e, env_ok e ∧ exec e (broadcast msg) w = Some w'.
Proof.
  intros H. rewrite broadcast_unfold in H.
  apply lone_MuLock in H as [Hmu H].
  apply lone_ForRange in H as (ks & Hperm & H).
  cbn [clients set_clientsMu] in Hperm.
  destruct (lone_loop msg (MuUnlock Return) ks) with (2 := H) as (F & w2 & _ & Hloop & Hk).
  { rewrite Hperm. apply NoDup_elements. }
  apply lone_MuUnlock in Hk as [Hmu2 Hk]. apply lone_Return in Hk as <-.
  set (ro := λ l : list Conn, if decide (l = elements (dom (clients w))) then ks else l).
  exists (mkEnv ro F). split.
  - intros l. cbn [rangeOrder]. unfold ro. case_decide as Hl; [by subst|done].
  - rewrite broadcast_unfold. cbn [exec]. rewrite Hmu.
    assert (range_keys (mkEnv ro F) (set_clientsMu true w) = ks) as ->.
    { unfold range_keys; cbn [rangeOrder clients set_clientsMu]. unfold ro.
      by rewrite decide_True. }
    rewrite (Hloop ro). by rewrite Hmu2.
Qed.

(** Whatever a caller running alone ends with, [exec] computes in a suitable
    environment. *)
Lemma lone_call f w w' :
  thread_steps (call_prog f, w) (Return, w') →
  ∃ e, env_ok e ∧ exec e (call_prog f) w = Some w'.
Proof.
  destruct f as [c|c|msg]; cbn [call_prog]; intros H.
  - exists env_fine. split; [apply env_fine_ok|by apply lone_addClient].
  - exists env_fine. split; [apply env_fine_ok|by apply lone_removeClient].
  - by apply lone_broadcast.
Qed.

Lemma run_calls_snoc hist e f w0 ws w' :
  run_calls hist w0 = Some ws →
  exec e (call_prog f) ws = Some w' →
  run_calls (hist ++ [(e, f)]) w0 = Some w'.
Proof.
  intros Hrun Hex. unfold run_calls in *. rewrite foldl_app, Hrun. done.
Qed.

Lemma returned_insert ts i t t' :
  ts !! i = Some t →
  returned_call t = None →
  returned (<[i:=t']> ts)
  ≡ₚ match returned_call t' with Some f => [f] | None => [] end ++ returned ts.
Proof.
  intros Hi Ht. pose proof (lookup_lt_Some _ _ _ Hi) as Hlt.
  unfold returned.
  rewrite insert_take_drop by done.
  trans (match returned_call t' with Some f => [f] | None => [] end
         ++ omap returned_call (take i ts ++ t :: drop (S i) ts));
    [|by rewrite take_drop_middle].
  rewrite !omap_app. cbn [omap list_omap]. rewrite Ht.
  destruct (returned_call t') as [f|]; [|done].
  by rewrite <- Permutation_middle.
Qed.

Lemma critical_not_Return : ¬ critical Return.
Proof. intros H. inversion H. Qed.

Lemma returned_call_critical t : critical (code t) → returned_call t = None.
Proof. unfold returned_call. intros H. by destruct H. Qed.

Lemma serial_inv_init w0 : serial_inv w0 [] w0.
Proof.
  exists [], w0. split_and!; try done. left. split; [|done]. intros i t Hi. done.
Qed.

Lemma pool_step_serial w0 ts w ts' w' :
  pool_step (ts, w) (ts', w') →
  pool_inv ts w → serial_inv w0 ts w → serial_inv w0 ts' w'.
Proof.
  intros Hstep (Hok & Hexcl & Hmu) (hist & ws & Henv & Hperm & Hrun & Hstate).
  inversion Hstep as [ts0 w1 f|ts0 w1 i t p' w1' Hi Hts]; subst.
  - (* a new call *)
    exists hist, ws. split_and!; try done.
    + unfold returned. rewrite omap_app. cbn [omap list_omap returned_call code].
      destruct (call_prog_locks f) as (k & -> & _). by rewrite app_nil_r.
    + destruct Hstate as [[Hnone ->]|(i & t & Hi & Hh & Hsteps)].
      * left. split; [|done]. intros i t Hi.
        apply lookup_app_Some in Hi as [Hi|[_ Hi]]; [by eapply Hnone|].
        apply list_lookup_singleton_Some in Hi as [_ <-]. done.
      * right. exists i, t. split_and!; try done. by apply lookup_app_l_Some.
  - (* a caller's operation *)
    pose proof (lookup_lt_Some _ _ _ Hi) as Hlt.
    destruct (Hok i t Hi) as [[Hh [Hcode|Hcode]]|[Hh Hcrit]].
    + (* Lock *)
      destruct (call_prog_locks (origin t)) as (k & Hk & Hcrit).
      rewrite Hcode, Hk in Hts. inversion Hts as [k0 w1 Hfree| | | | | | | | | | | |]; subst.
      destruct Hstate as [[Hnone ->]|(j & tj & Hj & Hhj & _)]; last first.
      { assert (clientsMu w = true) by (apply Hmu; by exists j, tj). congruence. }
      exists hist, ws. split_and!; try done.
      * rewrite returned_insert with (t := t) (1 := Hi).
        -- rewrite (returned_call_critical (mkThread _ _ _)) by done. done.
        -- unfold returned_call. by rewrite Hcode, Hk.
      * right. eexists i, _. split_and!; [by apply list_lookup_insert_eq| |].
        -- by rewrite Hcode, Hk.
        -- cbn [origin code]. rewrite Hk. apply rtc_once. by apply ts_lock.
    + rewrite Hcode in Hts. inversion Hts.
    + (* inside the critical section *)
      destruct Hstate as [[Hnone _]|(j & tj & Hj & Hhj & Hsteps)].
      { rewrite (Hnone i t Hi) in Hh. done. }
      assert (j = i) as -> by (by eapply Hexcl).
      rewrite Hi in Hj. injection Hj as <-.
      assert (Hsteps' : thread_steps (call_prog (origin t), ws) (p', w')).
      { eapply rtc_r; [exact Hsteps|done]. }
      destruct (critical_step _ _ _ _ Hcrit Hts)
        as [(Hp & -> & Hmu1 & Hmu2 & _)|(Hcrit' & Hafter & Hmu')].
      * (* the final unlock: the call is complete *)
        destruct (lone_call _ _ _ Hsteps') as (e & He & Hex).
        exists (hist ++ [(e, origin t)]), w'. split_and!.
        -- apply Forall_app. split; [done|]. by repeat constructor.
        -- rewrite fmap_app. cbn [fmap list_fmap snd].
           rewrite returned_insert with (t := t) (1 := Hi)
             by (by apply returned_call_critical).
           cbn [returned_call code]. rewrite Hperm.
           by rewrite <- Permutation_cons_append.
        -- by eapply run_calls_snoc.
        -- left. split; [|done]. intros j tj Hj.
           destruct (decide (i = j)) as [<-|Hne].
           ++ rewrite list_lookup_insert_eq in Hj by done. injection Hj as <-.
              by rewrite Hp.
           ++ rewrite list_lookup_insert_ne in Hj by done.
              destruct (holding tj) eqn:Hhj'; [|done].
              by specialize (Hexcl i j t tj Hi Hj Hh Hhj').
      * (* any other operation *)
        exists hist, ws. split_and!; try done.
        -- rewrite returned_insert with (t := t) (1 := Hi)
             by (by apply returned_call_critical).
           by rewrite (returned_call_critical (mkThread _ _ _)).
        -- right. eexists i, _. split_and!; [by apply list_lookup_insert_eq| |done].
           cbn [holding]. by rewrite Hh.
Qed.

Lemma pool_steps_serial w0 s s' :
  rtc pool_step s s' →
  pool_inv s.1 s.2 → serial_inv w0 s.1 s.2 → serial_inv w0 s'.1 s'.2.
Proof.
  induction 1 as [s|[ts w] [ts1 w1] s' Hstep _ IH]; [done|].
  intros Hinv Hser. apply IH.
  - by eapply pool_step_inv.
  - by eapply pool_step_serial.
Qed.

Ltac run_thread i :=
  eapply rtc_l;
  [eapply (pool_run _ _ i); [reflexivity|cbn; econstructor; try reflexivity]|];
  cbn.

Lemma two_calls_done_reachable : rtc pool_step ([], init_world) two_calls_done.
Proof.
  eapply rtc_l; [apply (pool_call [] init_world (CallAddClient 1%positive))|].
  eapply rtc_l; [apply (pool_call _ init_world (CallRemoveClient 1%positive))|].
  cbn.
  do 5 run_thread 0%nat.
  do 6 run_thread 1%nat.
  apply rtc_refl.
Defined.

(** X20: concurrent calls are sequential calls.  Let any number of
    goroutines call [addClient], [removeClient] and [broadcast], their
    operations interleaved in any way, starting with the mutex free.
    Whenever the mutex is free, the shared state (registry, closed
    connections, frames delivered, log) is exactly the state that one
    goroutine produces by making, one after the other in some order, the
    calls that have returned so far. *)
Theorem concurrent_calls_serialize (w0 : World) (ts : list Thread) (w : World) :
  clientsMu w0 = false →
  rtc pool_step ([], w0) (ts, w) →
  clientsMu w = false →
  ∃ hist : list (Env * Call),
    Forall (λ ef, env_ok ef.1) hist
    ∧ hist.*2 ≡ₚ returned ts
    ∧ run_calls hist w0 = Some w.
Proof.
  intros Hmu0 Hreach Hfree.
  pose proof (pool_steps_inv _ _ Hreach (pool_inv_init w0 Hmu0)) as Hinv.
  pose proof (pool_steps_serial w0 _ _ Hreach (pool_inv_init w0 Hmu0) (serial_inv_init w0))
    as (hist & ws & Henv & Hperm & Hrun & Hstate).
  cbn [fst snd] in *. destruct Hinv as (_ & _ & Hmu).
  exists hist. split_and!; try done.
  destruct Hstate as [[_ ->]|(i & t & Hi & Hh & _)]; [done|].
  assert (clientsMu w = true) by (apply Hmu; by exists i, t). congruence.
Qed.

Lemma concurrent_calls_serialize_witness :
  ∃ hist : list (Env * Call),
    Forall (λ ef, env_ok ef.1) hist
    ∧ hist.*2 ≡ₚ returned two_calls_done.1
    ∧ run_calls hist init_world = Some two_calls_done.2.
Proof.
  apply (concurrent_calls_serialize init_world two_calls_done.1 two_calls_done.2).
  - reflexivity.
  - exact two_calls_done_reachable.
  - reflexivity.
Defined.

(** X21: the two readings of a call agree.  For each of the three registry
    functions, the states a caller running alone can end in, operation by
    operation, with the runtime choosing the order of the map and the
    transport the writes that fail, are exactly the states [exec] computes
    in the environments that make these choices. *)
Theorem lone_caller_agrees (f : Call) (w w' : World) :
  (∃ e, env_ok e ∧ exec e (call_prog f) w = Some w')
  ↔ thread_steps (call_prog f, w) (Return, w').
Proof.
  split.
  - intros (e & He & Hex). by apply (exec_call_thread_steps e).
  - apply lone_call.
Qed.

(** X22: unregistering a client that a pass has dropped.  When a pass of
    [broadcast] has dropped a client because the write to it failed, the
    call of [removeClient] that its handler makes later finds the connection
    gone from the registry and closed already: it changes neither the
    registry nor the closed connections nor the frames delivered, and logs
    the unchanged total. *)
Theorem removeClient_after_drop (e e' : Env) (msg : string) (w : World) (c : Conn) :
  env_ok e →
  clientsMu w = false →
  c ∈ dom (clients w) →
  write_fails e w c = true →
  ∃ w1 w2, exec e (broadcast msg) w = Some w1
    ∧ exec e' (removeClient c) w1 = Some w2
    ∧ clients w2 = clients w1
    ∧ closed w2 = closed w1
    ∧ delivered w2 = delivered w1
    ∧ logs w2 = logs w1 ++ [LogClientDisconnected (Size w1)]
    ∧ clientsMu w2 = false.
Proof.
  intros He Hmu Hc Hf.
  destruct (broadcast_spec e He msg w Hmu) as (w1 & Hex & Hmu1 & Hcl & Hclosed & _).
  exists w1. eexists. split; [done|]. split; [by apply exec_removeClient|].
  cbn [clients closed delivered logs clientsMu].
  assert (Hgone : clients w1 !! c = None) by (by rewrite Hcl, Hf).
  rewrite delete_id by done.
  split_and!; try done.
  apply set_eq. intros c'. rewrite elem_of_union, elem_of_singleton.
  split; [|by right]. intros [->|?]; [|done]. apply Hclosed. by right.
Qed.

Lemma removeClient_after_drop_witness :
  ∃ w1 w2, exec env_2_broken (broadcast "reload") three_clients = Some w1
    ∧ exec env_fine (removeClient 2%positive) w1 = Some w2
    ∧ clients w2 = clients w1
    ∧ closed w2 = closed w1
    ∧ delivered w2 = delivered w1
    ∧ logs w2 = logs w1 ++ [LogClientDisconnected (Size w1)]
    ∧ clientsMu w2 = false.
Proof.
  apply (removeClient_after_drop env_2_broken env_fine "reload" three_clients 2%positive).
  - exact env_2_broken_ok.
  - reflexivity.
  - apply dom_three_clients. right; left; reflexivity.
  - reflexivity.
Defined.
